(** * Optimistic locking for Django models ([ool/__init__.py])

    A shallow embedding of the module: the scope controller
    [optimisticLocking], the [ConcurrentUpdate] exception, [VersionField]
    and the [VersionedMixin] hooks [_do_insert] and [_do_update].

    Python objects live in a store ([heap]) and are named by references, so
    that a scope entered on an instance and a later save of the same
    instance see one object.  The database is a family of tables keyed by
    model name; the statements sent to it are recorded in [queries]. *)

From stdpp Require Import base gmap strings list fin_maps.

Local Open Scope Z_scope.

(** ** Python values *)

(** A field value or a counter read back from an attribute: [None] or an
    integer. *)
Abbreviation pyval := (option Z).

(** Truth value of an object in a boolean context: [None] and [0] are
    false, every other integer (negative ones too) is true. *)
Definition truthy (v : pyval) : bool :=
  match v with
  | Some z => negb (z =? 0)
  | None => false
  end.

(** [kwargs.setdefault(key, d)], for one key: [kw] is the caller's entry,
    if any. *)
Definition setdefault (kw : option pyval) (d : pyval) : pyval :=
  match kw with
  | Some v => v
  | None => d
  end.

(** ** Model metadata *)

(** A concrete field of a model: its attribute name, whether it is an
    instance of [VersionField], the model that declares it and its
    [default].  The default is a plain value ([None] or an integer); a
    field declared with a callable default is not covered. *)
Record field := Field {
  f_attname : string;
  f_is_version : bool;
  f_model : string;
  f_default : pyval
}.

(** [VersionField.__init__]: [kwargs.setdefault('default', 0)], then the
    integer field's constructor. *)
Definition VersionField (attname model : string) (kw_default : option pyval) : field :=
  {| f_attname := attname; f_is_version := true; f_model := model;
     f_default := setdefault kw_default (Some 0) |}.

(** A field of any other class. *)
Definition PlainField (attname model : string) (kw_default : pyval) : field :=
  {| f_attname := attname; f_is_version := false; f_model := model;
     f_default := kw_default |}.

(** A model instance.  [inst_mro] is the method resolution order of its
    class (the class first, then its bases); [inst_fields] is
    [self._meta.fields]; [inst_dict] holds the loaded field attributes (a
    field whose attribute name is absent is deferred); [inst_ol] is the
    instance attribute [_optimisticLocking], if it was ever set. *)
Record instance := Instance {
  inst_mro : list string;
  inst_fields : list field;
  inst_pk : Z;
  inst_dict : gmap string pyval;
  inst_ol : option Z
}.

Definition set_inst_dict (f : gmap string pyval → gmap string pyval) (o : instance) : instance :=
  {| inst_mro := inst_mro o; inst_fields := inst_fields o; inst_pk := inst_pk o;
     inst_dict := f (inst_dict o); inst_ol := inst_ol o |}.

Definition set_inst_ol (v : Z) (o : instance) : instance :=
  {| inst_mro := inst_mro o; inst_fields := inst_fields o; inst_pk := inst_pk o;
     inst_dict := inst_dict o; inst_ol := Some v |}.

(** What [optimisticLocking(model)] may be given: a model instance (a
    reference into the store) or a model class (its name and its bases in
    resolution order). *)
Inductive owner :=
  | OInst (oid : nat)
  | OClass (c : string) (bases : list string).

(** ** Querysets and statements *)

(** One [filter(...)] condition: on the primary key, or equality of a
    column with an integer. *)
Inductive cond :=
  | CPk (pk : Z)
  | CEq (col : string) (v : Z).

Record queryset := QuerySet {
  qs_model : string;
  qs_conds : list cond
}.

(** A value staged for writing: a literal, or the expression
    [F(col) + 1] evaluated by the database. *)
Inductive wval :=
  | WLit (v : pyval)
  | WFInc (col : string).

(** The triples [(field, model, value)] of [values]. *)
Abbreviation staged := (field * option string * pyval)%type.
Abbreviation written := (field * option string * wval)%type.

Inductive stmt :=
  | SExists (qs : queryset)
  | SUpdate (qs : queryset) (values : list written)
  | SSelect (models : list string) (pk : Z)
  | SInsert (model : string) (pk : Z).

(** ** The world *)

Record world := World {
  (** tables by model name; a table maps a primary key to a row, a row maps
      a column to its value ([None] is NULL) *)
  db : gmap string (gmap Z (gmap string pyval));
  (** the Python objects *)
  heap : gmap nat instance;
  (** the class attribute [_optimisticLocking], by class name *)
  class_ol : gmap string Z;
  (** [optimisticLocking.current_state], a [threading.local]: the attribute
      [_optimisticLocking] of each thread *)
  current_state : gmap nat Z;
  (** the statements executed so far, latest first *)
  queries : list stmt
}.

Definition set_db (f : gmap string (gmap Z (gmap string pyval)) → gmap string (gmap Z (gmap string pyval)))
    (w : world) : world :=
  {| db := f (db w); heap := heap w; class_ol := class_ol w;
     current_state := current_state w; queries := queries w |}.

Definition set_heap (f : gmap nat instance → gmap nat instance) (w : world) : world :=
  {| db := db w; heap := f (heap w); class_ol := class_ol w;
     current_state := current_state w; queries := queries w |}.

Definition set_class_ol (f : gmap string Z → gmap string Z) (w : world) : world :=
  {| db := db w; heap := heap w; class_ol := f (class_ol w);
     current_state := current_state w; queries := queries w |}.

Definition set_current_state (f : gmap nat Z → gmap nat Z) (w : world) : world :=
  {| db := db w; heap := heap w; class_ol := class_ol w;
     current_state := f (current_state w); queries := queries w |}.

Definition log (s : stmt) (w : world) : world :=
  {| db := db w; heap := heap w; class_ol := class_ol w;
     current_state := current_state w; queries := s :: queries w |}.

(** ** Exceptions and the state-and-exception monad *)

Inductive exn :=
  | ImproperlyConfigured
  | RuntimeError
  | AssertionError
  | DoesNotExist
  (** the database refuses a statement: a key that is taken *)
  | IntegrityError
  (** [ConcurrentUpdate.model], a reference to the refreshed instance *)
  | ConcurrentUpdate (model : nat)
  (** a reference to no object; Python keeps referenced objects alive, so
      this cannot arise from a well-formed world *)
  | ReferenceError.

Inductive result (A : Type) :=
  | Ret (a : A)
  | Raise (e : exn).
Arguments Ret {A} a.
Arguments Raise {A} e.

Definition M (A : Type) : Type := world → world * result A.

Definition ret {A} (a : A) : M A := λ w, (w, Ret a).

Definition raise {A} (e : exn) : M A := λ w, (w, Raise e).

Definition bind {A B} (c : M A) (k : A → M B) : M B :=
  λ w, match c w with
       | (w', Ret a) => k a w'
       | (w', Raise e) => (w', Raise e)
       end.

Notation "'let!' x ':=' c 'in' k" := (bind c (λ x, k))
  (at level 10, x name, c at level 100, k at level 200).
Notation "'do!' c 'in' k" := (bind c (λ _, k))
  (at level 10, c at level 100, k at level 200).

Definition get_obj (oid : nat) : M instance :=
  λ w, match heap w !! oid with
       | Some o => (w, Ret o)
       | None => (w, Raise ReferenceError)
       end.

Definition put_obj (oid : nat) (o : instance) : M unit :=
  λ w, (set_heap <[oid := o]> w, Ret tt).

(** [setattr(self, attname, v)] for a field attribute. *)
Definition setattr (oid : nat) (attname : string) (v : pyval) : M unit :=
  let! o := get_obj oid in
  put_obj oid (set_inst_dict <[attname := v]> o).

(** ** [class optimisticLocking] *)

Module optimisticLocking.

(** What [self.model or self.current_state] evaluates to: model
    instances and classes are true in a boolean context. *)
Inductive stateObj :=
  | StThread
  | StModel (m : owner).

Definition state_obj (model : option owner) : stateObj :=
  match model with
  | Some m => StModel m
  | None => StThread
  end.

(** Lookup of a class attribute along a resolution order. *)
Fixpoint mro_lookup (attrs : gmap string Z) (mro : list string) : option Z :=
  match mro with
  | [] => None
  | c :: rest =>
      match attrs !! c with
      | Some v => Some v
      | None => mro_lookup attrs rest
      end
  end.

(** [getattr(stateObj, '_optimisticLocking', d)], in thread [tid]: the
    thread's own attribute for the thread-local object; for an instance
    its own attribute, else the first class of its resolution order that
    has one; for a class the same search from the class. *)
Definition getattr_ol (tid : nat) (s : stateObj) (d : Z) : M Z :=
  match s with
  | StThread => λ w, (w, Ret (default d (current_state w !! tid)))
  | StModel (OInst oid) =>
      let! o := get_obj oid in
      match inst_ol o with
      | Some v => ret v
      | None => λ w, (w, Ret (default d (mro_lookup (class_ol w) (inst_mro o))))
      end
  | StModel (OClass c bases) =>
      λ w, (w, Ret (default d (mro_lookup (class_ol w) (c :: bases))))
  end.

(** [stateObj._optimisticLocking = v]: always on the object itself. *)
Definition setattr_ol (tid : nat) (s : stateObj) (v : Z) : M unit :=
  match s with
  | StThread => λ w, (set_current_state <[tid := v]> w, Ret tt)
  | StModel (OInst oid) =>
      let! o := get_obj oid in
      put_obj oid (set_inst_ol v o)
  | StModel (OClass c _) => λ w, (set_class_ol <[c := v]> w, Ret tt)
  end.

Definition __enter__ (tid : nat) (model : option owner) : M unit :=
  let stateObj := state_obj model in
  let! v := getattr_ol tid stateObj 0 in
  setattr_ol tid stateObj (v + 1).

Definition __exit__ (tid : nat) (model : option owner) : M unit :=
  let stateObj := state_obj model in
  let! v := getattr_ol tid stateObj 1 in
  setattr_ol tid stateObj (v - 1).

(** [__call__]: the wrapper runs [func] between [__enter__] and
    [__exit__]; the [with] statement exits on an exception too and lets
    it propagate. *)
Definition __call__ {A} (tid : nat) (model : option owner) (func : M A) : M A :=
  do! __enter__ tid model in
  λ w, match func w with
       | (w', r) =>
           match __exit__ tid model w' with
           | (w'', Ret _) => (w'', r)
           | (w'', Raise e) => (w'', Raise e)
           end
       end.

(** [active(cls, model=None)]: [x or y] is [x] when [x] is true, else
    [y]; [model and z] is [model] (that is [None]) when no model is
    given, else [z]. *)
Definition active (tid : nat) (model : option owner) : M pyval :=
  let! a := getattr_ol tid StThread 0 in
  if truthy (Some a) then ret (Some a)
  else match model with
       | None => ret None
       | Some m => let! v := getattr_ol tid (StModel m) 0 in ret (Some v)
       end.

End optimisticLocking.

(** ** The data-mapping layer

    Django's side of the calls this module makes: querysets over the
    tables, [Model._do_update], [Model._do_insert], [refresh_from_db] and
    the attribute read of a field.  One database is modelled, so [using]
    is carried and not looked at; models have the default
    [select_on_save = False]. *)

Module Model.

Definition cond_holds (pk : Z) (r : gmap string pyval) (c : cond) : bool :=
  match c with
  | CPk p => bool_decide (pk = p)
  | CEq col v => bool_decide (r !! col = Some (Some v))
  end.

Definition qs_match (conds : list cond) (pk : Z) (r : gmap string pyval) : bool :=
  forallb (cond_holds pk r) conds.

(** [qs.filter(c)] *)
Definition filter_ (qs : queryset) (c : cond) : queryset :=
  {| qs_model := qs_model qs; qs_conds := qs_conds qs ++ [c] |}.

Definition table_of (d : gmap string (gmap Z (gmap string pyval))) (model : string)
    : gmap Z (gmap string pyval) :=
  default ∅ (d !! model).

(** The rows a queryset selects. *)
Definition qs_rows (d : gmap string (gmap Z (gmap string pyval))) (qs : queryset)
    : gmap Z (gmap string pyval) :=
  filter (λ kr, Is_true (qs_match (qs_conds qs) kr.1 kr.2)) (table_of d (qs_model qs)).

(** [qs.exists()] *)
Definition exists_ (qs : queryset) : M bool :=
  λ w, (log (SExists qs) w, Ret (0 <? size (qs_rows (db w) qs))%nat).

(** The value a SET clause assigns, read against the row as it was:
    [F(col) + 1] of NULL is NULL.  The sum is the integer sum: the tables
    of this model keep any integer, and the bounds of the version column
    are the hypothesis [in_column] of the theorems that need the database
    to accept a version. *)
Definition eval_wval (old : gmap string pyval) (e : wval) : pyval :=
  match e with
  | WLit v => v
  | WFInc col =>
      match old !! col with
      | Some (Some z) => Some (z + 1)
      | _ => None
      end
  end.

Definition apply_values (values : list written) (old : gmap string pyval) : gmap string pyval :=
  foldl (λ r (e : written), <[f_attname e.1.1 := eval_wval old e.2]> r) old values.

(** [qs._update(values)]: one UPDATE statement; returns the number of rows
    matched.  Every value is accepted (see [in_column] for the values the
    version column accepts). *)
Definition _update (qs : queryset) (values : list written) : M nat :=
  λ w,
    let upd := λ (pk : Z) (r : gmap string pyval),
      Some (if qs_match (qs_conds qs) pk r then apply_values values r else r) in
    (log (SUpdate qs values) (set_db (alter (map_imap upd) (qs_model qs)) w),
     Ret (size (qs_rows (db w) qs))).

(** [Model._do_update]: with nothing to write the row is only looked for
    (or, when [update_fields] was given, the update counts as done);
    otherwise one UPDATE restricted to the primary key. *)
Definition _do_update (base_qs : queryset) (using_ : string) (pk_val : Z)
    (values : list written) (update_fields : option (list string)) (forced_update : bool)
    : M bool :=
  let filtered := filter_ base_qs (CPk pk_val) in
  match values with
  | [] =>
      match update_fields with
      | Some _ => ret true
      | None => exists_ filtered
      end
  | _ :: _ =>
      let! n := _update filtered values in
      ret (0 <? n)%nat
  end.

(** The column of field [f] in the row of key [pk], if that row exists. *)
Definition fetch (d : gmap string (gmap Z (gmap string pyval))) (pk : Z) (f : field)
    : option pyval :=
  match d !! f_model f with
  | Some tbl =>
      match tbl !! pk with
      | Some r => Some (default None (r !! f_attname f))
      | None => None
      end
  | None => None
  end.

(** The reload of the loaded fields of a record from its rows; [None] when
    a row is missing. *)
Fixpoint refresh_fields (d : gmap string (gmap Z (gmap string pyval))) (pk : Z)
    (fields : list field) (dict : gmap string pyval) : option (gmap string pyval) :=
  match fields with
  | [] => Some dict
  | f :: rest =>
      match fetch d pk f with
      | None => None
      | Some v =>
          refresh_fields d pk rest
            (match dict !! f_attname f with
             | Some _ => <[f_attname f := v]> dict
             | None => dict
             end)
      end
  end.

(** [self.refresh_from_db()]: reads the record by [self.pk] and
    overwrites every loaded field; [DoesNotExist] when it is gone. *)
Definition refresh_from_db (self : nat) : M unit :=
  let! o := get_obj self in
  λ w,
    let w1 := log (SSelect (map f_model (inst_fields o)) (inst_pk o)) w in
    match refresh_fields (db w) (inst_pk o) (inst_fields o) (inst_dict o) with
    | Some dict => (set_heap <[self := set_inst_dict (λ _, dict) o]> w1, Ret tt)
    | None => (w1, Raise DoesNotExist)
    end.

(** [self.get_deferred_fields()]: the concrete fields whose attribute is
    not in the instance's [__dict__]. *)
Definition get_deferred_fields (self : nat) : M (list string) :=
  let! o := get_obj self in
  ret (map f_attname (filter (λ f, inst_dict o !! f_attname f = None) (inst_fields o))).

(** [field.value_from_object(self)], that is [getattr(self, attname)]: a
    deferred attribute is first loaded from its row. *)
Definition value_from_object (f : field) (self : nat) : M pyval :=
  let! o := get_obj self in
  match inst_dict o !! f_attname f with
  | Some v => ret v
  | None =>
      λ w,
        let w1 := log (SSelect [f_model f] (inst_pk o)) w in
        match fetch (db w) (inst_pk o) f with
        | Some v => (set_heap <[self := set_inst_dict <[f_attname f := v]> o]> w1, Ret v)
        | None => (w1, Raise DoesNotExist)
        end
  end.

(** The values of [fields] read off the instance, as the INSERT sends
    them. *)
Fixpoint row_of (self : nat) (fields : list field) : M (gmap string pyval) :=
  match fields with
  | [] => ret ∅
  | f :: rest =>
      let! v := value_from_object f self in
      let! r := row_of self rest in
      ret (<[f_attname f := v]> r)
  end.

(** A key the table does not hold: the one an automatic primary key is
    given. *)
Definition fresh_key (tbl : gmap Z (gmap string pyval)) : Z :=
  1 + foldr Z.max 0 (map_to_list tbl).*1.

(** [Model._do_insert]: one INSERT into the table of [manager]'s model.
    With [update_pk] the key is automatic: the database assigns one and it
    is returned.  Otherwise the row goes under [self.pk], and the database
    refuses it when that key is taken: the row that holds it stays. *)
Definition _do_insert (self : nat) (manager using_ : string) (fields : list field)
    (update_pk raw : bool) : M pyval :=
  let! o := get_obj self in
  let! r := row_of self fields in
  λ w,
    let tbl := table_of (db w) manager in
    let key := if update_pk then fresh_key tbl else inst_pk o in
    match tbl !! key with
    | Some _ => (log (SInsert manager key) w, Raise IntegrityError)
    | None =>
        (log (SInsert manager key) (set_db <[manager := <[key := r]> tbl]> w),
         Ret (if update_pk then Some key else None))
    end.

End Model.

(** ** [class ConcurrentUpdate] *)

(** [ConcurrentUpdate.__init__]: refreshes [model] in place, then keeps
    the reference. *)
Definition ConcurrentUpdate_init (model : nat) : M exn :=
  do! Model.refresh_from_db model in
  ret (ConcurrentUpdate model).

(** ** [class VersionedMixin] *)

Module VersionedMixin.

Definition get_version_field (self : nat) : M field :=
  let! o := get_obj self in
  match List.find f_is_version (inst_fields o) with
  | Some f => ret f
  | None => raise ImproperlyConfigured
  end.

Definition _do_insert (self : nat) (manager using_ : string) (fields : list field)
    (update_pk raw : bool) : M pyval :=
  let! version_field := get_version_field self in
  let! client_version := Model.value_from_object version_field self in
  do! (match client_version with
       | None => setattr self (f_attname version_field) (f_default version_field)
       | Some _ => ret tt
       end) in
  Model._do_insert self manager using_ fields update_pk raw.

(** [assert client_version is None or client_version == value] *)
Definition assert_consistent (client_version value : pyval) : bool :=
  match client_version with
  | None => true
  | Some _ => bool_decide (client_version = value)
  end.

(** The loop over [values]: every entry whose field is a [VersionField] is
    rewritten in place; the other entries stay. *)
Fixpoint increment_versions (self : nat) (version_field : field) (client_version : pyval)
    (values : list staged) : M (list written) :=
  match values with
  | [] => ret []
  | (field, model, value) :: rest =>
      let! entry :=
        (if f_is_version field then
           if assert_consistent client_version value then
             match value with
             | Some v =>
                 let new_version := v + 1 in
                 do! setattr self (f_attname version_field) (Some new_version) in
                 ret (field, model, WLit (Some new_version))
             | None =>
                 ret (field, model, WFInc (f_attname version_field))
             end
           else raise AssertionError
         else ret (field, model, WLit value)) in
      let! rest' := increment_versions self version_field client_version rest in
      ret (entry :: rest')
  end.

(** The values as they are, for the call that passes them on untouched. *)
Definition literal (values : list staged) : list written :=
  map (λ e : staged, (e.1.1, e.1.2, WLit e.2)) values.

Definition _do_update (tid : nat) (self : nat) (base_qs : queryset) (using_ : string)
    (pk_val : Z) (values : list staged) (update_fields : option (list string))
    (forced_update : bool) : M bool :=
  let! version_field := get_version_field self in
  if negb (String.eqb (f_model version_field) (qs_model base_qs)) then
    Model._do_update base_qs using_ pk_val (literal values) update_fields forced_update
  else
    let! deferred := Model.get_deferred_fields self in
    if bool_decide (f_attname version_field ∈ deferred) then raise RuntimeError
    else
      let! client_version := Model.value_from_object version_field self in
      let! version_qs :=
        (match client_version with
         | Some cv =>
             let! a := optimisticLocking.active tid (Some (OInst self)) in
             if truthy a then ret (Model.filter_ base_qs (CEq (f_attname version_field) cv))
             else ret base_qs
         | None => ret base_qs
         end) in
      let! values' := increment_versions self version_field client_version values in
      let! updated :=
        Model._do_update version_qs using_ pk_val values'
          (match values' with [] => None | _ :: _ => update_fields end)
          forced_update in
      if updated then ret updated
      else
        let! found := Model.exists_ (Model.filter_ base_qs (CPk pk_val)) in
        if found then
          let! e := ConcurrentUpdate_init self in
          raise e
        else ret updated.

End VersionedMixin.

(** ** One save as a sequence of round trips

    [_do_update] cut at its database statements, for reasoning about two
    saves whose statements interleave.  Each statement is atomic; what
    lies between two statements touches only the saving thread's own
    objects.  [Steps.run_do_update] relates the cut to the function. *)

Module Steps.

Inductive pc :=
  (** the call has not started *)
  | AtCall (tid self : nat) (base_qs : queryset) (using_ : string) (pk_val : Z)
      (values : list staged) (update_fields : option (list string)) (forced_update : bool)
  (** about to call [super()._do_update]; [checked] tells whether the
      conflict test follows or the call was passed on as it came *)
  | AtSuper (self : nat) (base_qs : queryset) (checked : bool) (qs : queryset)
      (using_ : string) (pk_val : Z) (values : list written)
      (update_fields : option (list string)) (forced_update : bool)
  (** [updated] was false; about to ask whether the row exists *)
  | AtExists (self : nat) (base_qs : queryset) (pk_val : Z)
  (** about to build [ConcurrentUpdate(self)] *)
  | AtConflict (self : nat)
  | Finished (r : result bool).

(** The code of [_do_update] before its [super()] call. *)
Definition before_super (tid self : nat) (base_qs : queryset) (using_ : string) (pk_val : Z)
    (values : list staged) (update_fields : option (list string)) (forced_update : bool)
    : M pc :=
  let! version_field := VersionedMixin.get_version_field self in
  if negb (String.eqb (f_model version_field) (qs_model base_qs)) then
    ret (AtSuper self base_qs false base_qs using_ pk_val
           (VersionedMixin.literal values) update_fields forced_update)
  else
    let! deferred := Model.get_deferred_fields self in
    if bool_decide (f_attname version_field ∈ deferred) then raise RuntimeError
    else
      let! client_version := Model.value_from_object version_field self in
      let! version_qs :=
        (match client_version with
         | Some cv =>
             let! a := optimisticLocking.active tid (Some (OInst self)) in
             if truthy a then ret (Model.filter_ base_qs (CEq (f_attname version_field) cv))
             else ret base_qs
         | None => ret base_qs
         end) in
      let! values' :=
        VersionedMixin.increment_versions self version_field client_version values in
      ret (AtSuper self base_qs true version_qs using_ pk_val values'
             (match values' with [] => None | _ :: _ => update_fields end)
             forced_update).

Definition finish {A} (k : A → pc) (x : world * result A) : world * pc :=
  match x with
  | (w, Ret a) => (w, k a)
  | (w, Raise e) => (w, Finished (Raise e))
  end.

Definition step (p : pc) (w : world) : world * pc :=
  match p with
  | AtCall tid self base_qs using_ pk_val values update_fields forced_update =>
      finish id (before_super tid self base_qs using_ pk_val values update_fields forced_update w)
  | AtSuper self base_qs checked qs using_ pk_val values update_fields forced_update =>
      finish
        (λ updated : bool,
           if checked && negb updated then AtExists self base_qs pk_val
           else Finished (Ret updated))
        (Model._do_update qs using_ pk_val values update_fields forced_update w)
  | AtExists self base_qs pk_val =>
      finish
        (λ found : bool, if found then AtConflict self else Finished (Ret false))
        (Model.exists_ (Model.filter_ base_qs (CPk pk_val)) w)
  | AtConflict self =>
      finish (λ e, Finished (Raise e)) (ConcurrentUpdate_init self w)
  | Finished r => (w, Finished r)
  end.

Fixpoint run (n : nat) (p : pc) (w : world) : world * pc :=
  match n with
  | O => (w, p)
  | S n' => let '(w', p') := step p w in run n' p' w'
  end.

(** Two saves in flight over one world. *)
Record race := Race {
  r_world : world;
  r_first : pc;
  r_second : pc
}.

(** One turn: [true] lets the first save take its next step, [false] the
    second.  A finished save stays finished. *)
Definition turn (c : race) (first : bool) : race :=
  if first then
    let '(w', p') := step (r_first c) (r_world c) in
    {| r_world := w'; r_first := p'; r_second := r_second c |}
  else
    let '(w', p') := step (r_second c) (r_world c) in
    {| r_world := w'; r_first := r_first c; r_second := p' |}.

Definition interleave (schedule : list bool) (c : race) : race :=
  foldl turn c schedule.

End Steps.

(** ** Reading the world *)

(** The attribute [attname] of object [oid], when the object exists and
    the attribute is loaded. *)
Definition attr_of (w : world) (oid : nat) (attname : string) : option pyval :=
  match heap w !! oid with
  | Some o => inst_dict o !! attname
  | None => None
  end.

(** The column [col] of the row [pk] of table [model], when the row
    exists (a column never written reads as NULL). *)
Definition stored (w : world) (model : string) (pk : Z) (col : string) : option pyval :=
  match db w !! model with
  | Some tbl =>
      match tbl !! pk with
      | Some r => Some (default None (r !! col))
      | None => None
      end
  | None => None
  end.

(** The row of key [pk] in the table of [qs], when [qs] selects it. *)
Definition selected (d : gmap string (gmap Z (gmap string pyval))) (qs : queryset) (pk : Z)
    : option (gmap string pyval) :=
  match Model.table_of d (qs_model qs) !! pk with
  | Some r => if Model.qs_match (qs_conds qs) pk r then Some r else None
  | None => None
  end.

(** Whether [base_qs] holds a row of key [pk]. *)
Definition row_exists (w : world) (base_qs : queryset) (pk : Z) : bool :=
  (0 <? size (Model.qs_rows (db w) (Model.filter_ base_qs (CPk pk))))%nat.

(** The statements executed between [w] and a later [w'], in the order
    they were sent. *)
Definition issued (w w' : world) : list stmt :=
  rev (take (length (queries w') - length (queries w)) (queries w')).

(** Running a computation for its outcome and for its final world. *)
Definition outcome {A} (c : M A) (w : world) : result A := (c w).2.
Definition after {A} (c : M A) (w : world) : world := (c w).1.

(** ** Scopes in use *)

(** The counter an owner carries itself: the running thread's attribute
    for the ambient scope, the instance attribute, the attribute of the
    class. *)
Definition own_counter (tid : nat) (model : option owner) (w : world) : option Z :=
  match model with
  | None => current_state w !! tid
  | Some (OInst oid) =>
      match heap w !! oid with
      | Some o => inst_ol o
      | None => None
      end
  | Some (OClass c _) => class_ol w !! c
  end.

(** No scope was ever entered that a query for [model] in thread [tid]
    could see: the thread's counter is unset, and so are the owner's own
    and those of the classes it inherits from.  An instance owner is an
    object of the store. *)
Definition untouched (tid : nat) (model : option owner) (w : world) : Prop :=
  current_state w !! tid = None ∧
  match model with
  | None => True
  | Some (OInst oid) =>
      ∃ o, heap w !! oid = Some o ∧ inst_ol o = None ∧
           optimisticLocking.mro_lookup (class_ol w) (inst_mro o) = None
  | Some (OClass c bases) =>
      optimisticLocking.mro_lookup (class_ol w) (c :: bases) = None
  end.

(** The owner's own counter is [c], and for a model owner the running
    thread has no ambient counter. *)
Definition counted (tid : nat) (model : option owner) (c : Z) (w : world) : Prop :=
  own_counter tid model w = Some c ∧
  (model ≠ None → current_state w !! tid = None).

(** [n] times [__enter__], then [m] times [__exit__]. *)
Fixpoint enters (n : nat) (tid : nat) (model : option owner) : M unit :=
  match n with
  | O => ret tt
  | S n' => do! optimisticLocking.__enter__ tid model in enters n' tid model
  end.

Fixpoint exits (m : nat) (tid : nat) (model : option owner) : M unit :=
  match m with
  | O => ret tt
  | S m' => do! optimisticLocking.__exit__ tid model in exits m' tid model
  end.

(** Whether the scope controller reports active: the truth value of what
    [active] returns ([False] if the call raises). *)
Definition reports_active (tid : nat) (model : option owner) (w : world) : bool :=
  match outcome (optimisticLocking.active tid model) w with
  | Ret a => truthy a
  | Raise _ => false
  end.

(** ** The update protocol, described *)

(** The record [self] is an object whose class has [version_field] as its
    first [VersionField], and whose version attribute is loaded with value
    [client_version]. *)
Definition versioned (w : world) (self : nat) (version_field : field)
    (client_version : pyval) : Prop :=
  ∃ o, heap w !! self = Some o ∧
       List.find f_is_version (inst_fields o) = Some version_field ∧
       inst_dict o !! f_attname version_field = Some client_version.

(** The record [self] is an object whose class has [version_field] as its
    first [VersionField], and whose version attribute is deferred. *)
Definition version_deferred (w : world) (self : nat) (version_field : field) : Prop :=
  ∃ o, heap w !! self = Some o ∧
       List.find f_is_version (inst_fields o) = Some version_field ∧
       inst_dict o !! f_attname version_field = None.

(** The client version is not null and the scope controller reports
    active for the record. *)
Definition locking_applies (tid self : nat) (client_version : pyval) (w : world) : bool :=
  match client_version with
  | Some _ => reports_active tid (Some (OInst self)) w
  | None => false
  end.

(** The queryset the conditioned write starts from: [base_qs], narrowed
    by the version when locking applies. *)
Definition conditioned (tid self : nat) (version_field : field) (client_version : pyval)
    (base_qs : queryset) (w : world) : queryset :=
  match client_version with
  | Some cv =>
      if locking_applies tid self client_version w
      then Model.filter_ base_qs (CEq (f_attname version_field) cv)
      else base_qs
  | None => base_qs
  end.

(** Every staged [VersionField] entry passes the assertion. *)
Definition asserts_pass (client_version : pyval) (values : list staged) : Prop :=
  Forall (λ e : staged, f_is_version e.1.1 = true →
                        VersionedMixin.assert_consistent client_version e.2 = true) values.

(** What the loop makes of one entry, when its assertion passes. *)
Definition rewritten_entry (version_field : field) (e : staged) : written :=
  if f_is_version e.1.1 then
    match e.2 with
    | Some v => (e.1.1, e.1.2, WLit (Some (v + 1)))
    | None => (e.1.1, e.1.2, WFInc (f_attname version_field))
    end
  else (e.1.1, e.1.2, WLit e.2).

Definition rewritten (version_field : field) (values : list staged) : list written :=
  map (rewritten_entry version_field) values.

(** What the loop's [setattr] calls make of the instance's attributes. *)
Definition bumped (version_field : field) (values : list staged)
    (dict : gmap string pyval) : gmap string pyval :=
  foldl (λ d (e : staged),
           if f_is_version e.1.1 then
             match e.2 with
             | Some v => <[f_attname version_field := Some (v + 1)]> d
             | None => d
             end
           else d) dict values.

(** The statement [Model._do_update] sends for the write: an UPDATE
    restricted to the key, or, with nothing to write, the lookup of the
    row. *)
Definition write_stmt (qs : queryset) (pk_val : Z) (values : list written) : stmt :=
  match values with
  | [] => SExists (Model.filter_ qs (CPk pk_val))
  | _ :: _ => SUpdate (Model.filter_ qs (CPk pk_val)) values
  end.

(** The world after that statement. *)
Definition write_world (qs : queryset) (pk_val : Z) (values : list written) (w : world) : world :=
  log (write_stmt qs pk_val values)
    (match values, selected (db w) qs pk_val with
     | _ :: _, Some r =>
         set_db <[qs_model qs := <[pk_val := Model.apply_values values r]>
                                   (Model.table_of (db w) (qs_model qs))]> w
     | _, _ => w
     end).

(** The lines of [_do_update] after its [super()] call returned
    [updated]. *)
Definition conflict_check (self : nat) (base_qs : queryset) (pk_val : Z) (updated : bool)
    : M bool :=
  if updated then ret updated
  else
    let! found := Model.exists_ (Model.filter_ base_qs (CPk pk_val)) in
    if found then
      let! e := ConcurrentUpdate_init self in
      raise e
    else ret updated.


(** ** A small world to run things in

    One model [doc] with a title and a version, one thread, one
    record of key 1 held in memory as object 1. *)

Definition title_field : field := PlainField "title" "doc" None.
Definition version_field : field := VersionField "version" "doc" None.

(** The record in memory with version attribute [client_version]. *)
Definition doc (client_version : pyval) : instance :=
  {| inst_mro := ["Doc"]; inst_fields := [title_field; version_field]; inst_pk := 1;
     inst_dict := {["title" := Some 10; "version" := client_version]};
     inst_ol := None |}.

(** The same record loaded with [defer('version')]. *)
Definition doc_deferred : instance :=
  {| inst_mro := ["Doc"]; inst_fields := [title_field; version_field]; inst_pk := 1;
     inst_dict := {["title" := Some 10]}; inst_ol := None |}.

(** The table [doc] with row 1 at version [v]. *)
Definition doc_table (v : pyval) : gmap string (gmap Z (gmap string pyval)) :=
  {["doc" := {[1 := {["title" := Some 10; "version" := v]}]}]}.

(** A world with the given tables and object 1, the ambient scope of
    thread 0 entered when [ambient] is set. *)
Definition library (tables : gmap string (gmap Z (gmap string pyval))) (o : instance)
    (ambient : bool) : world :=
  {| db := tables; heap := {[1%nat := o]}; class_ol := ∅;
     current_state := if ambient then {[0%nat := 1]} else ∅; queries := [] |}.

Definition doc_qs : queryset := {| qs_model := "doc"; qs_conds := [] |}.

(** What a full save of the record stages. *)
Definition full_values (client_version : pyval) : list staged :=
  [(title_field, None, Some 11); (version_field, None, client_version)].

(** A model [note] that inherits from [doc] through a second table and
    declares the version itself; its record 1 is loaded with
    [defer('version')]. *)
Definition note_version_field : field := VersionField "version" "note" None.

Definition note_deferred : instance :=
  {| inst_mro := ["Note"; "Doc"]; inst_fields := [title_field; note_version_field];
     inst_pk := 1; inst_dict := {["title" := Some 10]}; inst_ol := None |}.

Definition note_tables : gmap string (gmap Z (gmap string pyval)) :=
  {["doc" := {[1 := {["title" := Some 10]}]};
    "note" := {[1 := {["version" := Some 3]}]}]}.




(** A model whose version field was declared with [default=5], and a new
    record of it with the version set to [None]. *)
Definition version_field_from_five : field := VersionField "version" "doc" (Some (Some 5)).

Definition new_doc (vf : field) : instance :=
  {| inst_mro := ["Doc"]; inst_fields := [title_field; vf]; inst_pk := 1;
     inst_dict := {["title" := Some 10; "version" := None]}; inst_ol := None |}.

(** ** Two saves of one record *)

(** The arguments of one save, and the thread that runs it. *)
Record attempt := Attempt {
  a_tid : nat;
  a_self : nat;
  a_using : string;
  a_values : list staged;
  a_update_fields : option (list string);
  a_forced : bool
}.

(** How often [who] gets the turn in a schedule. *)
Definition turns (who : bool) (schedule : list bool) : nat :=
  length (filter (λ b, b = who) schedule).

(** The steps a save still has to take, at most. *)
Definition remaining (p : Steps.pc) : nat :=
  match p with
  | Steps.AtCall _ _ _ _ _ _ _ _ => 4
  | Steps.AtSuper _ _ _ _ _ _ _ _ _ => 3
  | Steps.AtExists _ _ _ => 2
  | Steps.AtConflict _ => 1
  | Steps.Finished _ => 0
  end.

Section TwoSaves.

Variables (w0 : world) (base_qs : queryset) (pk_val : Z) (vf : field) (v : Z).

(** The save [x] is about to start. *)
Definition call (x : attempt) : Steps.pc :=
  Steps.AtCall (a_tid x) (a_self x) base_qs (a_using x) pk_val (a_values x)
    (a_update_fields x) (a_forced x).

(** The save [x] presents client version [v] for the record of key
    [pk_val]: its object is a record of one table, that of [base_qs],
    with [vf] as version field and [v] as version attribute; the scope
    controller reports active for it in the saving thread; its write list
    stages the version, in the entries of the version column and only
    there, at [v]. *)
Definition presents (x : attempt) (o : instance) : Prop :=
  heap w0 !! a_self x = Some o ∧
  List.find f_is_version (inst_fields o) = Some vf ∧
  inst_dict o !! f_attname vf = Some (Some v) ∧
  inst_pk o = pk_val ∧
  Forall (λ f, f_model f = qs_model base_qs) (inst_fields o) ∧
  reports_active (a_tid x) (Some (OInst (a_self x))) w0 = true ∧
  asserts_pass (Some v) (a_values x) ∧
  Exists (λ e : staged, f_is_version e.1.1 = true) (a_values x) ∧
  Forall (λ e : staged, f_is_version e.1.1 = true ↔ f_attname e.1.1 = f_attname vf)
    (a_values x).

(** The queryset of a version-checked write. *)
Definition narrowed : queryset := Model.filter_ base_qs (CEq (f_attname vf) v).

(** The row of the record once the write of [x] went through. *)
Definition row_won (x : attempt) (r0 : gmap string pyval) : gmap string pyval :=
  Model.apply_values (rewritten vf (a_values x)) r0.

(** The tables once the write of [x] went through. *)
Definition db_won (x : attempt) (r0 : gmap string pyval)
    : gmap string (gmap Z (gmap string pyval)) :=
  <[qs_model base_qs := <[pk_val := row_won x r0]> (Model.table_of (db w0) (qs_model base_qs))]>
    (db w0).

(** The object of [x] once the loop of [x] has run. *)
Definition prepared (x : attempt) (o : instance) : instance :=
  set_inst_dict (bumped vf (a_values x)) o.

(** The save [x] has not sent its write yet. *)
Definition before_write (x : attempt) (o : instance) (w : world) (p : Steps.pc) : Prop :=
  (p = call x ∧ heap w !! a_self x = Some o) ∨
  (p = Steps.AtSuper (a_self x) base_qs true narrowed (a_using x) pk_val
         (rewritten vf (a_values x))
         (match rewritten vf (a_values x) with [] => None | _ :: _ => a_update_fields x end)
         (a_forced x) ∧
   heap w !! a_self x = Some (prepared x o)).

(** The write of [x] matched no row; [rw] is the row as the other save
    wrote it.  Once the conflict is raised every loaded field of the
    record of [x] holds its column of that row. *)
Definition losing (x : attempt) (o : instance) (rw : gmap string pyval) (w : world)
    (p : Steps.pc) : Prop :=
  (p = Steps.AtExists (a_self x) base_qs pk_val ∧
   heap w !! a_self x = Some (prepared x o)) ∨
  (p = Steps.AtConflict (a_self x) ∧ heap w !! a_self x = Some (prepared x o)) ∨
  (p = Steps.Finished (Raise (ConcurrentUpdate (a_self x))) ∧
   ∀ f, f ∈ inst_fields o → is_Some (inst_dict o !! f_attname f) →
        attr_of w (a_self x) (f_attname f) = Some (default None (rw !! f_attname f))).

(** What holds of two saves [x] and [y] at every point of every
    interleaving: the scopes are as they were, and either no write went
    through yet, or exactly one did and the other save is before its write
    or on its way to the conflict. *)
Definition race_inv (r0 : gmap string pyval) (x y : attempt) (ox oy : instance)
    (w : world) (p q : Steps.pc) : Prop :=
  current_state w = current_state w0 ∧ class_ol w = class_ol w0 ∧
  ((db w = db w0 ∧ before_write x ox w p ∧ before_write y oy w q) ∨
   (db w = db_won x r0 ∧ p = Steps.Finished (Ret true) ∧
    (before_write y oy w q ∨ losing y oy (row_won x r0) w q)) ∨
   (db w = db_won y r0 ∧ q = Steps.Finished (Ret true) ∧
    (before_write x ox w p ∨ losing x ox (row_won y r0) w p))).

End TwoSaves.

(** Two threads, each with its own copy of record 1 at version 3, the
    ambient scope entered in both. *)
Definition two_readers : world :=
  {| db := doc_table (Some 3);
     heap := {[1%nat := doc (Some 3); 2%nat := doc (Some 3)]};
     class_ol := ∅;
     current_state := {[0%nat := 1; 1%nat := 1]};
     queries := [] |}.

(** A full save by each of the two threads. *)
Definition first_save : attempt :=
  {| a_tid := 0; a_self := 1; a_using := "default"; a_values := full_values (Some 3);
     a_update_fields := None; a_forced := false |}.

Definition second_save : attempt :=
  {| a_tid := 1; a_self := 2; a_using := "default"; a_values := full_values (Some 3);
     a_update_fields := None; a_forced := false |}.

(** The empty world: no tables, no objects, no scope ever entered. *)
Definition world0 : world :=
  {| db := ∅; heap := ∅; class_ol := ∅; current_state := ∅; queries := [] |}.

(** ** What a save may touch *)

(** Between [w] and [w'] the scope counters are the same, every object
    other than [self] is the same, [self] differs at most in its field
    attributes, and every row other than the row [pk] of table [model] is
    the same. *)
Definition footprint (self : nat) (model : string) (pk : Z) (w w' : world) : Prop :=
  current_state w' = current_state w ∧
  class_ol w' = class_ol w ∧
  (∀ oid, oid ≠ self → heap w' !! oid = heap w !! oid) ∧
  (heap w !! self = None → heap w' !! self = None) ∧
  (∀ o, heap w !! self = Some o →
        ∃ dict, heap w' !! self = Some (set_inst_dict (λ _, dict) o)) ∧
  (∀ m' pk', m' ≠ model ∨ pk' ≠ pk →
             Model.table_of (db w') m' !! pk' = Model.table_of (db w) m' !! pk').

(** ** The version column *)

(** [VersionField] is a [PositiveIntegerField]: its column refuses a
    negative value, and every backend stores the values up to
    2147483647. *)
Definition version_max : Z := 2147483647.

(** A version the column accepts. *)
Definition in_column (z : Z) : Prop := 0 ≤ z ≤ version_max.


(** ** What the lookup of a scope controller finds *)

(** The value of [getattr(stateObj, '_optimisticLocking', 0)] in [w]: the
    owner's own counter if it has one; else, for a record or a class, the
    counter of the first class of its resolution order that has one; else
    0. *)
Definition found_counter (tid : nat) (model : option owner) (w : world) : Z :=
  match own_counter tid model w with
  | Some c => c
  | None =>
      match model with
      | None => 0
      | Some (OInst oid) =>
          match heap w !! oid with
          | Some o => default 0 (optimisticLocking.mro_lookup (class_ol w) (inst_mro o))
          | None => 0
          end
      | Some (OClass c bases) =>
          default 0 (optimisticLocking.mro_lookup (class_ol w) (c :: bases))
      end
  end.

(** ** The form field of the version ([ReadonlyInput], [VersionField.formfield]) *)

Module Forms.










End Forms.

(** * Properties *)

(** ** The scope controller *)

(** Unfolding of the monad's combinators in a goal. *)
Ltac munfold :=
  cbv beta iota zeta delta [bind ret raise get_obj put_obj setattr].

Section Scope.

Import optimisticLocking.

Lemma mro_lookup_head attrs c bases v :
  attrs !! c = Some v → mro_lookup attrs (c :: bases) = Some v.
Proof. intros H. simpl. by rewrite H. Qed.

Lemma enter_untouched tid model w :
  untouched tid model w →
  ∃ w', __enter__ tid model w = (w', Ret tt) ∧ counted tid model 1 w'.
Proof.
  intros [Ht Hm]. destruct model as [[oid|c bases]|]; simpl in *.
  - destruct Hm as (o & Ho & Hol & Hmro).
    eexists. unfold __enter__, getattr_ol, setattr_ol, state_obj. munfold.
    rewrite Ho, Hol. simpl. rewrite Ho, Hmro. simpl. split; [reflexivity|].
    split; simpl; [by rewrite lookup_insert_eq | done].
  - eexists. unfold __enter__, getattr_ol, setattr_ol, state_obj. munfold.
    cbn [mro_lookup]. rewrite Hm. simpl.
    split; [reflexivity|]. split; simpl; [by rewrite lookup_insert_eq | done].
  - eexists. unfold __enter__, getattr_ol, setattr_ol, state_obj. munfold.
    rewrite Ht. simpl.
    split; [reflexivity|]. split; simpl; [by rewrite lookup_insert_eq | done].
Qed.

(** Reading the counter of an owner that has one of its own. *)
Lemma getattr_counted tid model c d w :
  counted tid model c w →
  getattr_ol tid (state_obj model) d w = (w, Ret c).
Proof.
  intros [Hc _]. destruct model as [[oid|cl bases]|]; simpl in *.
  - unfold bind, get_obj. destruct (heap w !! oid) as [o|]; [|done].
    rewrite Hc. reflexivity.
  - by rewrite Hc.
  - by rewrite Hc.
Qed.

Lemma setattr_counted tid model c v w :
  counted tid model c w →
  ∃ w', setattr_ol tid (state_obj model) v w = (w', Ret tt) ∧ counted tid model v w'.
Proof.
  intros [Hc Ha]. destruct model as [[oid|cl bases]|]; simpl in *.
  - unfold bind, get_obj, put_obj. destruct (heap w !! oid) as [o|] eqn:Ho; [|done].
    eexists. split; [reflexivity|]. split; simpl; [by rewrite lookup_insert_eq | done].
  - eexists. split; [reflexivity|]. split; simpl; [by rewrite lookup_insert_eq | done].
  - eexists. split; [reflexivity|]. split; simpl; [by rewrite lookup_insert_eq | done].
Qed.

Lemma enter_counted tid model c w :
  counted tid model c w →
  ∃ w', __enter__ tid model w = (w', Ret tt) ∧ counted tid model (c + 1) w'.
Proof.
  intros H. unfold __enter__, bind. rewrite (getattr_counted _ _ _ _ _ H).
  by apply setattr_counted with c.
Qed.

Lemma exit_counted tid model c w :
  counted tid model c w →
  ∃ w', __exit__ tid model w = (w', Ret tt) ∧ counted tid model (c - 1) w'.
Proof.
  intros H. unfold __exit__, bind. rewrite (getattr_counted _ _ _ _ _ H).
  by apply setattr_counted with c.
Qed.

Lemma exits_counted m tid model c w :
  counted tid model c w →
  ∃ w', exits m tid model w = (w', Ret tt) ∧ counted tid model (c - Z.of_nat m) w'.
Proof.
  revert c w. induction m as [|m IH]; intros c w H.
  - exists w. split; [reflexivity|]. by replace (c - Z.of_nat 0) with c by lia.
  - destruct (exit_counted _ _ _ _ H) as (w1 & E1 & H1).
    destruct (IH _ _ H1) as (w2 & E2 & H2).
    exists w2. split.
    + simpl. unfold bind at 1. by rewrite E1.
    + by replace (c - Z.of_nat (S m)) with (c - 1 - Z.of_nat m) by lia.
Qed.

(** The query answers by the counter alone: any nonzero value counts as
    active. *)
Lemma active_counted tid model c w :
  counted tid model c w →
  reports_active tid model w = negb (c =? 0).
Proof.
  intros H. pose proof (getattr_counted _ _ _ 0 _ H) as G. destruct H as [Hc Ha].
  unfold reports_active, outcome, active. munfold.
  change (getattr_ol tid StThread 0 w) with (w, Ret (default 0 (current_state w !! tid))).
  destruct model as [m|].
  - rewrite (Ha ltac:(done)). cbn -[getattr_ol].
    change (StModel m) with (state_obj (Some m)). rewrite G. reflexivity.
  - simpl in Hc. rewrite Hc. simpl.
    destruct (c =? 0) eqn:E; simpl; [reflexivity | by rewrite E].
Qed.

(** What the query returns for a record: the thread's counter when that is
    nonzero; otherwise the counter attribute lookup finds on the record,
    its own if it has one, else the first one along its classes, else 0. *)
Lemma active_instance tid oid o w :
  heap w !! oid = Some o →
  active tid (Some (OInst oid)) w =
    (w, Ret (Some (let a := default 0 (current_state w !! tid) in
                   if negb (a =? 0) then a
                   else match inst_ol o with
                        | Some v => v
                        | None => default 0 (mro_lookup (class_ol w) (inst_mro o))
                        end))).
Proof.
  intros Ho. unfold active. munfold.
  change (getattr_ol tid StThread 0 w) with (w, Ret (default 0 (current_state w !! tid))).
  cbn [truthy]. destruct (negb (default 0 (current_state w !! tid) =? 0)); [reflexivity|].
  unfold getattr_ol. munfold. rewrite Ho. destruct (inst_ol o); reflexivity.
Qed.

(** The query for a record, by the counters: the ambient one of the
    thread, or the one attribute lookup finds on the record. *)
Lemma reports_active_instance tid oid o w :
  heap w !! oid = Some o →
  reports_active tid (Some (OInst oid)) w =
    truthy (current_state w !! tid) ||
    truthy (match inst_ol o with
            | Some v => Some v
            | None => mro_lookup (class_ol w) (inst_mro o)
            end).
Proof.
  intros Ho. unfold reports_active, outcome. rewrite (active_instance _ _ _ _ Ho). cbn [snd].
  destruct (current_state w !! tid) as [a|]; cbn -[Z.eqb].
  - destruct (a =? 0) eqn:E; cbn -[Z.eqb]; [|by rewrite E].
    destruct (inst_ol o) as [v|]; [reflexivity|].
    by destruct (mro_lookup (class_ol w) (inst_mro o)).
  - destruct (inst_ol o) as [v|]; [reflexivity|].
    by destruct (mro_lookup (class_ol w) (inst_mro o)).
Qed.

End Scope.

(** C5 (amended).  For every scope owner (the ambient thread-local scope,
    a record instance, a record type), starting with no scope entered:
    after entering twice and exiting once the scope is active; after a
    second exit it is inactive; every further exit returns without an
    error and leaves the owner's counter negative, and the query then
    returns that nonzero counter, so the scope reports active. *)
Theorem reentrant_scope (tid : nat) (model : option owner) (w : world) :
  untouched tid model w →
  ∃ w1 w2,
    (do! enters 2 tid model in exits 1 tid model) w = (w1, Ret tt) ∧
    reports_active tid model w1 = true ∧
    optimisticLocking.__exit__ tid model w1 = (w2, Ret tt) ∧
    reports_active tid model w2 = false ∧
    ∀ k, (0 < k)%nat →
      ∃ w3, exits k tid model w2 = (w3, Ret tt) ∧
            own_counter tid model w3 = Some (- Z.of_nat k) ∧
            reports_active tid model w3 = true.
Proof.
  intros Hu.
  destruct (enter_untouched _ _ _ Hu) as (wa & Ea & Ha).
  destruct (enter_counted _ _ _ _ Ha) as (wb & Eb & Hb).
  destruct (exit_counted _ _ _ _ Hb) as (w1 & E1 & H1).
  destruct (exit_counted _ _ _ _ H1) as (w2 & E2 & H2).
  exists w1, w2. repeat split.
  - simpl. munfold. rewrite Ea, Eb, E1. reflexivity.
  - by rewrite (active_counted _ _ _ _ H1).
  - exact E2.
  - by rewrite (active_counted _ _ _ _ H2).
  - intros k Hk. destruct (exits_counted k _ _ _ _ H2) as (w3 & E3 & H3).
    exists w3. split; [exact E3|].
    replace (1 + 1 - 1 - 1 - Z.of_nat k) with (- Z.of_nat k) in H3 by lia.
    split; [apply H3|]. rewrite (active_counted _ _ _ _ H3).
    destruct (Z.eqb_spec (- Z.of_nat k) 0); [lia | reflexivity].
Qed.

Lemma reentrant_scope_witness :
  untouched 0 None world0 ∧
  ∃ w1 w2,
    (do! enters 2 0%nat None in exits 1 0%nat None) world0 = (w1, Ret tt) ∧
    reports_active 0 None w1 = true ∧
    optimisticLocking.__exit__ 0 None w1 = (w2, Ret tt) ∧
    reports_active 0 None w2 = false ∧
    ∀ k, (0 < k)%nat →
      ∃ w3, exits k 0%nat None w2 = (w3, Ret tt) ∧
            own_counter 0 None w3 = Some (- Z.of_nat k) ∧
            reports_active 0 None w3 = true.
Proof.
  assert (H : untouched 0 None world0) by (split; [reflexivity | exact I]).
  split; [exact H | exact (reentrant_scope 0 None world0 H)].
Defined.

(** C5, as stated, fails: in the empty world the ambient scope entered
    twice and exited three times has counter -1, and the query returns
    that -1, which is true in a boolean context: the scope reports
    active, not inactive. *)
Lemma over_exited_scope_reports_active :
  let c := do! enters 2 0%nat None in exits 3 0%nat None in
  outcome c world0 = Ret tt ∧
  own_counter 0 None (after c world0) = Some (-1) ∧
  outcome (optimisticLocking.active 0 None) (after c world0) = Ret (Some (-1)) ∧
  reports_active 0 None (after c world0) = true.
Proof. vm_compute. repeat split. Qed.

(** ** The database statements *)

Section Database.

Import Model.

Lemma world_eta w :
  {| db := db w; heap := heap w; class_ol := class_ol w;
     current_state := current_state w; queries := queries w |} = w.
Proof. by destruct w. Qed.

Lemma qs_match_filter qs c k r :
  qs_match (qs_conds (filter_ qs c)) k r = qs_match (qs_conds qs) k r && cond_holds k r c.
Proof.
  unfold qs_match, filter_. simpl. rewrite forallb_app. simpl.
  by rewrite andb_true_r.
Qed.

(** A queryset restricted to one key selects that row or nothing. *)
Lemma qs_rows_pk d qs pk :
  qs_rows d (filter_ qs (CPk pk)) =
    match selected d qs pk with
    | Some r => {[pk := r]}
    | None => ∅
    end.
Proof.
  apply map_eq. intros k. unfold qs_rows, selected.
  change (qs_model (filter_ qs (CPk pk))) with (qs_model qs).
  set (tbl := table_of d (qs_model qs)).
  destruct (decide (k = pk)) as [->|Hne].
  - destruct (tbl !! pk) as [r|] eqn:Hr.
    + destruct (qs_match (qs_conds qs) pk r) eqn:Hm.
      * rewrite lookup_singleton_eq. apply map_lookup_filter_Some. split; [done|].
        rewrite qs_match_filter. cbn [fst snd cond_holds]. rewrite Hm.
        by rewrite bool_decide_eq_true_2.
      * rewrite lookup_empty. apply map_lookup_filter_None. right. intros r' Hr' HP.
        rewrite qs_match_filter in HP. cbn [fst snd] in HP. simplify_eq.
        by rewrite Hm in HP.
    + rewrite lookup_empty. apply map_lookup_filter_None. by left.
  - transitivity (@None (gmap string pyval)).
    + apply map_lookup_filter_None. right. intros r' Hr' HP.
      rewrite qs_match_filter in HP. cbn [fst snd cond_holds] in HP.
      rewrite bool_decide_eq_false_2 in HP by done. by rewrite andb_false_r in HP.
    + destruct (tbl !! pk) as [r|]; [destruct (qs_match (qs_conds qs) pk r)|];
        by rewrite ?lookup_empty, ?lookup_singleton_ne.
Qed.

Lemma size_qs_rows_pk d qs pk :
  size (qs_rows d (filter_ qs (CPk pk))) =
    match selected d qs pk with Some _ => 1%nat | None => 0%nat end.
Proof.
  rewrite qs_rows_pk. destruct (selected d qs pk).
  - apply map_size_singleton.
  - apply map_size_empty.
Qed.

Lemma row_exists_selected w base_qs pk :
  row_exists w base_qs pk = bool_decide (is_Some (selected (db w) base_qs pk)).
Proof.
  unfold row_exists. rewrite size_qs_rows_pk.
  destruct (selected (db w) base_qs pk).
  - by rewrite bool_decide_eq_true_2.
  - rewrite bool_decide_eq_false_2; [done|]. by intros [? ?].
Qed.

Lemma exists_pk qs pk w :
  exists_ (filter_ qs (CPk pk)) w =
    (log (SExists (filter_ qs (CPk pk))) w, Ret (row_exists w qs pk)).
Proof. reflexivity. Qed.

(** An UPDATE restricted to one key rewrites that row when the queryset
    selects it, and nothing otherwise. *)
Lemma update_pk qs pk values w :
  _update (filter_ qs (CPk pk)) values w =
    (log (SUpdate (filter_ qs (CPk pk)) values)
       (match selected (db w) qs pk with
        | Some r =>
            set_db <[qs_model qs := <[pk := apply_values values r]>
                                      (table_of (db w) (qs_model qs))]> w
        | None => w
        end),
     Ret (match selected (db w) qs pk with Some _ => 1%nat | None => 0%nat end)).
Proof.
  unfold _update. rewrite size_qs_rows_pk. f_equal. f_equal.
  change (qs_model (filter_ qs (CPk pk))) with (qs_model qs).
  set (upd := λ (k : Z) (r : gmap string pyval),
         Some (if qs_match (qs_conds (filter_ qs (CPk pk))) k r
               then apply_values values r else r)).
  assert (Himap : ∀ tbl : gmap Z (gmap string pyval),
            map_imap upd tbl =
              match tbl !! pk with
              | Some r => if qs_match (qs_conds qs) pk r
                          then <[pk := apply_values values r]> tbl else tbl
              | None => tbl
              end).
  { intros tbl. apply map_eq. intros k. rewrite map_lookup_imap.
    destruct (decide (k = pk)) as [->|Hne].
    - destruct (tbl !! pk) as [r|] eqn:Hr; simpl; [|by rewrite Hr].
      unfold upd. rewrite qs_match_filter. cbn [cond_holds]. rewrite bool_decide_eq_true_2 by done.
      rewrite andb_true_r. destruct (qs_match (qs_conds qs) pk r).
      + by rewrite lookup_insert_eq.
      + by rewrite Hr.
    - transitivity (tbl !! k).
      + destruct (tbl !! k) as [r|] eqn:Hr; simpl; [|done].
        unfold upd. rewrite qs_match_filter. cbn [cond_holds].
        rewrite bool_decide_eq_false_2 by done. by rewrite andb_false_r.
      + destruct (tbl !! pk) as [r|]; [destruct (qs_match (qs_conds qs) pk r)|];
          by rewrite ?lookup_insert_ne. }
  unfold selected, table_of.
  destruct (db w !! qs_model qs) as [tbl|] eqn:Ht; simpl.
  - assert (Halt : alter (map_imap upd) (qs_model qs) (db w)
                   = <[qs_model qs := map_imap upd tbl]> (db w)).
    { apply map_eq. intros m. destruct (decide (m = qs_model qs)) as [->|Hne].
      - by rewrite lookup_alter_eq, lookup_insert_eq, Ht.
      - by rewrite lookup_alter_ne, lookup_insert_ne. }
    unfold set_db. rewrite Halt, Himap.
    destruct (tbl !! pk) as [r|]; [destruct (qs_match (qs_conds qs) pk r)|].
    + reflexivity.
    + rewrite insert_id by done. apply world_eta.
    + rewrite insert_id by done. apply world_eta.
  - rewrite lookup_empty. unfold set_db.
    replace (alter (map_imap upd) (qs_model qs) (db w)) with (db w); [apply world_eta|].
    apply map_eq. intros m. destruct (decide (m = qs_model qs)) as [->|Hne].
    + by rewrite lookup_alter_eq, Ht.
    + by rewrite lookup_alter_ne.
Qed.

End Database.

(** ** The update, step by step *)

Section Update.

Import Model VersionedMixin.

Lemma set_heap_set_heap f g w : set_heap f (set_heap g w) = set_heap (f ∘ g) w.
Proof. reflexivity. Qed.

Lemma set_inst_dict_id o : set_inst_dict (λ d, d) o = o.
Proof. by destruct o. Qed.

Lemma set_heap_same self o w :
  heap w !! self = Some o → set_heap <[self := o]> w = w.
Proof. intros H. unfold set_heap. rewrite insert_id by done. apply world_eta. Qed.

Lemma get_version_field_found self o vf w :
  heap w !! self = Some o →
  List.find f_is_version (inst_fields o) = Some vf →
  get_version_field self w = (w, Ret vf).
Proof. intros Ho Hf. unfold get_version_field. munfold. by rewrite Ho, Hf. Qed.

(** The version field is among the deferred fields exactly when its
    attribute is not loaded. *)
Lemma version_in_deferred self o vf w :
  heap w !! self = Some o →
  List.find f_is_version (inst_fields o) = Some vf →
  ∃ deferred, get_deferred_fields self w = (w, Ret deferred) ∧
    bool_decide (f_attname vf ∈ deferred) =
      bool_decide (inst_dict o !! f_attname vf = None).
Proof.
  intros Ho Hf. unfold get_deferred_fields. munfold. rewrite Ho.
  eexists. split; [reflexivity|]. apply bool_decide_ext.
  rewrite list_elem_of_In, in_map_iff. split.
  - intros (f & Hname & Hin). apply list_elem_of_In, list_elem_of_filter in Hin.
    destruct Hin as [Hnone _]. by rewrite <- Hname.
  - intros Hnone. exists vf. split; [done|].
    apply list_elem_of_In, list_elem_of_filter. split; [done|].
    apply list_elem_of_In. by apply find_some in Hf as [? _].
Qed.

Lemma value_from_object_loaded self o f v w :
  heap w !! self = Some o →
  inst_dict o !! f_attname f = Some v →
  value_from_object f self w = (w, Ret v).
Proof. intros Ho Hv. unfold value_from_object. munfold. by rewrite Ho, Hv. Qed.

Lemma setattr_live self o a v w :
  heap w !! self = Some o →
  setattr self a v w = (set_heap <[self := set_inst_dict <[a := v]> o]> w, Ret tt).
Proof. intros Ho. munfold. by rewrite Ho. Qed.

(** The loop, when every assertion passes: the entries are rewritten one
    by one and the instance's attributes follow. *)
Lemma increment_versions_pass self vf cv values o w :
  heap w !! self = Some o →
  asserts_pass cv values →
  increment_versions self vf cv values w =
    (set_heap <[self := set_inst_dict (bumped vf values) o]> w, Ret (rewritten vf values)).
Proof.
  revert o w. induction values as [|[[f m] v] rest IH]; intros o w Ho Hp.
  - simpl. unfold ret. f_equal. unfold bumped. simpl.
    rewrite set_inst_dict_id. symmetry. by apply set_heap_same.
  - apply Forall_cons in Hp as [Hhd Htl]. simpl in Hhd.
    cbn [increment_versions]. unfold bind at 1.
    destruct (f_is_version f) eqn:Hv.
    + rewrite (Hhd eq_refl). destruct v as [z|].
      * unfold bind at 1. rewrite (setattr_live _ _ _ _ _ Ho).
        unfold ret at 1. unfold bind at 1.
        erewrite IH; [|by simpl; rewrite lookup_insert_eq|done].
        unfold ret. f_equal.
        -- unfold set_heap. simpl. rewrite insert_insert_eq. do 2 f_equal.
           unfold bumped. simpl. rewrite Hv. by destruct o.
        -- unfold rewritten, rewritten_entry. simpl. by rewrite Hv.
      * unfold ret at 1. unfold bind at 1. rewrite (IH _ _ Ho Htl).
        unfold ret. f_equal.
        -- unfold bumped. simpl. by rewrite Hv.
        -- unfold rewritten, rewritten_entry. simpl. by rewrite Hv.
    + unfold ret at 1. unfold bind at 1. rewrite (IH _ _ Ho Htl).
      unfold ret. f_equal.
      * unfold bumped. simpl. by rewrite Hv.
      * unfold rewritten, rewritten_entry. simpl. by rewrite Hv.
Qed.

(** The loop, when some assertion fails: [AssertionError], with the
    database and the statement log as they were. *)
Lemma increment_versions_fail self vf cv values o w :
  heap w !! self = Some o →
  ¬ asserts_pass cv values →
  ∃ w', increment_versions self vf cv values w = (w', Raise AssertionError) ∧
        db w' = db w ∧ queries w' = queries w ∧
        class_ol w' = class_ol w ∧ current_state w' = current_state w.
Proof.
  revert o w. induction values as [|[[f m] v] rest IH]; intros o w Ho Hp.
  - destruct Hp. constructor.
  - cbn [increment_versions]. unfold bind at 1.
    destruct (f_is_version f) eqn:Hv.
    + destruct (assert_consistent cv v) eqn:Ha.
      * assert (Hrest : ¬ asserts_pass cv rest).
        { intros Hr. apply Hp. constructor; [by intros _|done]. }
        destruct v as [z|].
        -- unfold bind at 1. rewrite (setattr_live _ _ _ _ _ Ho).
           unfold ret at 1. unfold bind at 1.
           destruct (IH (set_inst_dict <[f_attname vf := Some (z + 1)]> o)
                        (set_heap <[self := set_inst_dict
                              <[f_attname vf := Some (z + 1)]> o]> w))
             as (w' & E & ? & ? & ? & ?); [by simpl; rewrite lookup_insert_eq|done|].
           rewrite E. eauto 10.
        -- unfold ret at 1. unfold bind at 1.
           destruct (IH _ _ Ho Hrest) as (w' & E & ?). rewrite E. eauto.
      * unfold raise. eauto 10.
    + assert (Hrest : ¬ asserts_pass cv rest).
      { intros Hr. apply Hp. constructor; [|done]. simpl. by rewrite Hv. }
      unfold ret at 1. unfold bind at 1.
      destruct (IH _ _ Ho Hrest) as (w' & E & ?). rewrite E. eauto.
Qed.

(** The narrowing of the queryset, as the code computes it. *)
Lemma version_qs_conditioned tid self o vf cv base_qs w :
  heap w !! self = Some o →
  (match cv with
   | Some c =>
       let! a := optimisticLocking.active tid (Some (OInst self)) in
       if truthy a then ret (filter_ base_qs (CEq (f_attname vf) c))
       else ret base_qs
   | None => ret base_qs
   end) w = (w, Ret (conditioned tid self vf cv base_qs w)).
Proof.
  intros Ho. destruct cv as [c|]; [|reflexivity].
  unfold conditioned, locking_applies, reports_active, outcome. munfold.
  rewrite (active_instance _ _ _ _ Ho). cbn [snd].
  by destruct (truthy _).
Qed.

(** [Model._do_update] as [_do_update] calls it: one statement; the
    result tells whether the queryset selected the row. *)
Lemma super_do_update qs using_ pk_val values' update_fields forced_update w :
  Model._do_update qs using_ pk_val values'
      (match values' with [] => None | _ :: _ => update_fields end) forced_update w =
    (write_world qs pk_val values' w,
     Ret (bool_decide (is_Some (selected (db w) qs pk_val)))).
Proof.
  unfold Model._do_update, write_world, write_stmt. destruct values' as [|e rest].
  - rewrite exists_pk, row_exists_selected. by destruct (selected (db w) qs pk_val).
  - munfold. rewrite update_pk. destruct (selected (db w) qs pk_val).
    + by rewrite bool_decide_eq_true_2.
    + rewrite bool_decide_eq_false_2; [done|]. by intros [? ?].
Qed.

(** A save that is passed on as it came. *)
Lemma do_update_delegated tid self base_qs using_ pk_val values update_fields forced_update
    o vf w :
  heap w !! self = Some o →
  List.find f_is_version (inst_fields o) = Some vf →
  f_model vf ≠ qs_model base_qs →
  _do_update tid self base_qs using_ pk_val values update_fields forced_update w =
    Model._do_update base_qs using_ pk_val (literal values) update_fields forced_update w.
Proof.
  intros Ho Hf Hne. unfold _do_update. unfold bind at 1.
  rewrite (get_version_field_found _ _ _ _ Ho Hf).
  apply String.eqb_neq in Hne. by rewrite Hne.
Qed.

(** A save with the version deferred, on the model of the version
    field. *)
Lemma do_update_deferred tid self base_qs using_ pk_val values update_fields forced_update
    vf w :
  version_deferred w self vf →
  f_model vf = qs_model base_qs →
  _do_update tid self base_qs using_ pk_val values update_fields forced_update w =
    (w, Raise RuntimeError).
Proof.
  intros (o & Ho & Hf & Hd) Hm. unfold _do_update. unfold bind at 1.
  rewrite (get_version_field_found _ _ _ _ Ho Hf).
  apply String.eqb_eq in Hm. rewrite Hm. cbn [negb]. unfold bind at 1.
  destruct (version_in_deferred _ _ _ w Ho Hf) as (deferred & -> & ->).
  by rewrite bool_decide_eq_true_2.
Qed.

(** A save on the model of the version field, version loaded, assertions
    passing: the attributes follow the loop, then the write goes out on
    the conditioned queryset and the conflict check runs on its result. *)
Lemma do_update_checked tid self base_qs using_ pk_val values update_fields forced_update
    o vf cv w :
  heap w !! self = Some o →
  List.find f_is_version (inst_fields o) = Some vf →
  inst_dict o !! f_attname vf = Some cv →
  f_model vf = qs_model base_qs →
  asserts_pass cv values →
  _do_update tid self base_qs using_ pk_val values update_fields forced_update w =
    let w1 := set_heap <[self := set_inst_dict (bumped vf values) o]> w in
    let qs := conditioned tid self vf cv base_qs w in
    conflict_check self base_qs pk_val
      (bool_decide (is_Some (selected (db w) qs pk_val)))
      (write_world qs pk_val (rewritten vf values) w1).
Proof.
  intros Ho Hf Hd Hm Hp. unfold _do_update. unfold bind at 1.
  rewrite (get_version_field_found _ _ _ _ Ho Hf).
  apply String.eqb_eq in Hm. rewrite Hm. cbn [negb]. unfold bind at 1.
  destruct (version_in_deferred _ _ _ w Ho Hf) as (deferred & -> & ->).
  rewrite bool_decide_eq_false_2 by (by rewrite Hd).
  unfold bind at 1. rewrite (value_from_object_loaded _ _ _ _ _ Ho Hd).
  unfold bind at 1. rewrite (version_qs_conditioned _ _ _ _ _ _ _ Ho).
  unfold bind at 1. rewrite (increment_versions_pass _ _ _ _ _ _ Ho Hp).
  unfold bind at 1. rewrite super_do_update. reflexivity.
Qed.

(** The same save when an assertion fails: [AssertionError] before any
    statement. *)
Lemma do_update_assertion tid self base_qs using_ pk_val values update_fields forced_update
    o vf cv w :
  heap w !! self = Some o →
  List.find f_is_version (inst_fields o) = Some vf →
  inst_dict o !! f_attname vf = Some cv →
  f_model vf = qs_model base_qs →
  ¬ asserts_pass cv values →
  ∃ w', _do_update tid self base_qs using_ pk_val values update_fields forced_update w =
          (w', Raise AssertionError) ∧
        db w' = db w ∧ queries w' = queries w.
Proof.
  intros Ho Hf Hd Hm Hp. unfold _do_update. unfold bind at 1.
  rewrite (get_version_field_found _ _ _ _ Ho Hf).
  apply String.eqb_eq in Hm. rewrite Hm. cbn [negb]. unfold bind at 1.
  destruct (version_in_deferred _ _ _ w Ho Hf) as (deferred & -> & ->).
  rewrite bool_decide_eq_false_2 by (by rewrite Hd).
  unfold bind at 1. rewrite (value_from_object_loaded _ _ _ _ _ Ho Hd).
  unfold bind at 1. rewrite (version_qs_conditioned _ _ _ _ _ _ _ Ho).
  unfold bind at 1.
  destruct (increment_versions_fail _ vf _ _ _ _ Ho Hp) as (w' & -> & ? & ? & _).
  eauto.
Qed.

End Update.

(** ** Conflict detection *)

Section Conflict.

Import Model VersionedMixin.

Lemma issued_extended w w' stmts :
  queries w' = stmts ++ queries w → issued w w' = rev stmts.
Proof.
  intros H. unfold issued. rewrite H, length_app.
  replace (length stmts + length (queries w) - length (queries w))%nat
    with (length stmts) by lia.
  by rewrite take_app_length.
Qed.

Lemma conflict_check_updated self base_qs pk_val w :
  conflict_check self base_qs pk_val true w = (w, Ret true).
Proof. reflexivity. Qed.

Lemma conflict_check_gone self base_qs pk_val w :
  row_exists w base_qs pk_val = false →
  conflict_check self base_qs pk_val false w =
    (log (SExists (filter_ base_qs (CPk pk_val))) w, Ret false).
Proof. intros H. unfold conflict_check. munfold. rewrite exists_pk. by rewrite H. Qed.

Lemma conflict_check_found self base_qs pk_val w :
  row_exists w base_qs pk_val = true →
  conflict_check self base_qs pk_val false w =
    match refresh_from_db self (log (SExists (filter_ base_qs (CPk pk_val))) w) with
    | (w', Ret _) => (w', Raise (ConcurrentUpdate self))
    | (w', Raise e) => (w', Raise e)
    end.
Proof.
  intros H. unfold conflict_check, ConcurrentUpdate_init. munfold.
  rewrite exists_pk. rewrite H.
  by destruct (refresh_from_db self _) as [w' [[]|e]].
Qed.



Lemma write_world_missed qs pk_val values' w :
  selected (db w) qs pk_val = None →
  write_world qs pk_val values' w = log (write_stmt qs pk_val values') w.
Proof. intros H. unfold write_world. rewrite H. by destruct values'. Qed.




(** A loaded attribute stays loaded through the loop. *)
Lemma bumped_loaded vf (values : list staged) (dict : gmap string pyval) a :
  is_Some (dict !! a) → is_Some (bumped vf values dict !! a).
Proof.
  unfold bumped. revert dict. induction values as [|[[f m] v] rest IH]; intros dict H.
  - exact H.
  - simpl. apply IH. destruct (f_is_version f); [|done]. destruct v as [z|]; [|done].
    destruct (decide (f_attname vf = a)) as [->|Hne].
    + rewrite lookup_insert_eq. by eexists.
    + by rewrite lookup_insert_ne.
Qed.




End Conflict.




Section Statements.

Import Model VersionedMixin.

Lemma refresh_from_db_queries self w :
  ∃ stmts, queries (refresh_from_db self w).1 = stmts ++ queries w.
Proof.
  unfold refresh_from_db. munfold. destruct (heap w !! self) as [o|].
  - destruct (refresh_fields _ _ _ _); by eexists [_].
  - by exists [].
Qed.

Lemma conflict_check_queries self base_qs pk_val updated w :
  ∃ stmts, queries (conflict_check self base_qs pk_val updated w).1 = stmts ++ queries w.
Proof.
  destruct updated; [by exists []|].
  destruct (row_exists w base_qs pk_val) eqn:He.
  - rewrite conflict_check_found by done.
    destruct (refresh_from_db_queries self (log (SExists (filter_ base_qs (CPk pk_val))) w))
      as [stmts Hs].
    destruct (refresh_from_db self _) as [w' [[]|e]]; simpl in *;
      exists (stmts ++ [SExists (filter_ base_qs (CPk pk_val))]);
      by rewrite Hs, <- app_assoc.
  - rewrite conflict_check_gone by done. by eexists [_].
Qed.

Lemma write_world_queries qs pk_val values' w :
  queries (write_world qs pk_val values' w) = write_stmt qs pk_val values' :: queries w.
Proof.
  unfold write_world. by destruct values', (selected (db w) qs pk_val).
Qed.

End Statements.



(** C7 (amended).  For every update that targets the model declaring the
    version field, on a record whose version attribute is deferred, the
    call raises [RuntimeError] and leaves the world as it was: no
    statement is executed and nothing is changed. *)
Theorem deferred_version_rejected (tid self : nat) (base_qs : queryset) (using_ : string)
    (pk_val : Z) (values : list staged) (update_fields : option (list string))
    (forced_update : bool) (vf : field) (w : world) :
  version_deferred w self vf →
  f_model vf = qs_model base_qs →
  VersionedMixin._do_update tid self base_qs using_ pk_val values update_fields
    forced_update w = (w, Raise RuntimeError).
Proof. apply do_update_deferred. Qed.

Lemma deferred_version_rejected_witness :
  VersionedMixin._do_update 0 1 doc_qs "default" 1 [(title_field, None, Some 11)]
    (Some ["title"]) false (library (doc_table (Some 3)) doc_deferred true)
  = (library (doc_table (Some 3)) doc_deferred true, Raise RuntimeError).
Proof.
  apply (deferred_version_rejected 0 1 doc_qs "default" 1 [(title_field, None, Some 11)]
           (Some ["title"]) false version_field).
  - exists doc_deferred. repeat split; reflexivity.
  - reflexivity.
Defined.

(** C7, as stated, fails for a hierarchy whose child model declares the
    version: the save of the record with the version deferred, when it
    reaches the parent's table, is passed on before the deferred attribute
    is looked at, and the UPDATE of the parent's row is executed. *)
Lemma deferred_version_parent_table_written :
  let w := library note_tables note_deferred true in
  let c := VersionedMixin._do_update 0 1 doc_qs "default" 1 [(title_field, None, Some 11)]
             (Some ["title"]) false in
  version_deferred w 1 note_version_field ∧
  outcome c w = Ret true ∧
  issued w (after c w) =
    [SUpdate (Model.filter_ doc_qs (CPk 1)) [(title_field, None, WLit (Some 11))]] ∧
  stored w "doc" 1 "title" = Some (Some 10) ∧
  stored (after c w) "doc" 1 "title" = Some (Some 11).
Proof.
  split.
  - exists note_deferred. repeat split; reflexivity.
  - vm_compute. repeat split.
Qed.

(** C8.  For a record type spread over several tables, a save that
    targets a model other than the one declaring the version field is
    handed to [Model._do_update] as it came: the same queryset (no version
    predicate), the same values (no version rewritten), and the result
    returned without a conflict check; the record in memory is not
    touched. *)
Theorem other_tables_delegated (tid self : nat) (base_qs : queryset) (using_ : string)
    (pk_val : Z) (values : list staged) (update_fields : option (list string))
    (forced_update : bool) (o : instance) (vf : field) (w : world) :
  heap w !! self = Some o →
  List.find f_is_version (inst_fields o) = Some vf →
  f_model vf ≠ qs_model base_qs →
  let c := VersionedMixin._do_update tid self base_qs using_ pk_val values
             update_fields forced_update in
  c w = Model._do_update base_qs using_ pk_val (VersionedMixin.literal values)
          update_fields forced_update w ∧
  heap (after c w) = heap w ∧
  ∃ updated, outcome c w = Ret updated.
Proof.
  intros Ho Hf Hne c. unfold c, after, outcome.
  rewrite (do_update_delegated _ _ _ _ _ _ _ _ _ _ _ Ho Hf Hne).
  split; [reflexivity|]. unfold Model._do_update.
  destruct (VersionedMixin.literal values) as [|e rest].
  - destruct update_fields; simpl; eauto.
  - munfold. simpl. eauto.
Qed.

Lemma other_tables_delegated_witness :
  let w := library note_tables note_deferred true in
  VersionedMixin._do_update 0 1 doc_qs "default" 1 [(title_field, None, Some 11)]
    (Some ["title"]) false w
  = Model._do_update doc_qs "default" 1 [(title_field, None, WLit (Some 11))]
      (Some ["title"]) false w.
Proof.
  apply (other_tables_delegated 0 1 doc_qs "default" 1 [(title_field, None, Some 11)]
           (Some ["title"]) false note_deferred note_version_field
           (library note_tables note_deferred true)).
  - reflexivity.
  - reflexivity.
  - vm_compute. discriminate.
Defined.

(** ** The cut of [_do_update] at its statements *)

Section Cut.

Import Model VersionedMixin.

(** Four steps run a save to its end, and the end is that of
    [_do_update]: at most the write, the lookup of the row and the
    refresh, in this order. *)
Lemma run_do_update tid self base_qs using_ pk_val values update_fields forced_update w :
  Steps.run 4 (Steps.AtCall tid self base_qs using_ pk_val values update_fields
                 forced_update) w =
    (let '(w', r) := _do_update tid self base_qs using_ pk_val values update_fields
                       forced_update w in
     (w', Steps.Finished r)).
Proof.
  cbv beta iota zeta delta
    [bind ret raise Steps.run Steps.step Steps.finish Steps.before_super _do_update id].
  repeat (case_match; simplify_eq; try reflexivity).
Qed.

End Cut.

Section Rewriting.

Import Model VersionedMixin.

(** The first step of a save on the model of the version field, version
    loaded, assertions passing. *)
Lemma step_call_checked tid self base_qs using_ pk_val values update_fields forced_update
    o vf cv w :
  heap w !! self = Some o →
  List.find f_is_version (inst_fields o) = Some vf →
  inst_dict o !! f_attname vf = Some cv →
  f_model vf = qs_model base_qs →
  asserts_pass cv values →
  Steps.step (Steps.AtCall tid self base_qs using_ pk_val values update_fields
                forced_update) w =
    (set_heap <[self := set_inst_dict (bumped vf values) o]> w,
     Steps.AtSuper self base_qs true (conditioned tid self vf cv base_qs w) using_ pk_val
       (rewritten vf values)
       (match rewritten vf values with [] => None | _ :: _ => update_fields end)
       forced_update).
Proof.
  intros Ho Hf Hd Hm Hp. unfold Steps.step, Steps.before_super. unfold bind at 1.
  rewrite (get_version_field_found _ _ _ _ Ho Hf).
  apply String.eqb_eq in Hm. rewrite Hm. cbn [negb]. unfold bind at 1.
  destruct (version_in_deferred _ _ _ w Ho Hf) as (deferred & -> & ->).
  rewrite bool_decide_eq_false_2 by (by rewrite Hd).
  unfold bind at 1. rewrite (value_from_object_loaded _ _ _ _ _ Ho Hd).
  unfold bind at 1. rewrite (version_qs_conditioned _ _ _ _ _ _ _ Ho).
  unfold bind at 1. rewrite (increment_versions_pass _ _ _ _ _ _ Ho Hp).
  reflexivity.
Qed.

(** The first statement of such a save is the write, on the conditioned
    queryset, with the rewritten values. *)
Lemma do_update_first_statement tid self base_qs using_ pk_val values update_fields
    forced_update o vf cv w :
  heap w !! self = Some o →
  List.find f_is_version (inst_fields o) = Some vf →
  inst_dict o !! f_attname vf = Some cv →
  f_model vf = qs_model base_qs →
  asserts_pass cv values →
  ∃ rest,
    issued w (after (_do_update tid self base_qs using_ pk_val values update_fields
                       forced_update) w) =
      write_stmt (conditioned tid self vf cv base_qs w) pk_val (rewritten vf values) :: rest.
Proof.
  intros Ho Hf Hd Hm Hp. unfold after.
  rewrite (do_update_checked _ _ _ _ _ _ _ _ _ _ _ _ Ho Hf Hd Hm Hp). cbn zeta.
  set (qs := conditioned tid self vf cv base_qs w).
  set (w2 := write_world qs pk_val _ _).
  destruct (conflict_check_queries self base_qs pk_val
              (bool_decide (is_Some (selected (db w) qs pk_val))) w2) as [stmts Hs].
  exists (rev stmts).
  rewrite (issued_extended _ _ (stmts ++ [write_stmt qs pk_val (rewritten vf values)])).
  - by rewrite rev_app_distr.
  - rewrite Hs. unfold w2. rewrite write_world_queries. by rewrite <- app_assoc.
Qed.

Lemma rewritten_lookup vf values i f m v :
  values !! i = Some (f, m, v) →
  rewritten vf values !! i = Some (rewritten_entry vf (f, m, v)).
Proof. intros H. unfold rewritten. by rewrite (list_lookup_fmap _ values i), H. Qed.

(** With no non-null version staged, the loop sets no attribute. *)
Lemma bumped_none vf values dict :
  Forall (λ e : staged, f_is_version e.1.1 = true → e.2 = None) values →
  bumped vf values dict = dict.
Proof.
  unfold bumped. revert dict. induction values as [|[[f m] v] rest IH]; intros dict H.
  - reflexivity.
  - apply Forall_cons in H as [Hhd Htl]. simpl in *.
    destruct (f_is_version f); [rewrite (Hhd eq_refl)|]; by apply IH.
Qed.

(** With one non-null version staged throughout, the loop leaves the
    attribute at that version plus one. *)
Lemma bumped_same vf values dict z :
  Forall (λ e : staged, f_is_version e.1.1 = true → e.2 = Some z) values →
  Exists (λ e : staged, f_is_version e.1.1 = true) values →
  bumped vf values dict = <[f_attname vf := Some (z + 1)]> dict.
Proof.
  unfold bumped.
  assert (G : ∀ (values : list staged) (dict : gmap string pyval),
    Forall (λ e : staged, f_is_version e.1.1 = true → e.2 = Some z) values →
    foldl (λ d (e : staged),
             if f_is_version e.1.1 then
               match e.2 with
               | Some v => <[f_attname vf := Some (v + 1)]> d
               | None => d
               end
             else d) (<[f_attname vf := Some (z + 1)]> dict) values
    = <[f_attname vf := Some (z + 1)]> dict).
  { clear. induction values as [|[[f m] v] rest IH]; intros dict H; [done|].
    apply Forall_cons in H as [Hhd Htl]. simpl in *.
    destruct (f_is_version f); [|by apply IH].
    rewrite (Hhd eq_refl). rewrite insert_insert_eq. by apply IH. }
  revert dict. induction values as [|[[f m] v] rest IH]; intros dict Hall Hex.
  - by apply Exists_nil in Hex.
  - apply Forall_cons in Hall as [Hhd Htl]. simpl in *.
    destruct (f_is_version f) eqn:Hv.
    + rewrite (Hhd eq_refl). by apply G.
    + apply Exists_cons in Hex as [Hex|Hex]; [simpl in Hex; congruence|]. by apply IH.
Qed.

(** Narrowing a queryset can only lose the row. *)
Lemma selected_conditioned tid self vf cv base_qs pk_val w :
  selected (db w) base_qs pk_val = None →
  selected (db w) (conditioned tid self vf cv base_qs w) pk_val = None.
Proof.
  intros H. unfold conditioned. destruct cv as [c|]; [|done].
  destruct (locking_applies _ _ _ _); [|done].
  unfold selected in *. change (qs_model (filter_ base_qs _)) with (qs_model base_qs).
  destruct (table_of (db w) (qs_model base_qs) !! pk_val) as [r|]; [|done].
  rewrite qs_match_filter. by destruct (qs_match (qs_conds base_qs) pk_val r).
Qed.

End Rewriting.

(** ** The version entry and the version in memory *)

Section Versions.

Import Model VersionedMixin.

Lemma assert_consistent_true cv v :
  assert_consistent cv v = true ↔ (is_Some cv → v = cv).
Proof.
  unfold assert_consistent. destruct cv as [c|].
  - rewrite bool_decide_eq_true. split.
    + intros H _. by symmetry.
    + intros H. symmetry. apply H. by eexists.
  - split; [|done]. by intros _ [? ?].
Qed.

Lemma asserts_pass_lookup cv (values : list staged) :
  asserts_pass cv values ↔
  ∀ i f m v, values !! i = Some (f, m, v) → f_is_version f = true → is_Some cv → v = cv.
Proof.
  unfold asserts_pass. rewrite Forall_lookup. split.
  - intros H i f m v Hi Hv. apply assert_consistent_true. by apply (H i (f, m, v)).
  - intros H i [[f m] v] Hi Hv. apply assert_consistent_true. by apply (H i f m v).
Qed.

Lemma attr_of_bumped self o vf values w a :
  attr_of (set_heap <[self := set_inst_dict (bumped vf values) o]> w) self a
  = bumped vf values (inst_dict o) !! a.
Proof. unfold attr_of. simpl. by rewrite lookup_insert_eq. Qed.

End Versions.

(** C3 (amended).  For every update on the model that declares the version
    field (version loaded): a staged version that differs from a non-null
    client version is a fatal assertion failure, before any statement.
    Otherwise the call reaches its write with every staged version entry
    rewritten by its staged value: a non-null value (equal to the client
    version when that is not null) is replaced by that value plus one and
    the version in memory is set to the same; a null value (the client
    version is then null too) is replaced by the expression
    [F(version) + 1] and nothing in memory is changed.  Other entries are
    written as staged. *)
Theorem version_entry_rewritten (tid self : nat) (base_qs : queryset) (using_ : string)
    (pk_val : Z) (values : list staged) (update_fields : option (list string))
    (forced_update : bool) (vf : field) (cv : pyval) (w : world) :
  versioned w self vf cv →
  f_model vf = qs_model base_qs →
  let call := Steps.AtCall tid self base_qs using_ pk_val values update_fields
                forced_update in
  let c := VersionedMixin._do_update tid self base_qs using_ pk_val values
             update_fields forced_update in
  ((∃ i f m v, values !! i = Some (f, m, v) ∧ f_is_version f = true ∧
               is_Some cv ∧ v ≠ cv) →
     outcome c w = Raise AssertionError ∧ issued w (after c w) = []) ∧
  ((∀ i f m v, values !! i = Some (f, m, v) → f_is_version f = true →
               is_Some cv → v = cv) →
     ∃ w1 qs values' uf' rest,
       Steps.step call w =
         (w1, Steps.AtSuper self base_qs true qs using_ pk_val values' uf' forced_update) ∧
       issued w (after c w) = write_stmt qs pk_val values' :: rest ∧
       length values' = length values ∧
       (∀ i f m v, values !! i = Some (f, m, v) →
          values' !! i =
            Some (f, m,
                  if f_is_version f then
                    match v with
                    | Some z => WLit (Some (z + 1))
                    | None => WFInc (f_attname vf)
                    end
                  else WLit v)) ∧
       (∀ z, Exists (λ e : staged, f_is_version e.1.1 = true) values →
             Forall (λ e : staged, f_is_version e.1.1 = true → e.2 = Some z) values →
             attr_of w1 self (f_attname vf) = Some (Some (z + 1))) ∧
       (Forall (λ e : staged, f_is_version e.1.1 = true → e.2 = None) values →
          w1 = w)).
Proof.
  intros (o & Ho & Hf & Hd) Hm call c. split.
  - intros (i & f & m & v & Hi & Hv & Hc & Hne).
    destruct (do_update_assertion tid self base_qs using_ pk_val values update_fields
                forced_update o vf cv w Ho Hf Hd Hm) as (w' & E & _ & Hq).
    { rewrite asserts_pass_lookup. intros H. by apply Hne, (H i f m v). }
    unfold outcome, after, c. rewrite E. split; [reflexivity|].
    by apply (issued_extended _ _ []).
  - intros Hp. apply asserts_pass_lookup in Hp.
    destruct (do_update_first_statement tid self base_qs using_ pk_val values update_fields
                forced_update o vf cv w Ho Hf Hd Hm Hp) as [rest Hrest].
    eexists _, _, _, _, rest. split; [|split; [|split; [|split; [|split]]]].
    + unfold call. apply (step_call_checked _ _ _ _ _ _ _ _ _ _ _ _ Ho Hf Hd Hm Hp).
    + exact Hrest.
    + unfold rewritten. apply length_map.
    + intros i f m v Hi. rewrite (rewritten_lookup _ _ _ _ _ _ Hi).
      unfold rewritten_entry. simpl. by destruct (f_is_version f), v.
    + intros z Hex Hall. rewrite attr_of_bumped.
      rewrite (bumped_same _ _ _ _ Hall Hex). by rewrite lookup_insert_eq.
    + intros Hnone.
      replace (set_inst_dict (bumped vf values) o) with o; [by apply set_heap_same|].
      destruct o. unfold set_inst_dict. simpl. f_equal. symmetry. by apply bumped_none.
Qed.

Lemma version_entry_rewritten_witness :
  outcome (VersionedMixin._do_update 0 1 doc_qs "default" 1 (full_values (Some 5)) None false)
    (library (doc_table (Some 3)) (doc (Some 3)) true) = Raise AssertionError ∧
  issued (library (doc_table (Some 3)) (doc (Some 3)) true)
    (after (VersionedMixin._do_update 0 1 doc_qs "default" 1 (full_values (Some 5))
              None false)
       (library (doc_table (Some 3)) (doc (Some 3)) true)) = [].
Proof.
  refine (proj1 (version_entry_rewritten 0 1 doc_qs "default" 1 (full_values (Some 5))
                   None false version_field (Some 3)
                   (library (doc_table (Some 3)) (doc (Some 3)) true) _ _) _).
  - exists (doc (Some 3)). repeat split; reflexivity.
  - reflexivity.
  - exists 1%nat, version_field, None, (Some 5). repeat split; [by eexists | discriminate].
Defined.

(** C3, as stated, fails when the client version is null and a non-null
    value is staged for the version: the entry is not replaced by the
    increment expression but by the staged value plus one, and the version
    in memory is set to it. *)
Lemma null_client_version_staged_value_incremented :
  let w := library (doc_table (Some 4)) (doc None) true in
  let c := VersionedMixin._do_update 0 1 doc_qs "default" 1 (full_values (Some 5))
             None false in
  attr_of w 1 "version" = Some None ∧
  outcome c w = Ret true ∧
  issued w (after c w) =
    [SUpdate (Model.filter_ doc_qs (CPk 1))
       [(title_field, None, WLit (Some 11)); (version_field, None, WLit (Some 6))]] ∧
  attr_of (after c w) 1 "version" = Some (Some 6).
Proof. vm_compute. repeat split. Qed.

(** C10 (amended).  For every update with a non-null client version whose
    write list stages the version (at the client version, as the assertion
    demands), on the model that declares the version field: when the call
    reaches its write, no statement has been executed yet and the version
    in memory is already the client version plus one; and if no row of the
    given key exists, the call returns [False] with the version in memory
    still at the client version plus one. *)
Theorem memory_version_advanced (tid self : nat) (base_qs : queryset) (using_ : string)
    (pk_val : Z) (values : list staged) (update_fields : option (list string))
    (forced_update : bool) (vf : field) (client_version : Z) (w : world) :
  versioned w self vf (Some client_version) →
  f_model vf = qs_model base_qs →
  asserts_pass (Some client_version) values →
  Exists (λ e : staged, f_is_version e.1.1 = true) values →
  let call := Steps.AtCall tid self base_qs using_ pk_val values update_fields
                forced_update in
  let c := VersionedMixin._do_update tid self base_qs using_ pk_val values
             update_fields forced_update in
  (∃ w1 qs values' uf',
     Steps.step call w =
       (w1, Steps.AtSuper self base_qs true qs using_ pk_val values' uf' forced_update) ∧
     queries w1 = queries w ∧ db w1 = db w ∧
     attr_of w1 self (f_attname vf) = Some (Some (client_version + 1))) ∧
  (row_exists w base_qs pk_val = false →
     outcome c w = Ret false ∧
     attr_of (after c w) self (f_attname vf) = Some (Some (client_version + 1))).
Proof.
  intros (o & Ho & Hf & Hd) Hm Hp Hex call c.
  assert (Hall : Forall (λ e : staged, f_is_version e.1.1 = true →
                                       e.2 = Some client_version) values).
  { apply Forall_forall. intros [[f m] v] Hin Hv.
    apply list_elem_of_lookup in Hin as [i Hi].
    rewrite asserts_pass_lookup in Hp. by apply (Hp i f m v). }
  split.
  - eexists _, _, _, _. split; [|split; [|split]].
    + unfold call. apply (step_call_checked _ _ _ _ _ _ _ _ _ _ _ _ Ho Hf Hd Hm Hp).
    + reflexivity.
    + reflexivity.
    + rewrite attr_of_bumped, (bumped_same _ _ _ _ Hall Hex). by rewrite lookup_insert_eq.
  - intros He. unfold outcome, after, c.
    rewrite (do_update_checked _ _ _ _ _ _ _ _ _ _ _ _ Ho Hf Hd Hm Hp). cbn zeta.
    assert (Hs : selected (db w) base_qs pk_val = None).
    { rewrite row_exists_selected in He. apply bool_decide_eq_false_1 in He.
      destruct (selected (db w) base_qs pk_val); [|done]. destruct He. by eexists. }
    pose proof (selected_conditioned tid self vf (Some client_version) _ _ _ Hs) as Hc.
    rewrite Hc. rewrite bool_decide_eq_false_2 by (by intros [? ?]).
    rewrite write_world_missed by exact Hc.
    rewrite conflict_check_gone by exact He. split; [reflexivity|].
    cbn [fst]. unfold attr_of. simpl. rewrite lookup_insert_eq. simpl.
    rewrite (bumped_same _ _ _ _ Hall Hex). by rewrite lookup_insert_eq.
Qed.

Lemma memory_version_advanced_witness :
  let w := library ∅ (doc (Some 3)) true in
  let c := VersionedMixin._do_update 0 1 doc_qs "default" 1 (full_values (Some 3))
             None false in
  outcome c w = Ret false ∧ attr_of (after c w) 1 "version" = Some (Some 4).
Proof.
  refine (proj2 (memory_version_advanced 0 1 doc_qs "default" 1 (full_values (Some 3))
                   None false version_field 3 (library ∅ (doc (Some 3)) true) _ _ _ _) _).
  - exists (doc (Some 3)). repeat split; reflexivity.
  - reflexivity.
  - repeat (apply Forall_cons; split; [by simpl|]). apply Forall_nil_2.
  - apply Exists_cons_tl, Exists_cons_hd. reflexivity.
  - vm_compute. reflexivity.
Defined.

(** C10, as stated, fails for a save that leaves the version out of its
    write list ([update_fields] without the version): the loop meets no
    version entry, the version in memory is still the client version when
    the write goes out, and it is still so when the call returns [False]
    for a row that is gone. *)
Lemma memory_version_kept_without_version_entry :
  let w := library ∅ (doc (Some 3)) true in
  let values := [(title_field, None, Some 11)] in
  let c := VersionedMixin._do_update 0 1 doc_qs "default" 1 values (Some ["title"]) false in
  (∃ qs values' uf',
     Steps.step (Steps.AtCall 0 1 doc_qs "default" 1 values (Some ["title"]) false) w =
       (w, Steps.AtSuper 1 doc_qs true qs "default" 1 values' uf' false)) ∧
  attr_of w 1 "version" = Some (Some 3) ∧
  outcome c w = Ret false ∧
  attr_of (after c w) 1 "version" = Some (Some 3).
Proof.
  split.
  - eexists _, _, _. vm_compute. reflexivity.
  - vm_compute. repeat split.
Qed.

(** ** The scope seen from a save *)

(** C6 (amended).  For every record, the scope query returns true exactly
    when the ambient counter of the running thread is nonzero or the
    counter that attribute lookup finds on the record is nonzero: the
    record's own counter when it has one (even zero), otherwise the first
    one along its classes.  In particular, with the ambient scope active
    an update of the record with a non-null client version is
    version-checked whatever the record's own counter: its write carries
    the version predicate. *)
Theorem scope_fallback (tid self : nat) (o : instance) (w : world) :
  heap w !! self = Some o →
  reports_active tid (Some (OInst self)) w =
    truthy (current_state w !! tid) ||
    truthy (match inst_ol o with
            | Some v => Some v
            | None => optimisticLocking.mro_lookup (class_ol w) (inst_mro o)
            end) ∧
  ∀ base_qs using_ pk_val values update_fields forced_update vf client_version,
    truthy (current_state w !! tid) = true →
    List.find f_is_version (inst_fields o) = Some vf →
    inst_dict o !! f_attname vf = Some (Some client_version) →
    f_model vf = qs_model base_qs →
    asserts_pass (Some client_version) values →
    ∃ values' rest,
      issued w (after (VersionedMixin._do_update tid self base_qs using_ pk_val values
                         update_fields forced_update) w) =
        write_stmt (Model.filter_ base_qs (CEq (f_attname vf) client_version))
          pk_val values' :: rest.
Proof.
  intros Ho.
  pose proof (reports_active_instance tid self o w Ho) as Ha.
  split; [exact Ha|].
  intros base_qs using_ pk_val values update_fields forced_update vf cv Hamb Hf Hd Hm Hp.
  destruct (do_update_first_statement tid self base_qs using_ pk_val values update_fields
              forced_update o vf (Some cv) w Ho Hf Hd Hm Hp) as [rest Hrest].
  exists (rewritten vf values), rest. rewrite Hrest.
  unfold conditioned, locking_applies. by rewrite Ha, Hamb.
Qed.

Lemma scope_fallback_witness :
  let w := library (doc_table (Some 4)) (doc (Some 3)) true in
  reports_active 0 (Some (OInst 1)) w =
    truthy (current_state w !! 0%nat) ||
    truthy (match inst_ol (doc (Some 3)) with
            | Some v => Some v
            | None => optimisticLocking.mro_lookup (class_ol w) (inst_mro (doc (Some 3)))
            end).
Proof.
  exact (proj1 (scope_fallback 0 1 (doc (Some 3))
                  (library (doc_table (Some 4)) (doc (Some 3)) true) eq_refl)).
Defined.

(** C6, as stated, fails for a record that carries a counter of its own at
    zero: after a scope on the record was entered and left, a scope
    entered on its class is not seen by the query for the record, although
    the counter of the type is 1; a save of the record at a stale version
    is then written with the primary key alone and succeeds. *)
Lemma class_scope_hidden_by_own_counter :
  let c := do! optimisticLocking.__enter__ 0 (Some (OInst 1)) in
           do! optimisticLocking.__exit__ 0 (Some (OInst 1)) in
           optimisticLocking.__enter__ 0 (Some (OClass "Doc" [])) in
  let w := after c (library (doc_table (Some 4)) (doc (Some 3)) false) in
  let save := VersionedMixin._do_update 0 1 doc_qs "default" 1 (full_values (Some 3))
                None false in
  own_counter 0 (Some (OInst 1)) w = Some 0 ∧
  own_counter 0 (Some (OClass "Doc" [])) w = Some 1 ∧
  outcome (optimisticLocking.active 0 (Some (OInst 1))) w = Ret (Some 0) ∧
  reports_active 0 (Some (OInst 1)) w = false ∧
  outcome save w = Ret true ∧
  issued w (after save w) =
    [SUpdate (Model.filter_ doc_qs (CPk 1))
       [(title_field, None, WLit (Some 11)); (version_field, None, WLit (Some 4))]].
Proof. vm_compute. repeat split. Qed.

(** ** Inserts *)

Section Insert.

Import Model VersionedMixin.

(** The row an INSERT sends for a record whose written fields are all
    loaded: every column carries the attribute of its name. *)
Lemma row_of_loaded self o fields w :
  heap w !! self = Some o →
  Forall (λ f, is_Some (inst_dict o !! f_attname f)) fields →
  ∃ r, row_of self fields w = (w, Ret r) ∧
       ∀ f, f ∈ fields → r !! f_attname f = inst_dict o !! f_attname f.
Proof.
  intros Ho. induction fields as [|f rest IH]; intros Hl.
  - exists ∅. split; [reflexivity|]. intros f Hf. by apply elem_of_nil in Hf.
  - apply Forall_cons in Hl as [[v Hv] Hrest].
    destruct (IH Hrest) as (r & Er & Hr).
    exists (<[f_attname f := v]> r). split.
    + cbn [row_of]. unfold bind at 1.
      rewrite (value_from_object_loaded _ _ _ _ _ Ho Hv).
      unfold bind at 1. by rewrite Er.
    + intros g Hg. destruct (decide (f_attname g = f_attname f)) as [E|Hne].
      * by rewrite E, lookup_insert_eq.
      * rewrite lookup_insert_ne by done. apply Hr.
        apply elem_of_cons in Hg as [->|Hg]; [done|exact Hg].
Qed.

(** The key an automatic primary key is given is not in the table. *)
Lemma fresh_key_free (tbl : gmap Z (gmap string pyval)) : tbl !! fresh_key tbl = None.
Proof.
  destruct (tbl !! fresh_key tbl) as [r|] eqn:E; [|done]. exfalso.
  assert (H : ∀ (l : list Z) k, k ∈ l → k ≤ foldr Z.max 0 l).
  { induction l as [|x l IH]; intros k Hk; [by apply elem_of_nil in Hk|].
    apply elem_of_cons in Hk as [->|Hk]; cbn [foldr]; [lia|].
    specialize (IH k Hk). lia. }
  apply elem_of_map_to_list in E.
  assert (Hin : fresh_key tbl ∈ (map_to_list tbl).*1).
  { apply list_elem_of_fmap. by exists (fresh_key tbl, r). }
  apply H in Hin. unfold fresh_key in Hin at 1. lia.
Qed.

Lemma model_do_insert_loaded self o manager using_ fields (update_pk : bool) raw w :
  heap w !! self = Some o →
  Forall (λ f, is_Some (inst_dict o !! f_attname f)) fields →
  let tbl := table_of (db w) manager in
  let key := if update_pk then fresh_key tbl else inst_pk o in
  ∃ r, (∀ f, f ∈ fields → r !! f_attname f = inst_dict o !! f_attname f) ∧
       Model._do_insert self manager using_ fields update_pk raw w =
         match tbl !! key with
         | Some _ => (log (SInsert manager key) w, Raise IntegrityError)
         | None =>
             (log (SInsert manager key) (set_db <[manager := <[key := r]> tbl]> w),
              Ret (if update_pk then Some key else None))
         end.
Proof.
  intros Ho Hl tbl key. destruct (row_of_loaded _ _ _ w Ho Hl) as (r & Er & Hr).
  exists r. split; [exact Hr|]. unfold Model._do_insert. munfold. by rewrite Ho, Er.
Qed.

(** The insert hook: the default is put in place of a null version, then
    the INSERT runs. *)
Lemma do_insert_loaded self o vf cv manager using_ fields update_pk raw w :
  heap w !! self = Some o →
  List.find f_is_version (inst_fields o) = Some vf →
  inst_dict o !! f_attname vf = Some cv →
  VersionedMixin._do_insert self manager using_ fields update_pk raw w =
    Model._do_insert self manager using_ fields update_pk raw
      (match cv with
       | Some _ => w
       | None => set_heap <[self := set_inst_dict <[f_attname vf := f_default vf]> o]> w
       end).
Proof.
  intros Ho Hf Hd. unfold VersionedMixin._do_insert. unfold bind at 1.
  rewrite (get_version_field_found _ _ _ _ Ho Hf). unfold bind at 1.
  rewrite (value_from_object_loaded self o vf cv w Ho Hd). unfold bind at 1.
  destruct cv as [v|]; [reflexivity|]. by rewrite (setattr_live _ _ _ _ _ Ho).
Qed.

End Insert.

(** C9 (amended).  For every record inserted with its version attribute
    null, the insert path puts the default of the version field in its
    place before the INSERT is executed: 0 when the field was declared
    without a default, and the declared value otherwise (a plain value).
    When the database accepts the INSERT (the key is assigned by the
    database, or it is the record's own and free; the version that is
    sent is a value of the column's range), the stored version equals
    that default; a record inserted with a non-null version is stored
    with that version.  An INSERT under a key that is taken is refused
    with [IntegrityError] and the tables stay as they were.  (The INSERT
    writes the version, and the fields it writes are loaded.) *)
Theorem insert_default (self : nat) (manager using_ : string) (fields : list field)
    (update_pk raw : bool) (o : instance) (attname model : string)
    (kw_default : option pyval) (cv : pyval) (w : world) :
  let vf := VersionField attname model kw_default in
  let key := if update_pk then Model.fresh_key (Model.table_of (db w) manager)
             else inst_pk o in
  let inserted :=
    match cv, kw_default with
    | Some v, _ => Some v
    | None, Some d => d
    | None, None => Some 0
    end in
  heap w !! self = Some o →
  List.find f_is_version (inst_fields o) = Some vf →
  inst_dict o !! attname = Some cv →
  vf ∈ fields →
  Forall (λ f, is_Some (inst_dict o !! f_attname f)) fields →
  let c := VersionedMixin._do_insert self manager using_ fields update_pk raw in
  ((update_pk = false → Model.table_of (db w) manager !! inst_pk o = None) →
   (∃ z, inserted = Some z ∧ in_column z) →
     outcome c w = Ret (if update_pk then Some key else None) ∧
     issued w (after c w) = [SInsert manager key] ∧
     attr_of (after c w) self attname = Some inserted ∧
     stored (after c w) manager key attname = Some inserted) ∧
  (update_pk = false → is_Some (Model.table_of (db w) manager !! inst_pk o) →
     outcome c w = Raise IntegrityError ∧
     issued w (after c w) = [SInsert manager key] ∧
     attr_of (after c w) self attname = Some inserted ∧
     db (after c w) = db w).
Proof.
  intros vf key inserted Ho Hf Hd Hin Hl c.
  unfold c, outcome, after. rewrite (do_insert_loaded self o vf cv _ _ _ _ _ w Ho Hf Hd).
  assert (Hkey : update_pk = true → Model.table_of (db w) manager !! key = None).
  { intros ->. apply fresh_key_free. }
  assert (G : ∀ o1 w1 v,
            heap w1 !! self = Some o1 → inst_pk o1 = inst_pk o → queries w1 = queries w →
            db w1 = db w →
            inst_dict o1 !! attname = Some v →
            Forall (λ f, is_Some (inst_dict o1 !! f_attname f)) fields →
            let x := Model._do_insert self manager using_ fields update_pk raw w1 in
            (Model.table_of (db w) manager !! key = None →
               x.2 = Ret (if update_pk then Some key else None) ∧
               issued w x.1 = [SInsert manager key] ∧
               attr_of x.1 self attname = Some v ∧
               stored x.1 manager key attname = Some v) ∧
            (is_Some (Model.table_of (db w) manager !! key) →
               x.2 = Raise IntegrityError ∧
               issued w x.1 = [SInsert manager key] ∧
               attr_of x.1 self attname = Some v ∧
               db x.1 = db w)).
  { intros o1 w1 v Ho1 Hpk Hq Hdb Hv1 Hl1.
    destruct (model_do_insert_loaded self o1 manager using_ fields update_pk raw w1 Ho1 Hl1)
      as (r & Hr & E).
    cbn zeta in E. rewrite Hdb, Hpk in E. fold key in E. cbn zeta. rewrite E. split.
    - intros Hfree. rewrite Hfree. cbn [fst snd]. split; [reflexivity|]. split.
      { apply (issued_extended _ _ [_]). simpl. by rewrite Hq. }
      split.
      { unfold attr_of. simpl. by rewrite Ho1. }
      unfold stored. simpl. rewrite lookup_insert_eq, lookup_insert_eq.
      pose proof (Hr vf Hin) as Hrv. simpl in Hrv. by rewrite Hrv, Hv1.
    - intros [x Hx]. rewrite Hx. cbn [fst snd]. split; [reflexivity|]. split.
      { apply (issued_extended _ _ [_]). simpl. by rewrite Hq. }
      split; [|exact Hdb].
      unfold attr_of. simpl. by rewrite Ho1. }
  assert (G' : let x := Model._do_insert self manager using_ fields update_pk raw
                          (match cv with
                           | Some _ => w
                           | None => set_heap
                               <[self := set_inst_dict <[f_attname vf := f_default vf]> o]> w
                           end) in
               (Model.table_of (db w) manager !! key = None →
                  x.2 = Ret (if update_pk then Some key else None) ∧
                  issued w x.1 = [SInsert manager key] ∧
                  attr_of x.1 self attname = Some inserted ∧
                  stored x.1 manager key attname = Some inserted) ∧
               (is_Some (Model.table_of (db w) manager !! key) →
                  x.2 = Raise IntegrityError ∧
                  issued w x.1 = [SInsert manager key] ∧
                  attr_of x.1 self attname = Some inserted ∧
                  db x.1 = db w)).
  { destruct cv as [v|].
    - apply (G o w (Some v) Ho eq_refl eq_refl eq_refl Hd Hl).
    - apply (G (set_inst_dict <[f_attname vf := f_default vf]> o)).
      + simpl. by rewrite lookup_insert_eq.
      + reflexivity.
      + reflexivity.
      + reflexivity.
      + simpl. rewrite lookup_insert_eq. by destruct kw_default.
      + simpl. eapply Forall_impl; [exact Hl|]. intros f [x Hx]. simpl.
        destruct (decide (attname = f_attname f)) as [->|Hne].
        * rewrite lookup_insert_eq. by eexists.
        * rewrite lookup_insert_ne by done. by eexists. }
  cbn zeta in G'. destruct G' as [G1 G2]. split.
  - intros Hfree _. apply G1. destruct update_pk; [by apply Hkey | by apply Hfree].
  - intros Hpk Htaken. apply G2. unfold key. by rewrite Hpk.
Qed.

Lemma insert_default_witness :
  let w := library ∅ (new_doc version_field) false in
  let c := VersionedMixin._do_insert 1 "doc" "default" [title_field; version_field]
             false false in
  attr_of (after c w) 1 "version" = Some (Some 0) ∧
  stored (after c w) "doc" 1 "version" = Some (Some 0).
Proof.
  refine (proj2 (proj2 (proj1 (insert_default 1 "doc" "default" [title_field; version_field]
                          false false (new_doc version_field) "version" "doc" None None
                          (library ∅ (new_doc version_field) false) _ _ _ _ _) _ _))).
  - reflexivity.
  - reflexivity.
  - reflexivity.
  - apply list_elem_of_further, list_elem_of_here.
  - repeat (apply Forall_cons; split; [by eexists|]). apply Forall_nil_2.
  - reflexivity.
  - exists 0. split; [reflexivity|]. unfold in_column, version_max. lia.
Defined.

(** C9, as stated, fails for a version field declared with a default of
    its own: [setdefault] keeps the declared 5, and a record inserted with
    a null version is stored with version 5, not 0. *)
Lemma insert_uses_declared_default :
  let w := library ∅ (new_doc version_field_from_five) false in
  let c := VersionedMixin._do_insert 1 "doc" "default" [title_field; version_field_from_five]
             false false in
  attr_of w 1 "version" = Some None ∧
  f_default version_field_from_five = Some 5 ∧
  stored (after c w) "doc" 1 "version" = Some (Some 5) ∧
  stored (after c w) "doc" 1 "version" ≠ Some (Some 0).
Proof. vm_compute. repeat split. discriminate. Qed.

(** ** Two saves of one record, interleaved *)

Section Schedules.

(** Every step brings a save closer to its end. *)
Lemma remaining_step p w :
  (remaining (Steps.step p w).2 ≤ remaining p - 1)%nat.
Proof.
  destruct p; cbn [Steps.step].
  - unfold Steps.before_super.
    cbv beta iota zeta delta [bind ret raise Steps.finish id].
    repeat (case_match; simplify_eq; cbn [snd remaining]; try lia).
  - unfold Steps.finish.
    repeat (case_match; simplify_eq; cbn [snd remaining]; try lia).
  - unfold Steps.finish.
    repeat (case_match; simplify_eq; cbn [snd remaining]; try lia).
  - unfold Steps.finish.
    repeat (case_match; simplify_eq; cbn [snd remaining]; try lia).
  - cbn [snd remaining]. lia.
Qed.

Lemma turns_cons who b rest :
  turns who (b :: rest) = ((if decide (b = who) then 1 else 0) + turns who rest)%nat.
Proof. unfold turns. rewrite filter_cons. by destruct (decide (b = who)). Qed.

Lemma interleave_remaining schedule c :
  (remaining (Steps.r_first (Steps.interleave schedule c))
     ≤ remaining (Steps.r_first c) - turns true schedule)%nat ∧
  (remaining (Steps.r_second (Steps.interleave schedule c))
     ≤ remaining (Steps.r_second c) - turns false schedule)%nat.
Proof.
  revert c. induction schedule as [|b rest IH]; intros c.
  - unfold turns. simpl. lia.
  - unfold Steps.interleave in *. cbn [foldl].
    destruct (IH (Steps.turn c b)) as [IH1 IH2]. rewrite !turns_cons.
    unfold Steps.turn in *. destruct b.
    + destruct (decide (true = true)); [|done]. destruct (decide (true = false)); [done|].
      pose proof (remaining_step (Steps.r_first c) (Steps.r_world c)) as Hs.
      destruct (Steps.step (Steps.r_first c) (Steps.r_world c)) as [w' p'].
      cbn [Steps.r_first Steps.r_second snd] in *. lia.
    + destruct (decide (false = true)); [done|]. destruct (decide (false = false)); [|done].
      pose proof (remaining_step (Steps.r_second c) (Steps.r_world c)) as Hs.
      destruct (Steps.step (Steps.r_second c) (Steps.r_world c)) as [w' p'].
      cbn [Steps.r_first Steps.r_second snd] in *. lia.
Qed.

Lemma remaining_finished p : remaining p = 0%nat → ∃ r, p = Steps.Finished r.
Proof. destruct p; try discriminate. by eexists. Qed.

End Schedules.

Section Written.

Import Model VersionedMixin.

(** A write list that stages the version at [v], in the entries of the
    version column and only there, leaves that column at [v + 1]. *)
Lemma apply_values_version vf v (values : list staged) (r : gmap string pyval) :
  asserts_pass (Some v) values →
  Exists (λ e : staged, f_is_version e.1.1 = true) values →
  Forall (λ e : staged, f_is_version e.1.1 = true ↔ f_attname e.1.1 = f_attname vf) values →
  apply_values (rewritten vf values) r !! f_attname vf = Some (Some (v + 1)).
Proof.
  unfold apply_values, rewritten, asserts_pass.
  assert (G : ∀ (values : list staged) (acc : gmap string pyval),
    Forall (λ e : staged, f_is_version e.1.1 = true →
                          assert_consistent (Some v) e.2 = true) values →
    Forall (λ e : staged, f_is_version e.1.1 = true ↔ f_attname e.1.1 = f_attname vf)
      values →
    acc !! f_attname vf = Some (Some (v + 1)) ∨
      Exists (λ e : staged, f_is_version e.1.1 = true) values →
    foldl (λ acc' (e : written), <[f_attname e.1.1 := eval_wval r e.2]> acc') acc
      (map (rewritten_entry vf) values) !! f_attname vf = Some (Some (v + 1))).
  { clear values. induction values as [|[[f m] x] rest IH]; intros acc Ha Hi Hor.
    - destruct Hor as [H|H]; [exact H | by apply Exists_nil in H].
    - apply Forall_cons in Ha as [Ha Ha']. apply Forall_cons in Hi as [Hi Hi'].
      cbn [map foldl]. apply IH; [done|done|]. simpl in Ha, Hi.
      unfold rewritten_entry. cbn [fst snd].
      destruct (f_is_version f) eqn:Hv.
      + left. specialize (Ha eq_refl). apply bool_decide_eq_true_1 in Ha. subst x.
        cbn [fst snd eval_wval]. rewrite (proj1 Hi eq_refl). by rewrite lookup_insert_eq.
      + assert (f_attname f ≠ f_attname vf) by (intros E; by apply Hi in E).
        cbn [fst snd]. rewrite lookup_insert_ne by done.
        destruct Hor as [H'|H']; [by left|]. right.
        apply Exists_cons in H' as [H'|H']; [simpl in H'; congruence | done]. }
  intros Ha He Hi. apply G; [done|done|by right].
Qed.

(** The reload of a record of one table: every loaded attribute of a
    field takes the value of its column. *)
Lemma refresh_fields_single_table d pk m tbl (r : gmap string pyval) fields :
  d !! m = Some tbl → tbl !! pk = Some r →
  Forall (λ f, f_model f = m) fields →
  ∀ dict : gmap string pyval,
    ∃ dict', refresh_fields d pk fields dict = Some dict' ∧
      ∀ a, (dict !! a = Some (default None (r !! a)) →
            dict' !! a = Some (default None (r !! a))) ∧
           (is_Some (dict !! a) → a ∈ map f_attname fields →
            dict' !! a = Some (default None (r !! a))).
Proof.
  intros Hd Ht. induction fields as [|f rest IH]; intros Hm dict.
  - exists dict. split; [reflexivity|]. intros a. split; [done|].
    intros _ Hin. by apply elem_of_nil in Hin.
  - apply Forall_cons in Hm as [Hf Hrest]. cbn [refresh_fields].
    assert (Hfetch : fetch d pk f = Some (default None (r !! f_attname f))).
    { unfold fetch. by rewrite Hf, Hd, Ht. }
    rewrite Hfetch.
    set (dict1 := match dict !! f_attname f with
                  | Some _ => <[f_attname f := default None (r !! f_attname f)]> dict
                  | None => dict
                  end).
    destruct (IH Hrest dict1) as (dict' & E & Hg). exists dict'. split; [exact E|].
    intros a. destruct (Hg a) as [Hg1 Hg2].
    assert (Hstep : dict !! a = Some (default None (r !! a)) →
                    dict1 !! a = Some (default None (r !! a))).
    { intros Ha. unfold dict1. destruct (dict !! f_attname f); [|done].
      destruct (decide (f_attname f = a)) as [<-|Hne].
      - by rewrite lookup_insert_eq.
      - by rewrite lookup_insert_ne. }
    split; [by intros Ha; apply Hg1, Hstep|].
    intros [x Hx] Hin. cbn [map] in Hin. apply elem_of_cons in Hin as [->|Hin].
    + apply Hg1. unfold dict1. rewrite Hx. by rewrite lookup_insert_eq.
    + destruct (decide (f_attname f = a)) as [<-|Hne].
      * apply Hg1. unfold dict1. rewrite Hx. by rewrite lookup_insert_eq.
      * apply Hg2; [|done]. unfold dict1. destruct (dict !! f_attname f).
        -- rewrite lookup_insert_ne by done. by eexists.
        -- by eexists.
Qed.

(** The query for a record looks at the scopes and at the record only. *)
Lemma reports_active_frame tid oid o w w' :
  current_state w' = current_state w → class_ol w' = class_ol w →
  heap w !! oid = Some o → heap w' !! oid = Some o →
  reports_active tid (Some (OInst oid)) w' = reports_active tid (Some (OInst oid)) w.
Proof.
  intros Hc Hl Ho Ho'.
  rewrite (reports_active_instance _ _ _ _ Ho), (reports_active_instance _ _ _ _ Ho').
  by rewrite Hc, Hl.
Qed.

End Written.

Section Race.

Import Model VersionedMixin.

Context (w0 : world) (base_qs : queryset) (pk_val : Z) (vf : field) (v : Z)
        (r0 : gmap string pyval).

(** The queryset is the unfiltered one of the table, the row of the key
    is [r0], and it carries version [v]. *)
Hypothesis Hconds : qs_conds base_qs = [].
Hypothesis Hrow : table_of (db w0) (qs_model base_qs) !! pk_val = Some r0.
Hypothesis Hver : r0 !! f_attname vf = Some (Some v).

Local Abbreviation presents' := (presents w0 base_qs pk_val vf v).
Local Abbreviation narrowed' := (narrowed base_qs vf v).
Local Abbreviation db_won' x := (db_won w0 base_qs pk_val vf x r0).
Local Abbreviation row_won' x := (row_won vf x r0).
Local Abbreviation prepared' x o := (prepared vf x o).
Local Abbreviation before_write' := (before_write base_qs pk_val vf v).
Local Abbreviation losing' := (losing base_qs pk_val vf).
Local Abbreviation inv' := (race_inv w0 base_qs pk_val vf v r0).
Local Abbreviation call' := (call base_qs pk_val).

Lemma selected_start w :
  db w = db w0 → selected (db w) narrowed' pk_val = Some r0.
Proof.
  intros ->. unfold selected, narrowed.
  change (qs_model (filter_ base_qs _)) with (qs_model base_qs).
  rewrite Hrow, qs_match_filter. unfold qs_match at 1. rewrite Hconds.
  cbn [forallb cond_holds andb]. by rewrite bool_decide_eq_true_2.
Qed.

Lemma version_won x o : presents' x o → row_won' x !! f_attname vf = Some (Some (v + 1)).
Proof.
  intros (_ & _ & _ & _ & _ & _ & Ha & He & Hi). by apply apply_values_version.
Qed.

Lemma table_won x :
  table_of (db_won' x) (qs_model base_qs) !! pk_val = Some (row_won' x).
Proof. unfold db_won, table_of. rewrite lookup_insert_eq. simpl. by rewrite lookup_insert_eq. Qed.

Lemma selected_won x o w :
  presents' x o → db w = db_won' x → selected (db w) narrowed' pk_val = None.
Proof.
  intros Hp ->. unfold selected, narrowed.
  change (qs_model (filter_ base_qs _)) with (qs_model base_qs).
  rewrite table_won, qs_match_filter. cbn [cond_holds].
  rewrite (version_won _ _ Hp). rewrite bool_decide_eq_false_2; [by rewrite andb_false_r|].
  intros E. simplify_eq. lia.
Qed.

Lemma row_exists_won x w :
  db w = db_won' x → row_exists w base_qs pk_val = true.
Proof.
  intros E. rewrite row_exists_selected. apply bool_decide_eq_true_2.
  unfold selected. rewrite E, table_won. unfold qs_match. rewrite Hconds. by eexists.
Qed.

Lemma values_nonempty x o : presents' x o → rewritten vf (a_values x) ≠ [].
Proof.
  intros (_ & _ & _ & _ & _ & _ & _ & He & _) E.
  apply (f_equal length) in E. unfold rewritten in E. rewrite length_map in E.
  destruct (a_values x); [by apply Exists_nil in He | done].
Qed.

Lemma version_field_model x o : presents' x o → f_model vf = qs_model base_qs.
Proof.
  intros (_ & Hf & _ & _ & Hm & _). apply find_some in Hf as [Hin _].
  rewrite Forall_forall in Hm. apply Hm. by apply list_elem_of_In.
Qed.

(** The first step of a save: the loop runs, nothing is sent. *)
Lemma call_step x o w :
  presents' x o →
  current_state w = current_state w0 → class_ol w = class_ol w0 →
  heap w !! a_self x = Some o →
  Steps.step (call' x) w =
    (set_heap <[a_self x := prepared' x o]> w,
     Steps.AtSuper (a_self x) base_qs true narrowed' (a_using x) pk_val
       (rewritten vf (a_values x))
       (match rewritten vf (a_values x) with [] => None | _ :: _ => a_update_fields x end)
       (a_forced x)).
Proof.
  intros Hp Hc Hl Ho. pose proof (version_field_model _ _ Hp) as Hm.
  destruct Hp as (Ho0 & Hf & Hd & _ & _ & Hact & Ha & _ & _).
  unfold call.
  rewrite (step_call_checked _ _ _ _ _ _ _ _ o vf (Some v) w Ho Hf Hd Hm Ha).
  do 2 f_equal. unfold conditioned, locking_applies.
  by rewrite (reports_active_frame _ _ o w0 w Hc Hl Ho0 Ho), Hact.
Qed.

(** The write of a save: it goes through when the row still carries
    version [v], and matches nothing otherwise. *)
Lemma super_step x w :
  Steps.step
    (Steps.AtSuper (a_self x) base_qs true narrowed' (a_using x) pk_val
       (rewritten vf (a_values x))
       (match rewritten vf (a_values x) with [] => None | _ :: _ => a_update_fields x end)
       (a_forced x)) w =
    (write_world narrowed' pk_val (rewritten vf (a_values x)) w,
     match selected (db w) narrowed' pk_val with
     | Some _ => Steps.Finished (Ret true)
     | None => Steps.AtExists (a_self x) base_qs pk_val
     end).
Proof.
  cbn [Steps.step]. rewrite super_do_update. unfold Steps.finish.
  by destruct (selected (db w) narrowed' pk_val).
Qed.

Lemma before_write_frame y oy w w' q :
  heap w' !! a_self y = heap w !! a_self y →
  before_write' y oy w q → before_write' y oy w' q.
Proof. intros E [[? ?]|[? ?]]; [left|right]; by rewrite E. Qed.

Lemma losing_frame y oy rw w w' q :
  heap w' !! a_self y = heap w !! a_self y →
  losing' y oy rw w q → losing' y oy rw w' q.
Proof.
  intros E [[? ?]|[[? ?]|[? H]]].
  - left. by rewrite E.
  - right. left. by rewrite E.
  - right. right. split; [done|]. intros f Hf Hl. unfold attr_of in *. rewrite E.
    by apply H.
Qed.

Lemma write_world_frame qs pk values' w :
  current_state (write_world qs pk values' w) = current_state w ∧
  class_ol (write_world qs pk values' w) = class_ol w ∧
  heap (write_world qs pk values' w) = heap w.
Proof. unfold write_world. by destruct values', (selected (db w) qs pk). Qed.

Lemma write_world_won x o w :
  presents' x o → db w = db w0 →
  db (write_world narrowed' pk_val (rewritten vf (a_values x)) w) = db_won' x.
Proof.
  intros Hp Hdb. pose proof (values_nonempty _ _ Hp) as Hne.
  unfold write_world, db_won, row_won. rewrite (selected_start w Hdb).
  destruct (rewritten vf (a_values x)) as [|e rest]; [done|].
  simpl. by rewrite Hdb.
Qed.

Lemma all_staged_v x o :
  presents' x o →
  Forall (λ e : staged, f_is_version e.1.1 = true → e.2 = Some v) (a_values x).
Proof.
  intros (_ & _ & _ & _ & _ & _ & Ha & _ & _).
  eapply Forall_impl; [exact Ha|]. intros [[f m] z] H Hv. simpl in *.
  specialize (H Hv). apply bool_decide_eq_true_1 in H. by symmetry.
Qed.

(** The refresh of the losing save reads the row the winner wrote. *)
Lemma conflict_step x ox y oy w :
  presents' x ox → presents' y oy →
  db w = db_won' y → heap w !! a_self x = Some (prepared' x ox) →
  ∃ w', Steps.step (Steps.AtConflict (a_self x)) w =
          (w', Steps.Finished (Raise (ConcurrentUpdate (a_self x)))) ∧
        db w' = db w ∧ current_state w' = current_state w ∧ class_ol w' = class_ol w ∧
        (∀ z, z ≠ a_self x → heap w' !! z = heap w !! z) ∧
        (∀ f, f ∈ inst_fields ox → is_Some (inst_dict ox !! f_attname f) →
              attr_of w' (a_self x) (f_attname f)
              = Some (default None (row_won' y !! f_attname f))).
Proof.
  intros Hx Hy Hdb Ho.
  destruct Hx as (_ & Hf & Hd & Hpk & Hm & _ & _ & Hex & _).
  assert (Hdbm : db w !! qs_model base_qs
                 = Some (<[pk_val := row_won' y]> (table_of (db w0) (qs_model base_qs)))).
  { rewrite Hdb. unfold db_won. by rewrite lookup_insert_eq. }
  destruct (refresh_fields_single_table (db w) pk_val _ _ (row_won' y) (inst_fields ox)
              Hdbm (lookup_insert_eq _ _ _) Hm (inst_dict (prepared' x ox)))
    as (dict' & E & Hg).
  exists (set_heap <[a_self x := set_inst_dict (λ _, dict') (prepared' x ox)]>
            (log (SSelect (map f_model (inst_fields ox)) pk_val) w)).
  split; [|split; [done|split; [done|split; [done|split]]]].
  - cbn [Steps.step]. unfold ConcurrentUpdate_init, refresh_from_db. munfold.
    rewrite Ho. cbn [prepared set_inst_dict inst_pk inst_fields inst_dict].
    rewrite Hpk. cbn [prepared set_inst_dict inst_dict] in E. by rewrite E.
  - intros z Hz. simpl. by rewrite lookup_insert_ne.
  - intros f Hin Hl. unfold attr_of. simpl. rewrite lookup_insert_eq. simpl.
    destruct (Hg (f_attname f)) as [_ Hg2]. apply Hg2.
    + simpl. by apply bumped_loaded.
    + apply list_elem_of_fmap. by exists f.
Qed.

Lemma race_inv_swap x y ox oy w p q :
  inv' x y ox oy w p q → inv' y x oy ox w q p.
Proof.
  intros (Hc & Hl & H). split; [done|]. split; [done|].
  destruct H as [(? & ? & ?)|[(? & ? & ?)|(? & ? & ?)]];
    [left | right; right | right; left]; done.
Qed.

(** The invariant survives a step of the first save. *)
Lemma race_step x y ox oy w p q :
  presents' x ox → presents' y oy → a_self x ≠ a_self y →
  inv' x y ox oy w p q →
  inv' x y ox oy (Steps.step p w).1 (Steps.step p w).2 q.
Proof.
  intros Hx Hy Hne (Hc & Hl & Hcases).
  assert (Hcall : heap w !! a_self x = Some ox →
            ∃ w', Steps.step (call' x) w =
                    (w', Steps.AtSuper (a_self x) base_qs true narrowed' (a_using x) pk_val
                           (rewritten vf (a_values x))
                           (match rewritten vf (a_values x) with
                            | [] => None | _ :: _ => a_update_fields x end)
                           (a_forced x)) ∧
                  db w' = db w ∧ current_state w' = current_state w ∧
                  class_ol w' = class_ol w ∧
                  heap w' !! a_self y = heap w !! a_self y ∧
                  heap w' !! a_self x = Some (prepared' x ox)).
  { intros Ho. eexists. split; [apply (call_step x ox w Hx Hc Hl Ho)|].
    split; [done|]. split; [done|]. split; [done|]. split; simpl.
    - by rewrite lookup_insert_ne.
    - by rewrite lookup_insert_eq. }
  destruct Hcases as [(Hdb & Hp & Hq) | [(Hdb & -> & Hq) | (Hdb & -> & Hp)]].
  - destruct Hp as [[-> Ho] | [-> Ho]].
    + destruct (Hcall Ho) as (w' & -> & Hdb' & Hc' & Hl' & Hy' & Hx'). cbn [fst snd].
      split; [congruence|]. split; [congruence|]. left.
      split; [congruence|]. split; [by right|].
      exact (before_write_frame y oy w w' q Hy' Hq).
    + rewrite super_step, (selected_start w Hdb). cbn [fst snd].
      destruct (write_world_frame narrowed' pk_val (rewritten vf (a_values x)) w)
        as (Hc' & Hl' & Hh').
      split; [congruence|]. split; [congruence|]. right. left.
      split; [by apply (write_world_won x ox)|]. split; [done|]. left.
      apply (before_write_frame y oy w _ q); [by rewrite Hh'|done].
  - cbn [Steps.step fst snd]. split; [done|]. split; [done|]. right. left. done.
  - destruct Hp as [[[-> Ho] | [-> Ho]] | [[-> Ho] | [[-> Ho] | [-> Ha]]]].
    + destruct (Hcall Ho) as (w' & -> & Hdb' & Hc' & Hl' & Hy' & Hx'). cbn [fst snd].
      split; [congruence|]. split; [congruence|]. right. right.
      split; [congruence|]. split; [done|]. left. by right.
    + rewrite super_step, (selected_won y oy w Hy Hdb). cbn [fst snd].
      rewrite write_world_missed by apply (selected_won y oy w Hy Hdb).
      split; [done|]. split; [done|]. right. right.
      split; [done|]. split; [done|]. right. left. done.
    + cbn [Steps.step]. rewrite exists_pk, (row_exists_won y w Hdb). cbn [Steps.finish fst snd].
      split; [done|]. split; [done|]. right. right.
      split; [done|]. split; [done|]. right. right. left. done.
    + destruct (conflict_step x ox y oy w Hx Hy Hdb Ho) as (w' & -> & Hdb' & Hc' & Hl' & Hh' & Ha).
      cbn [fst snd].
      split; [congruence|]. split; [congruence|]. right. right.
      split; [congruence|]. split; [done|]. right. right. right. done.
    + cbn [Steps.step fst snd]. split; [done|]. split; [done|]. right. right.
      split; [done|]. split; [done|]. right. right. right. done.
Qed.

(** The invariant survives every schedule. *)
Lemma race_interleave schedule x y ox oy c :
  presents' x ox → presents' y oy → a_self x ≠ a_self y →
  inv' x y ox oy (Steps.r_world c) (Steps.r_first c) (Steps.r_second c) →
  inv' x y ox oy (Steps.r_world (Steps.interleave schedule c))
    (Steps.r_first (Steps.interleave schedule c))
    (Steps.r_second (Steps.interleave schedule c)).
Proof.
  intros Hx Hy Hne. revert c. induction schedule as [|b rest IH]; intros c Hinv; [done|].
  unfold Steps.interleave in *. cbn [foldl]. apply IH.
  unfold Steps.turn. destruct b.
  - pose proof (race_step _ _ _ _ _ _ _ Hx Hy Hne Hinv) as H.
    by destruct (Steps.step (Steps.r_first c) (Steps.r_world c)).
  - apply race_inv_swap in Hinv.
    pose proof (race_step _ _ _ _ _ _ _ Hy Hx (not_eq_sym Hne) Hinv) as H.
    apply race_inv_swap in H.
    by destruct (Steps.step (Steps.r_second c) (Steps.r_world c)).
Qed.

End Race.

(** C4 (amended).  For every pair of saves of one record, made from two
    distinct objects in memory (each a record of one table, that of the
    unfiltered base queryset, with the key that is saved as its primary
    key), that starts at stored version [v] ([v] and [v + 1] within the
    range of the version column), with optimistic locking active, both
    presenting client version [v] and both staging the version (and no
    other version field) in their write lists: however their statements
    interleave, once both have run to their end one save has returned
    [True], the stored version is [v + 1], and the other save has raised
    [ConcurrentUpdate] carrying its record read back from the store: every
    loaded field of it holds the stored column, the version [v + 1].
    (Each statement is atomic; a save takes at most four steps.) *)
Theorem one_save_wins (w0 : world) (base_qs : queryset) (pk_val : Z) (vf : field) (v : Z)
    (x y : attempt) (ox oy : instance) (schedule : list bool) :
  qs_conds base_qs = [] →
  stored w0 (qs_model base_qs) pk_val (f_attname vf) = Some (Some v) →
  in_column v → in_column (v + 1) →
  presents w0 base_qs pk_val vf v x ox →
  presents w0 base_qs pk_val vf v y oy →
  a_self x ≠ a_self y →
  (4 ≤ turns true schedule)%nat →
  (4 ≤ turns false schedule)%nat →
  let final :=
    Steps.interleave schedule
      {| Steps.r_world := w0;
         Steps.r_first := call base_qs pk_val x;
         Steps.r_second := call base_qs pk_val y |} in
  let read_back := λ (z : attempt) (oz : instance),
    attr_of (Steps.r_world final) (a_self z) (f_attname vf) = Some (Some (v + 1)) ∧
    ∀ f, f ∈ inst_fields oz → is_Some (inst_dict oz !! f_attname f) →
         attr_of (Steps.r_world final) (a_self z) (f_attname f)
         = stored (Steps.r_world final) (qs_model base_qs) pk_val (f_attname f) in
  stored (Steps.r_world final) (qs_model base_qs) pk_val (f_attname vf) = Some (Some (v + 1)) ∧
  ((Steps.r_first final = Steps.Finished (Ret true) ∧
    Steps.r_second final = Steps.Finished (Raise (ConcurrentUpdate (a_self y))) ∧
    read_back y oy) ∨
   (Steps.r_second final = Steps.Finished (Ret true) ∧
    Steps.r_first final = Steps.Finished (Raise (ConcurrentUpdate (a_self x))) ∧
    read_back x ox)).
Proof.
  intros Hconds Hst _ _ Hx Hy Hne Ht Hf final read_back.
  assert (∃ r0, Model.table_of (db w0) (qs_model base_qs) !! pk_val = Some r0 ∧
                r0 !! f_attname vf = Some (Some v)) as (r0 & Hrow & Hver).
  { unfold stored, Model.table_of in *.
    destruct (db w0 !! qs_model base_qs) as [tbl|]; [|done]. simpl.
    destruct (tbl !! pk_val) as [r|]; [|done]. exists r. split; [done|].
    destruct (r !! f_attname vf) as [z|]; simpl in Hst; by simplify_eq. }
  set (c := {| Steps.r_world := w0; Steps.r_first := call base_qs pk_val x;
               Steps.r_second := call base_qs pk_val y |}) in *.
  assert (Hinit : race_inv w0 base_qs pk_val vf v r0 x y ox oy
                    (Steps.r_world c) (Steps.r_first c) (Steps.r_second c)).
  { split; [done|]. split; [done|]. left. split; [done|].
    split; left; (split; [done|]); [apply Hx | apply Hy]. }
  pose proof (race_interleave w0 base_qs pk_val vf v r0 Hconds Hrow Hver schedule
                x y ox oy c Hx Hy Hne Hinit) as Hinv.
  destruct (interleave_remaining schedule c) as [R1 R2]. simpl in R1, R2.
  destruct (remaining_finished (Steps.r_first (Steps.interleave schedule c)))
    as [ra Ea]; [lia|].
  destruct (remaining_finished (Steps.r_second (Steps.interleave schedule c)))
    as [rb Eb]; [lia|].
  fold final in Hinv, Ea, Eb. destruct Hinv as (_ & _ & Hcases).
  assert (Hnb : ∀ z oz w p r, p = Steps.Finished r →
                  ¬ before_write base_qs pk_val vf v z oz w p).
  { intros z oz w p r -> [[E _]|[E _]]; discriminate. }
  assert (Hlost : ∀ z oz rw w p r, p = Steps.Finished r →
            losing base_qs pk_val vf z oz rw w p →
            p = Steps.Finished (Raise (ConcurrentUpdate (a_self z))) ∧
            ∀ f, f ∈ inst_fields oz → is_Some (inst_dict oz !! f_attname f) →
                 attr_of w (a_self z) (f_attname f) = Some (default None (rw !! f_attname f))).
  { intros z oz rw w p r -> [[E _]|[[E _]|[E H]]]; [discriminate|discriminate|done]. }
  assert (Hstored : ∀ z w col,
            db w = db_won w0 base_qs pk_val vf z r0 →
            stored w (qs_model base_qs) pk_val col
            = Some (default None (row_won vf z r0 !! col))).
  { intros z w col Hdb. unfold stored. rewrite Hdb. unfold db_won.
    by rewrite lookup_insert_eq, lookup_insert_eq. }
  assert (Hback : ∀ win lose olose owin p,
            presents w0 base_qs pk_val vf v win owin →
            presents w0 base_qs pk_val vf v lose olose →
            db (Steps.r_world final) = db_won w0 base_qs pk_val vf win r0 →
            p = Steps.Finished (Raise (ConcurrentUpdate (a_self lose))) ∧
            (∀ f, f ∈ inst_fields olose → is_Some (inst_dict olose !! f_attname f) →
                  attr_of (Steps.r_world final) (a_self lose) (f_attname f)
                  = Some (default None (row_won vf win r0 !! f_attname f))) →
            p = Steps.Finished (Raise (ConcurrentUpdate (a_self lose))) ∧
            read_back lose olose).
  { intros win lose olose owin p Hwin Hlose Hdb [-> H]. split; [done|].
    pose proof (version_won w0 base_qs pk_val vf v r0 win owin Hwin) as Hvw.
    destruct Hlose as (_ & Hfind & Hd & _). split.
    - rewrite H; [by rewrite Hvw| |by eexists].
      apply list_elem_of_In. by apply find_some in Hfind as [? _].
    - intros f Hin Hl. rewrite (Hstored win _ _ Hdb). by apply H. }
  destruct Hcases as [(_ & Hp & _) | [(Hdb & Hp & Hq) | (Hdb & Hq & Hp)]].
  - by destruct (Hnb _ _ _ _ _ Ea Hp).
  - split.
    { rewrite (Hstored x _ _ Hdb).
      by rewrite (version_won w0 base_qs pk_val vf v r0 x ox Hx). }
    left. split; [done|].
    destruct Hq as [Hq|Hq]; [by destruct (Hnb _ _ _ _ _ Eb Hq)|].
    apply (Hback x y oy ox _ Hx Hy Hdb). by apply (Hlost _ _ _ _ _ _ Eb Hq).
  - split.
    { rewrite (Hstored y _ _ Hdb).
      by rewrite (version_won w0 base_qs pk_val vf v r0 y oy Hy). }
    right. split; [done|].
    destruct Hp as [Hp|Hp]; [by destruct (Hnb _ _ _ _ _ Ea Hp)|].
    apply (Hback y x ox oy _ Hy Hx Hdb). by apply (Hlost _ _ _ _ _ _ Ea Hp).
Qed.

Lemma one_save_wins_witness :
  let final :=
    Steps.interleave [true; false; false; true; false; true; false; true]
      {| Steps.r_world := two_readers;
         Steps.r_first := call doc_qs 1 first_save;
         Steps.r_second := call doc_qs 1 second_save |} in
  let read_back := λ (z : attempt) (oz : instance),
    attr_of (Steps.r_world final) (a_self z) "version" = Some (Some (3 + 1)) ∧
    ∀ f, f ∈ inst_fields oz → is_Some (inst_dict oz !! f_attname f) →
         attr_of (Steps.r_world final) (a_self z) (f_attname f)
         = stored (Steps.r_world final) "doc" 1 (f_attname f) in
  stored (Steps.r_world final) "doc" 1 "version" = Some (Some (3 + 1)) ∧
  ((Steps.r_first final = Steps.Finished (Ret true) ∧
    Steps.r_second final = Steps.Finished (Raise (ConcurrentUpdate 2)) ∧
    read_back second_save (doc (Some 3))) ∨
   (Steps.r_second final = Steps.Finished (Ret true) ∧
    Steps.r_first final = Steps.Finished (Raise (ConcurrentUpdate 1)) ∧
    read_back first_save (doc (Some 3)))).
Proof.
  assert (Hp : ∀ x, x = first_save ∨ x = second_save →
                    presents two_readers doc_qs 1 version_field 3 x (doc (Some 3))).
  { intros x [-> | ->].
    - split; [reflexivity|]. split; [reflexivity|]. split; [reflexivity|].
      split; [reflexivity|]. split.
      { repeat (apply Forall_cons; split; [reflexivity|]). apply Forall_nil_2. }
      split; [vm_compute; reflexivity|]. split.
      { repeat (apply Forall_cons; split; [by simpl|]). apply Forall_nil_2. }
      split; [apply Exists_cons_tl, Exists_cons_hd; reflexivity|].
      repeat (apply Forall_cons; split; [by simpl|]). apply Forall_nil_2.
    - split; [reflexivity|]. split; [reflexivity|]. split; [reflexivity|].
      split; [reflexivity|]. split.
      { repeat (apply Forall_cons; split; [reflexivity|]). apply Forall_nil_2. }
      split; [vm_compute; reflexivity|]. split.
      { repeat (apply Forall_cons; split; [by simpl|]). apply Forall_nil_2. }
      split; [apply Exists_cons_tl, Exists_cons_hd; reflexivity|].
      repeat (apply Forall_cons; split; [by simpl|]). apply Forall_nil_2. }
  refine (one_save_wins two_readers doc_qs 1 version_field 3 first_save second_save
            (doc (Some 3)) (doc (Some 3))
            [true; false; false; true; false; true; false; true]
            eq_refl _ _ _ (Hp _ (or_introl eq_refl)) (Hp _ (or_intror eq_refl)) _ _ _).
  - vm_compute. reflexivity.
  - unfold in_column, version_max. lia.
  - unfold in_column, version_max. lia.
  - vm_compute. discriminate.
  - vm_compute. lia.
  - vm_compute. lia.
Defined.

(** C4, as stated, fails for saves that leave the version out of their
    write lists ([update_fields] without the version): with the scope
    active and both records at client version 3, the first save and then
    the second both return [True]; both UPDATEs carried the version
    predicate, and the stored version is still 3. *)
Lemma both_saves_succeed_without_version_entry :
  let save (tid self : nat) (title : Z) :=
    VersionedMixin._do_update tid self doc_qs "default" 1 [(title_field, None, Some title)]
      (Some ["title"]) false in
  let c := let! a := save 0%nat 1%nat 11 in let! b := save 1%nat 2%nat 12 in ret (a, b) in
  reports_active 0 (Some (OInst 1)) two_readers = true ∧
  reports_active 1 (Some (OInst 2)) two_readers = true ∧
  attr_of two_readers 1 "version" = Some (Some 3) ∧
  attr_of two_readers 2 "version" = Some (Some 3) ∧
  stored two_readers "doc" 1 "version" = Some (Some 3) ∧
  outcome c two_readers = Ret (true, true) ∧
  issued two_readers (after c two_readers) =
    [SUpdate (Model.filter_ (Model.filter_ doc_qs (CEq "version" 3)) (CPk 1))
       [(title_field, None, WLit (Some 11))];
     SUpdate (Model.filter_ (Model.filter_ doc_qs (CEq "version" 3)) (CPk 1))
       [(title_field, None, WLit (Some 12))]] ∧
  stored (after c two_readers) "doc" 1 "version" = Some (Some 3).
Proof. vm_compute. repeat split. Qed.

(** ** More on the scope controller *)

Section ScopeMore.

Import optimisticLocking.

Lemma exit_untouched tid model w :
  untouched tid model w →
  ∃ w', __exit__ tid model w = (w', Ret tt) ∧ counted tid model 0 w'.
Proof.
  intros [Ht Hm]. destruct model as [[oid|c bases]|]; simpl in *.
  - destruct Hm as (o & Ho & Hol & Hmro).
    eexists. unfold __exit__, getattr_ol, setattr_ol, state_obj. munfold.
    rewrite Ho, Hol. simpl. rewrite Ho, Hmro. simpl. split; [reflexivity|].
    split; simpl; [by rewrite lookup_insert_eq | done].
  - eexists. unfold __exit__, getattr_ol, setattr_ol, state_obj. munfold.
    cbn [mro_lookup]. rewrite Hm. simpl.
    split; [reflexivity|]. split; simpl; [by rewrite lookup_insert_eq | done].
  - eexists. unfold __exit__, getattr_ol, setattr_ol, state_obj. munfold.
    rewrite Ht. simpl.
    split; [reflexivity|]. split; simpl; [by rewrite lookup_insert_eq | done].
Qed.

(** The query reads the counter of the asking thread, the store and the
    class counters, and nothing else. *)
Lemma active_reads tid model w w' :
  current_state w' !! tid = current_state w !! tid →
  heap w' = heap w → class_ol w' = class_ol w →
  outcome (active tid model) w' = outcome (active tid model) w.
Proof.
  intros Hc Hh Hl. unfold outcome, active. munfold.
  change (getattr_ol tid StThread 0 w') with (w', Ret (default 0 (current_state w' !! tid))).
  change (getattr_ol tid StThread 0 w) with (w, Ret (default 0 (current_state w !! tid))).
  rewrite Hc. destruct (truthy (Some (default 0 (current_state w !! tid)))); [reflexivity|].
  destruct model as [[oid|c bases]|]; [| |reflexivity].
  - unfold getattr_ol. munfold. rewrite Hh.
    destruct (heap w !! oid) as [o|]; [|reflexivity].
    destruct (inst_ol o); [reflexivity|]. by rewrite Hl.
  - unfold getattr_ol. cbn [snd]. by rewrite Hl.
Qed.

End ScopeMore.

(** X1.  Leaving a scope that was never entered raises nothing and puts
    the owner's counter at 0, not below: the scope reports inactive, and
    one enter afterwards makes it active. *)
Theorem exit_before_enter (tid : nat) (model : option owner) (w : world) :
  untouched tid model w →
  ∃ w1 w2,
    optimisticLocking.__exit__ tid model w = (w1, Ret tt) ∧
    own_counter tid model w1 = Some 0 ∧
    reports_active tid model w1 = false ∧
    optimisticLocking.__enter__ tid model w1 = (w2, Ret tt) ∧
    own_counter tid model w2 = Some 1 ∧
    reports_active tid model w2 = true.
Proof.
  intros Hu. destruct (exit_untouched _ _ _ Hu) as (w1 & E1 & H1).
  destruct (enter_counted _ _ _ _ H1) as (w2 & E2 & H2).
  exists w1, w2. split; [exact E1|]. split; [apply H1|].
  split; [by rewrite (active_counted _ _ _ _ H1)|]. split; [exact E2|].
  split; [apply H2|]. by rewrite (active_counted _ _ _ _ H2).
Qed.

Lemma exit_before_enter_witness :
  ∃ w1 w2,
    optimisticLocking.__exit__ 0 (Some (OClass "Doc" [])) world0 = (w1, Ret tt) ∧
    own_counter 0 (Some (OClass "Doc" [])) w1 = Some 0 ∧
    reports_active 0 (Some (OClass "Doc" [])) w1 = false ∧
    optimisticLocking.__enter__ 0 (Some (OClass "Doc" [])) w1 = (w2, Ret tt) ∧
    own_counter 0 (Some (OClass "Doc" [])) w2 = Some 1 ∧
    reports_active 0 (Some (OClass "Doc" [])) w2 = true.
Proof.
  apply (exit_before_enter 0 (Some (OClass "Doc" [])) world0).
  split; reflexivity.
Defined.

(** X2.  The ambient scope belongs to the thread that entered it: entering
    or leaving it in one thread changes the answer of the query in no
    other thread, whatever owner is asked about. *)
Theorem ambient_scope_is_per_thread (tid other : nat) (model : option owner) (w : world) :
  tid ≠ other →
  outcome (optimisticLocking.active other model)
    (after (optimisticLocking.__enter__ tid None) w)
  = outcome (optimisticLocking.active other model) w ∧
  outcome (optimisticLocking.active other model)
    (after (optimisticLocking.__exit__ tid None) w)
  = outcome (optimisticLocking.active other model) w.
Proof.
  intros Hne. split; apply active_reads; try reflexivity;
    unfold after; simpl; by rewrite lookup_insert_ne.
Qed.

Lemma ambient_scope_is_per_thread_witness :
  outcome (optimisticLocking.active 1 (Some (OInst 1)))
    (after (optimisticLocking.__enter__ 0 None) (library ∅ (doc (Some 3)) false))
  = outcome (optimisticLocking.active 1 (Some (OInst 1))) (library ∅ (doc (Some 3)) false).
Proof.
  refine (proj1 (ambient_scope_is_per_thread 0 1 (Some (OInst 1))
                   (library ∅ (doc (Some 3)) false) _)).
  lia.
Defined.

(** X3.  A scope entered on a model class is seen from every thread and
    through every record of the class that has no counter of its own. *)
Theorem class_scope_is_shared (tid other oid : nat) (c : string) (bases : list string)
    (o : instance) (w : world) :
  untouched tid (Some (OClass c bases)) w →
  heap w !! oid = Some o →
  inst_ol o = None →
  inst_mro o = c :: bases →
  reports_active other (Some (OInst oid))
    (after (optimisticLocking.__enter__ tid (Some (OClass c bases))) w) = true.
Proof.
  intros Hu Ho Hol Hmro.
  destruct (enter_untouched _ _ _ Hu) as (w1 & E1 & [Hc _]).
  unfold after. rewrite E1. cbn [fst].
  assert (Ho1 : heap w1 !! oid = Some o).
  { unfold optimisticLocking.__enter__, optimisticLocking.getattr_ol,
      optimisticLocking.setattr_ol, optimisticLocking.state_obj in E1.
    cbv beta iota zeta delta [bind] in E1. by simplify_eq. }
  rewrite (reports_active_instance _ _ _ _ Ho1), Hol, Hmro.
  simpl in Hc. cbn [optimisticLocking.mro_lookup]. rewrite Hc. cbn [truthy Z.eqb negb].
  by rewrite orb_true_r.
Qed.

Lemma class_scope_is_shared_witness :
  reports_active 7 (Some (OInst 1))
    (after (optimisticLocking.__enter__ 0 (Some (OClass "Doc" [])))
       (library ∅ (doc (Some 3)) false)) = true.
Proof.
  apply (class_scope_is_shared 0 7 1 "Doc" [] (doc (Some 3))
           (library ∅ (doc (Some 3)) false)).
  - split; reflexivity.
  - reflexivity.
  - reflexivity.
  - reflexivity.
Defined.

(** X4.  A scope entered on a record that has no counter of its own
    starts from the counter of its class: entering while the class counter
    is [c] gives the record the counter [c + 1], and leaving gives it [c],
    kept by the record from then on.  With [c] nonzero the record reports
    active in every later world that holds it unchanged, the class scope
    left or not. *)
Theorem record_scope_starts_from_class (tid oid : nat) (o : instance) (c : Z) (w : world) :
  heap w !! oid = Some o →
  inst_ol o = None →
  optimisticLocking.mro_lookup (class_ol w) (inst_mro o) = Some c →
  ∃ w1 w2,
    optimisticLocking.__enter__ tid (Some (OInst oid)) w = (w1, Ret tt) ∧
    own_counter tid (Some (OInst oid)) w1 = Some (c + 1) ∧
    optimisticLocking.__exit__ tid (Some (OInst oid)) w1 = (w2, Ret tt) ∧
    own_counter tid (Some (OInst oid)) w2 = Some c ∧
    (c ≠ 0 → ∀ other w3, heap w3 !! oid = heap w2 !! oid →
                         reports_active other (Some (OInst oid)) w3 = true).
Proof.
  intros Ho Hol Hmro.
  set (w1 := set_heap <[oid := set_inst_ol (c + 1) o]> w).
  set (w2 := set_heap <[oid := set_inst_ol (c + 1 - 1) (set_inst_ol (c + 1) o)]> w1).
  assert (Ho1 : heap w1 !! oid = Some (set_inst_ol (c + 1) o)).
  { unfold w1. simpl. by rewrite lookup_insert_eq. }
  exists w1, w2. split; [|split; [|split; [|split]]].
  - unfold optimisticLocking.__enter__, optimisticLocking.getattr_ol,
      optimisticLocking.setattr_ol, optimisticLocking.state_obj. munfold.
    rewrite Ho, Hol. cbn [fst snd]. rewrite Ho, Hmro. reflexivity.
  - simpl. by rewrite lookup_insert_eq.
  - unfold optimisticLocking.__exit__, optimisticLocking.getattr_ol,
      optimisticLocking.setattr_ol, optimisticLocking.state_obj. munfold.
    rewrite Ho1. cbn [inst_ol set_inst_ol]. by rewrite Ho1.
  - unfold w2. simpl. rewrite lookup_insert_eq. simpl. f_equal. lia.
  - intros Hc other w3 Hh. unfold w2 in Hh. simpl in Hh. rewrite lookup_insert_eq in Hh.
    rewrite (reports_active_instance _ _ _ _ Hh). cbn [inst_ol set_inst_ol truthy].
    replace (c + 1 - 1) with c by lia.
    destruct (Z.eqb_spec c 0); [done|]. by rewrite orb_true_r.
Qed.

Lemma record_scope_starts_from_class_witness :
  let w := after (optimisticLocking.__enter__ 0 (Some (OClass "Doc" [])))
             (library ∅ (doc (Some 3)) false) in
  ∃ w1 w2,
    optimisticLocking.__enter__ 0 (Some (OInst 1)) w = (w1, Ret tt) ∧
    own_counter 0 (Some (OInst 1)) w1 = Some (1 + 1) ∧
    optimisticLocking.__exit__ 0 (Some (OInst 1)) w1 = (w2, Ret tt) ∧
    own_counter 0 (Some (OInst 1)) w2 = Some 1 ∧
    (1 ≠ 0 → ∀ other w3, heap w3 !! 1%nat = heap w2 !! 1%nat →
                         reports_active other (Some (OInst 1)) w3 = true).
Proof.
  apply (record_scope_starts_from_class 0 1 (doc (Some 3)) 1
           (after (optimisticLocking.__enter__ 0 (Some (OClass "Doc" [])))
              (library ∅ (doc (Some 3)) false))).
  - reflexivity.
  - reflexivity.
  - reflexivity.
Defined.

Section Bracket.

Import optimisticLocking.

(** The lookup at entry, on an owner that is there. *)
Lemma getattr_found tid model w :
  (∀ oid, model = Some (OInst oid) → is_Some (heap w !! oid)) →
  getattr_ol tid (state_obj model) 0 w = (w, Ret (found_counter tid model w)).
Proof.
  intros Hlive. unfold found_counter, own_counter.
  destruct model as [[oid|c bases]|]; cbn [state_obj getattr_ol].
  - destruct (Hlive oid eq_refl) as [o Ho]. munfold. rewrite Ho.
    by destruct (inst_ol o).
  - cbn [mro_lookup]. by destruct (class_ol w !! c).
  - by destruct (current_state w !! tid).
Qed.

Lemma own_counter_live tid model v w :
  own_counter tid model w = Some v →
  ∀ oid, model = Some (OInst oid) → is_Some (heap w !! oid).
Proof.
  intros H oid ->. simpl in H. destruct (heap w !! oid); [by eexists | done].
Qed.

Lemma getattr_own tid model v d w :
  own_counter tid model w = Some v →
  getattr_ol tid (state_obj model) d w = (w, Ret v).
Proof.
  intros Hc. destruct model as [[oid|cl bases]|]; simpl in *.
  - unfold bind, get_obj. destruct (heap w !! oid) as [o|]; [|done].
    rewrite Hc. reflexivity.
  - by rewrite Hc.
  - by rewrite Hc.
Qed.

Lemma setattr_own tid model u w :
  (∀ oid, model = Some (OInst oid) → is_Some (heap w !! oid)) →
  ∃ w', setattr_ol tid (state_obj model) u w = (w', Ret tt) ∧
        own_counter tid model w' = Some u.
Proof.
  intros Hlive. destruct model as [[oid|cl bases]|]; simpl in *.
  - destruct (Hlive oid eq_refl) as [o Ho]. unfold bind, get_obj, put_obj. rewrite Ho.
    eexists. split; [reflexivity|]. simpl. by rewrite lookup_insert_eq.
  - eexists. split; [reflexivity|]. simpl. by rewrite lookup_insert_eq.
  - eexists. split; [reflexivity|]. simpl. by rewrite lookup_insert_eq.
Qed.

End Bracket.

(** X5.  The decorator brackets the call.  Whatever the counters are
    when the wrapper is called (the owner, if it is a record, being an
    object of the store): [func] runs with the owner's own counter one
    above the value the lookup of [__enter__] found (the owner's own
    counter, else the one inherited from its classes, else 0); the
    wrapper gives back the result or the exception of [func]; and
    afterwards the owner's own counter is the value found, on an
    exception too ([func] itself leaving the owner's counter alone).  So
    an owner that had a counter of its own has it back, and an owner that
    had none is left with one: at 0, or at the value of its class. *)
Theorem decorator_brackets {A : Type} (tid : nat) (model : option owner) (func : M A)
    (w : world) :
  (∀ oid, model = Some (OInst oid) → is_Some (heap w !! oid)) →
  (∀ c' w', own_counter tid model w' = Some c' →
            own_counter tid model (after func w') = Some c') →
  let found := found_counter tid model w in
  (∃ w1,
    optimisticLocking.__enter__ tid model w = (w1, Ret tt) ∧
    own_counter tid model w1 = Some (found + 1) ∧
    outcome (optimisticLocking.__call__ tid model func) w = outcome func w1) ∧
  own_counter tid model (after (optimisticLocking.__call__ tid model func) w) = Some found ∧
  (∀ c, own_counter tid model w = Some c → found = c) ∧
  (untouched tid model w → found = 0).
Proof.
  intros Hlive Hfunc found.
  destruct (setattr_own tid model (found + 1) w Hlive) as (w1 & Eset & H1).
  assert (E1 : optimisticLocking.__enter__ tid model w = (w1, Ret tt)).
  { unfold optimisticLocking.__enter__, bind. cbn zeta.
    by rewrite (getattr_found tid model w Hlive). }
  pose proof (Hfunc _ _ H1) as H2. unfold after in H2.
  destruct (setattr_own tid model (found + 1 - 1) (func w1).1
              (own_counter_live _ _ _ _ H2)) as (w3 & Eset3 & H3).
  assert (E3 : optimisticLocking.__exit__ tid model (func w1).1 = (w3, Ret tt)).
  { unfold optimisticLocking.__exit__, bind. cbn zeta.
    by rewrite (getattr_own _ _ _ 1 _ H2). }
  replace (found + 1 - 1) with found in H3 by lia.
  assert (Ecall : optimisticLocking.__call__ tid model func w =
                  match func w1 with
                  | (w', r) =>
                      match optimisticLocking.__exit__ tid model w' with
                      | (w'', Ret _) => (w'', r)
                      | (w'', Raise e) => (w'', Raise e)
                      end
                  end).
  { unfold optimisticLocking.__call__, bind. by rewrite E1. }
  split; [|split; [|split]].
  - exists w1. split; [exact E1|]. split; [exact H1|].
    unfold outcome. rewrite Ecall.
    destruct (func w1) as [w2 r]. cbn [fst] in E3. by rewrite E3.
  - unfold after. rewrite Ecall.
    destruct (func w1) as [w2 r]. cbn [fst] in E3. rewrite E3. exact H3.
  - intros c Hc. unfold found, found_counter. by rewrite Hc.
  - intros [Ht Hm]. unfold found, found_counter, own_counter.
    destruct model as [[oid|c bases]|].
    + destruct Hm as (o & Ho & Hol & Hmro). by rewrite Ho, Hol, Hmro.
    + cbn [optimisticLocking.mro_lookup] in Hm.
      destruct (class_ol w !! c) eqn:Ec; [done|].
      cbn [optimisticLocking.mro_lookup]. rewrite Ec. by rewrite Hm.
    + by rewrite Ht.
Qed.

Lemma decorator_brackets_witness :
  let w := library ∅ (doc (Some 3)) false in
  let call := optimisticLocking.__call__ 0 (Some (OInst 1)) (raise (A := bool) RuntimeError) in
  own_counter 0 (Some (OInst 1)) w = None ∧
  outcome call w = Raise RuntimeError ∧
  own_counter 0 (Some (OInst 1)) (after call w) = Some 0.
Proof.
  split; [reflexivity|].
  assert (Hlive : ∀ oid, Some (OInst 1) = Some (OInst oid) →
                         is_Some (heap (library ∅ (doc (Some 3)) false) !! oid)).
  { intros oid [= <-]. by eexists. }
  destruct (decorator_brackets 0 (Some (OInst 1)) (raise (A := bool) RuntimeError)
              (library ∅ (doc (Some 3)) false) Hlive (λ c' w' Hc, Hc))
    as ((w1 & _ & _ & Hout) & Hown & _).
  split; [exact Hout | exact Hown].
Defined.

(** ** Every save, whatever its arguments *)

Section EverySave.

Import Model VersionedMixin.

Lemma set_inst_dict_const o : set_inst_dict (λ _, inst_dict o) o = o.
Proof. by destruct o. Qed.

(** The loop changes the field attributes of [self], and nothing else. *)
Lemma increment_versions_heap self vf cv values o w :
  heap w !! self = Some o →
  ∃ dict r, increment_versions self vf cv values w =
              (set_heap <[self := set_inst_dict (λ _, dict) o]> w, r).
Proof.
  revert o w. induction values as [|[[f m] v] rest IH]; intros o w Ho.
  - exists (inst_dict o), (Ret []). simpl. unfold ret. f_equal.
    rewrite set_inst_dict_const. symmetry. by apply set_heap_same.
  - assert (Hsame : ∃ dict r, (let! rest' := increment_versions self vf cv rest in
                               ret ((f, m, WLit v) :: rest')) w
                              = (set_heap <[self := set_inst_dict (λ _, dict) o]> w, r)
                    ∧ True).
    { destruct (IH _ _ Ho) as (dict & r & E). unfold bind. rewrite E.
      destruct r; by eexists _, _. }
    cbn [increment_versions]. unfold bind at 1.
    destruct (f_is_version f).
    + destruct (assert_consistent cv v).
      * destruct v as [z|].
        -- unfold bind at 1. rewrite (setattr_live _ _ _ _ _ Ho).
           unfold ret at 1. unfold bind at 1.
           destruct (IH (set_inst_dict <[f_attname vf := Some (z + 1)]> o)
                        (set_heap <[self := set_inst_dict
                              <[f_attname vf := Some (z + 1)]> o]> w))
             as (dict & r & E); [by simpl; rewrite lookup_insert_eq|].
           rewrite E. exists dict.
           assert (Hw : set_heap <[self := set_inst_dict (λ _, dict)
                            (set_inst_dict <[f_attname vf := Some (z + 1)]> o)]>
                          (set_heap <[self := set_inst_dict
                              <[f_attname vf := Some (z + 1)]> o]> w)
                        = set_heap <[self := set_inst_dict (λ _, dict) o]> w).
           { unfold set_heap. simpl. by rewrite insert_insert_eq. }
           rewrite Hw. destruct r; by eexists.
        -- unfold ret at 1. unfold bind at 1.
           destruct (IH _ _ Ho) as (dict & r & E). rewrite E.
           exists dict. destruct r; by eexists.
      * exists (inst_dict o), (Raise AssertionError). unfold raise. f_equal.
        rewrite set_inst_dict_const. symmetry. by apply set_heap_same.
    + unfold ret at 1. unfold bind at 1.
      destruct (IH _ _ Ho) as (dict & r & E). rewrite E.
      exists dict. destruct r; by eexists.
Qed.

Lemma do_update_assertion_world tid self base_qs using_ pk_val values update_fields
    forced_update o vf cv w :
  heap w !! self = Some o →
  List.find f_is_version (inst_fields o) = Some vf →
  inst_dict o !! f_attname vf = Some cv →
  f_model vf = qs_model base_qs →
  ¬ asserts_pass cv values →
  ∃ dict, _do_update tid self base_qs using_ pk_val values update_fields forced_update w =
            (set_heap <[self := set_inst_dict (λ _, dict) o]> w, Raise AssertionError).
Proof.
  intros Ho Hf Hd Hm Hp. unfold _do_update. unfold bind at 1.
  rewrite (get_version_field_found _ _ _ _ Ho Hf).
  apply String.eqb_eq in Hm. rewrite Hm. cbn [negb]. unfold bind at 1.
  destruct (version_in_deferred _ _ _ w Ho Hf) as (deferred & -> & ->).
  rewrite bool_decide_eq_false_2 by (by rewrite Hd).
  unfold bind at 1. rewrite (value_from_object_loaded _ _ _ _ _ Ho Hd).
  unfold bind at 1. rewrite (version_qs_conditioned _ _ _ _ _ _ _ Ho).
  unfold bind at 1.
  destruct (increment_versions_heap self vf cv values o w Ho) as (dict & r & E).
  destruct (increment_versions_fail _ vf _ _ _ _ Ho Hp) as (w' & E' & _).
  rewrite E in E'. injection E' as _ ->. rewrite E. by exists dict.
Qed.

(** The ways a save can go. *)
Lemma do_update_cases tid self base_qs using_ pk_val values update_fields forced_update w :
  let c := _do_update tid self base_qs using_ pk_val values update_fields forced_update in
  (heap w !! self = None ∧ c w = (w, Raise ReferenceError)) ∨
  ∃ o, heap w !! self = Some o ∧
    ((List.find f_is_version (inst_fields o) = None ∧
      c w = (w, Raise ImproperlyConfigured)) ∨
     ∃ vf, List.find f_is_version (inst_fields o) = Some vf ∧
       ((f_model vf ≠ qs_model base_qs ∧
         c w = Model._do_update base_qs using_ pk_val (literal values) update_fields
                 forced_update w) ∨
        (f_model vf = qs_model base_qs ∧
         ((inst_dict o !! f_attname vf = None ∧ c w = (w, Raise RuntimeError)) ∨
          ∃ cv, inst_dict o !! f_attname vf = Some cv ∧
            ((¬ asserts_pass cv values ∧
              ∃ dict, c w = (set_heap <[self := set_inst_dict (λ _, dict) o]> w,
                             Raise AssertionError)) ∨
             (asserts_pass cv values ∧
              c w = conflict_check self base_qs pk_val
                      (bool_decide (is_Some (selected (db w)
                                      (conditioned tid self vf cv base_qs w) pk_val)))
                      (write_world (conditioned tid self vf cv base_qs w) pk_val
                         (rewritten vf values)
                         (set_heap <[self := set_inst_dict (bumped vf values) o]> w)))))))).
Proof.
  intros c. unfold c. destruct (heap w !! self) as [o|] eqn:Ho.
  - right. exists o. split; [done|].
    destruct (List.find f_is_version (inst_fields o)) as [vf|] eqn:Hf.
    + right. exists vf. split; [done|].
      destruct (decide (f_model vf = qs_model base_qs)) as [Hm|Hm].
      * right. split; [done|].
        destruct (inst_dict o !! f_attname vf) as [cv|] eqn:Hd.
        -- right. exists cv. split; [done|].
           assert (Hdec : Decision (asserts_pass cv values))
             by (unfold asserts_pass; apply _).
           destruct Hdec as [Hp|Hp].
           ++ right. split; [done|]. by apply do_update_checked.
           ++ left. split; [done|]. by apply do_update_assertion_world with vf cv.
        -- left. split; [done|]. apply do_update_deferred with vf; [|done]. by exists o.
      * left. split; [done|]. by apply do_update_delegated with o vf.
    + left. split; [done|]. unfold _do_update, get_version_field. munfold.
      by rewrite Ho, Hf.
  - left. split; [done|]. unfold _do_update, get_version_field. munfold. by rewrite Ho.
Qed.

(** The ways the conflict check can go when nothing was updated. *)
Lemma conflict_check_cases self base_qs pk_val w :
  let sent := log (SExists (filter_ base_qs (CPk pk_val))) w in
  let cc := conflict_check self base_qs pk_val false w in
  (row_exists w base_qs pk_val = false ∧ cc = (sent, Ret false)) ∨
  (row_exists w base_qs pk_val = true ∧
   ((heap w !! self = None ∧ cc = (sent, Raise ReferenceError)) ∨
    ∃ o, heap w !! self = Some o ∧
      let read := log (SSelect (map f_model (inst_fields o)) (inst_pk o)) sent in
      ((refresh_fields (db w) (inst_pk o) (inst_fields o) (inst_dict o) = None ∧
        cc = (read, Raise DoesNotExist)) ∨
       ∃ dict, refresh_fields (db w) (inst_pk o) (inst_fields o) (inst_dict o) = Some dict ∧
               cc = (set_heap <[self := set_inst_dict (λ _, dict) o]> read,
                     Raise (ConcurrentUpdate self))))).
Proof.
  intros sent cc. unfold cc, sent. destruct (row_exists w base_qs pk_val) eqn:He.
  - right. split; [done|]. rewrite conflict_check_found by done.
    unfold refresh_from_db. munfold. cbn [heap log].
    destruct (heap w !! self) as [o|]; [|by left].
    right. exists o. split; [done|]. cbn [db log].
    destruct (refresh_fields (db w) (inst_pk o) (inst_fields o) (inst_dict o)) as [dict|].
    + right. by exists dict.
    + by left.
  - left. split; [done|]. by apply conflict_check_gone.
Qed.

(** [Model._do_update]: it returns, sends at most one statement, and
    touches no other row and nothing outside the tables. *)
Lemma model_do_update_effects base_qs using_ pk_val values update_fields forced_update w :
  ∃ w' updated stmts,
    Model._do_update base_qs using_ pk_val values update_fields forced_update w
      = (w', Ret updated) ∧
    queries w' = stmts ++ queries w ∧ (length stmts ≤ 1)%nat ∧
    heap w' = heap w ∧ current_state w' = current_state w ∧ class_ol w' = class_ol w ∧
    (∀ m' pk', m' ≠ qs_model base_qs ∨ pk' ≠ pk_val →
               table_of (db w') m' !! pk' = table_of (db w) m' !! pk').
Proof.
  unfold Model._do_update. destruct values as [|e rest].
  - destruct update_fields.
    + exists w, true, []. repeat split; simpl; lia.
    + rewrite exists_pk. eexists _, _, [_]. repeat split; simpl; lia.
  - munfold. rewrite update_pk. eexists _, _, [_]. split; [reflexivity|].
    destruct (selected (db w) base_qs pk_val) as [r|]; repeat split; simpl; try lia.
    intros m' pk' Hne. unfold table_of.
    destruct (decide (m' = qs_model base_qs)) as [->|Hm].
    + rewrite lookup_insert_eq. simpl. destruct Hne as [?|Hpk]; [done|].
      by rewrite lookup_insert_ne.
    + by rewrite lookup_insert_ne.
Qed.

Lemma write_world_rows qs pk_val values' w m' pk' :
  m' ≠ qs_model qs ∨ pk' ≠ pk_val →
  table_of (db (write_world qs pk_val values' w)) m' !! pk' = table_of (db w) m' !! pk'.
Proof.
  intros Hne. unfold write_world.
  destruct values' as [|e rest]; [done|].
  destruct (selected (db w) qs pk_val) as [r|]; [|done]. simpl. unfold table_of.
  destruct (decide (m' = qs_model qs)) as [->|Hm].
  - rewrite lookup_insert_eq. simpl. destruct Hne as [?|Hpk]; [done|].
    by rewrite lookup_insert_ne.
  - by rewrite lookup_insert_ne.
Qed.

Lemma conditioned_model tid self vf cv base_qs w :
  qs_model (conditioned tid self vf cv base_qs w) = qs_model base_qs.
Proof.
  unfold conditioned. destruct cv; [|done]. by destruct (locking_applies _ _ _ _).
Qed.

Lemma footprint_refl self model pk w : footprint self model pk w w.
Proof.
  repeat split; try done. intros o Ho. exists (inst_dict o).
  by rewrite set_inst_dict_const.
Qed.

Lemma footprint_trans self model pk w w1 w2 :
  footprint self model pk w w1 → footprint self model pk w1 w2 →
  footprint self model pk w w2.
Proof.
  intros (Hc & Hl & Ho & Hn & Hs & Hr) (Hc' & Hl' & Ho' & Hn' & Hs' & Hr').
  split; [congruence|]. split; [congruence|]. split; [|split; [|split]].
  - intros oid Hne. rewrite Ho' by done. by apply Ho.
  - intros H. by apply Hn', Hn.
  - intros o H. destruct (Hs o H) as [d1 H1]. destruct (Hs' _ H1) as [d2 H2].
    exists d2. by rewrite H2.
  - intros m' pk' Hne. rewrite Hr' by done. by apply Hr.
Qed.

Lemma footprint_log self model pk s w : footprint self model pk w (log s w).
Proof.
  repeat split; try done. intros o Ho. exists (inst_dict o). simpl.
  by rewrite set_inst_dict_const.
Qed.

Lemma footprint_set_self self model pk o (f : gmap string pyval → gmap string pyval) w :
  heap w !! self = Some o →
  footprint self model pk w (set_heap <[self := set_inst_dict f o]> w).
Proof.
  intros Ho. repeat split; simpl; try done.
  - intros oid Hne. by rewrite lookup_insert_ne.
  - intros Hn. congruence.
  - intros o' Ho'. simplify_eq. rewrite lookup_insert_eq. by eexists.
Qed.

Lemma footprint_write_world self qs pk values' w :
  footprint self (qs_model qs) pk w (write_world qs pk values' w).
Proof.
  destruct (write_world_frame qs pk values' w) as (Hc & Hl & Hh).
  repeat split; try done.
  - intros oid _. by rewrite Hh.
  - intros Hn. by rewrite Hh.
  - intros o Ho. rewrite Hh, Ho. exists (inst_dict o). by rewrite set_inst_dict_const.
  - intros m' pk' Hne. by apply write_world_rows.
Qed.

Lemma footprint_conflict_check self model pk base_qs pk_val updated w :
  footprint self model pk w (conflict_check self base_qs pk_val updated w).1.
Proof.
  destruct updated; [apply footprint_refl|].
  destruct (conflict_check_cases self base_qs pk_val w)
    as [[_ ->] | [_ [[_ ->] | (o & Ho & [[_ ->] | (dict & _ & ->)])]]]; cbn [fst].
  - apply footprint_log.
  - apply footprint_log.
  - eapply footprint_trans; apply footprint_log.
  - eapply footprint_trans; [apply footprint_log|].
    eapply footprint_trans; [apply footprint_log|].
    by apply footprint_set_self.
Qed.

(** The footprint of a save. *)
Lemma do_update_footprint tid self base_qs using_ pk_val values update_fields
    forced_update w :
  footprint self (qs_model base_qs) pk_val w
    (after (_do_update tid self base_qs using_ pk_val values update_fields
              forced_update) w).
Proof.
  unfold after.
  destruct (do_update_cases tid self base_qs using_ pk_val values update_fields
              forced_update w)
    as [[_ ->] | (o & Ho & [[_ ->] | (vf & Hf & [[_ ->] | (Hm & [[_ ->] |
         (cv & Hd & [[_ (dict & ->)] | [Hp ->]])])])])]; try apply footprint_refl.
  - destruct (model_do_update_effects base_qs using_ pk_val (literal values)
                update_fields forced_update w)
      as (w' & b & stmts & -> & _ & _ & Hh & Hc & Hl & Hrows).
    cbn [fst]. repeat split; try done.
    + intros oid _. by rewrite Hh.
    + intros Hn. by rewrite Hh.
    + intros o' Ho'. rewrite Hh, Ho'. exists (inst_dict o').
      by rewrite set_inst_dict_const.
  - by apply footprint_set_self.
  - eapply footprint_trans; [by apply (footprint_set_self _ _ _ o (bumped vf values))|].
    eapply footprint_trans; [|apply footprint_conflict_check].
    rewrite <- (conditioned_model tid self vf cv base_qs w).
    apply footprint_write_world.
Qed.

End EverySave.

Section ScopeReads.

Import optimisticLocking.

(** The query reads of an object only its counter and its classes. *)
Lemma active_reads_counters tid model w w' :
  current_state w' !! tid = current_state w !! tid →
  class_ol w' = class_ol w →
  (∀ oid, heap w !! oid = None → heap w' !! oid = None) →
  (∀ oid o, heap w !! oid = Some o →
            ∃ o', heap w' !! oid = Some o' ∧ inst_ol o' = inst_ol o ∧
                  inst_mro o' = inst_mro o) →
  outcome (active tid model) w' = outcome (active tid model) w.
Proof.
  intros Hc Hl Hn Hs. unfold outcome, active. munfold.
  change (getattr_ol tid StThread 0 w') with (w', Ret (default 0 (current_state w' !! tid))).
  change (getattr_ol tid StThread 0 w) with (w, Ret (default 0 (current_state w !! tid))).
  rewrite Hc. destruct (truthy (Some (default 0 (current_state w !! tid)))); [reflexivity|].
  destruct model as [[oid|c bases]|]; [| |reflexivity].
  - unfold getattr_ol. munfold.
    destruct (heap w !! oid) as [o|] eqn:Ho.
    + destruct (Hs _ _ Ho) as (o' & -> & Hol & Hmro). rewrite Hol, Hmro.
      destruct (inst_ol o); [reflexivity|]. by rewrite Hl.
    + by rewrite (Hn _ Ho).
  - unfold getattr_ol. cbn [snd]. by rewrite Hl.
Qed.

End ScopeReads.

(** X6.  A model with no [VersionField] among its fields cannot be saved:
    the update hook and the insert hook both raise [ImproperlyConfigured]
    at once, with no statement sent and nothing changed. *)
Theorem missing_version_field_is_fatal (tid self : nat) (base_qs : queryset)
    (using_ manager : string) (pk_val : Z) (values : list staged)
    (update_fields : option (list string)) (forced_update : bool)
    (fields : list field) (update_pk raw : bool) (o : instance) (w : world) :
  heap w !! self = Some o →
  Forall (λ f, f_is_version f = false) (inst_fields o) →
  VersionedMixin._do_update tid self base_qs using_ pk_val values update_fields
    forced_update w = (w, Raise ImproperlyConfigured) ∧
  VersionedMixin._do_insert self manager using_ fields update_pk raw w
    = (w, Raise ImproperlyConfigured).
Proof.
  intros Ho Hall.
  assert (Hf : List.find f_is_version (inst_fields o) = None).
  { induction (inst_fields o) as [|f rest IH]; [done|].
    apply Forall_cons in Hall as [Hf Hrest]. simpl. rewrite Hf. by apply IH. }
  split.
  - unfold VersionedMixin._do_update, VersionedMixin.get_version_field. munfold.
    by rewrite Ho, Hf.
  - unfold VersionedMixin._do_insert, VersionedMixin.get_version_field. munfold.
    by rewrite Ho, Hf.
Qed.

Lemma missing_version_field_is_fatal_witness :
  let plain := {| inst_mro := ["Memo"]; inst_fields := [title_field]; inst_pk := 1;
                  inst_dict := {["title" := Some 10]}; inst_ol := None |} in
  VersionedMixin._do_update 0 1 doc_qs "default" 1 [(title_field, None, Some 11)] None false
    (library (doc_table (Some 3)) plain true)
  = (library (doc_table (Some 3)) plain true, Raise ImproperlyConfigured) ∧
  VersionedMixin._do_insert 1 "doc" "default" [title_field] false false
    (library (doc_table (Some 3)) plain true)
  = (library (doc_table (Some 3)) plain true, Raise ImproperlyConfigured).
Proof.
  intros plain.
  apply (missing_version_field_is_fatal 0 1 doc_qs "default" "doc" 1
           [(title_field, None, Some 11)] None false [title_field] false false plain
           (library (doc_table (Some 3)) plain true)).
  - reflexivity.
  - repeat (apply Forall_cons; split; [reflexivity|]). apply Forall_nil_2.
Defined.

(** X7.  Whatever its arguments, a save sends at most three statements; a
    save that returns [True] has sent at most one; and a save that raises
    [ConcurrentUpdate] has sent exactly three, in this order: the write,
    the lookup of the row by its key alone, and the reload of the
    record. *)
Theorem save_round_trips (tid self : nat) (base_qs : queryset) (using_ : string)
    (pk_val : Z) (values : list staged) (update_fields : option (list string))
    (forced_update : bool) (w : world) :
  let c := VersionedMixin._do_update tid self base_qs using_ pk_val values
             update_fields forced_update in
  let sent := issued w (after c w) in
  (length sent ≤ 3)%nat ∧
  (outcome c w = Ret true → (length sent ≤ 1)%nat) ∧
  (∀ model, outcome c w = Raise (ConcurrentUpdate model) →
     model = self ∧
     ∃ qs values' models pk,
       sent = [write_stmt qs pk_val values';
               SExists (Model.filter_ base_qs (CPk pk_val));
               SSelect models pk]).
Proof.
  intros c sent. unfold sent, outcome, after, c.
  assert (Hnone : issued w w = []) by by apply (issued_extended _ _ []).
  destruct (do_update_cases tid self base_qs using_ pk_val values update_fields
              forced_update w)
    as [[_ ->] | (o & Ho & [[_ ->] | (vf & Hf & [[_ ->] | (Hm & [[_ ->] |
         (cv & Hd & [[_ (dict & ->)] | [Hp ->]])])])])]; cbn [fst snd];
    rewrite ?Hnone; try (split; [simpl; lia|]; split; [done|]; by intros).
  - destruct (model_do_update_effects base_qs using_ pk_val (VersionedMixin.literal values)
                update_fields forced_update w)
      as (w' & b & stmts & -> & Hq & Hlen & _).
    cbn [fst snd]. rewrite (issued_extended _ _ _ Hq), length_rev.
    split; [lia|]. split; [by intros|]. by intros.
  - rewrite (issued_extended _ _ []) by done.
    split; [simpl; lia|]. split; [done|]. by intros.
  - set (qs := conditioned tid self vf cv base_qs w).
    set (w1 := set_heap <[self := set_inst_dict (bumped vf values) o]> w).
    set (w2 := write_world qs pk_val (rewritten vf values) w1).
    assert (Hq2 : queries w2 = write_stmt qs pk_val (rewritten vf values) :: queries w).
    { unfold w2. by rewrite write_world_queries. }
    clearbody w2.
    destruct (bool_decide (is_Some (selected (db w) qs pk_val))).
    + rewrite conflict_check_updated. cbn [fst snd].
      rewrite (issued_extended _ _ [_] Hq2). split; [simpl; lia|].
      split; [simpl; lia|]. by intros.
    + destruct (conflict_check_cases self base_qs pk_val w2)
        as [[_ ->] | [_ [[_ ->] | (o2 & Ho2 & [[_ ->] | (d & _ & ->)])]]]; cbn [fst snd].
      * rewrite (issued_extended _ _ [_; _]) by (simpl; by rewrite Hq2).
        split; [simpl; lia|]. split; [done|]. by intros.
      * rewrite (issued_extended _ _ [_; _]) by (simpl; by rewrite Hq2).
        split; [simpl; lia|]. split; [done|]. by intros.
      * rewrite (issued_extended _ _ [_; _; _]) by (simpl; by rewrite Hq2).
        split; [simpl; lia|]. split; [done|]. by intros.
      * rewrite (issued_extended _ _ [_; _; _]) by (simpl; by rewrite Hq2).
        split; [simpl; lia|]. split; [done|]. intros model E. simplify_eq.
        split; [done|]. by eexists _, _, _, _.
Qed.

(** X8.  Whatever its arguments, a save changes no row other than the row
    of key [pk_val] in the table of [base_qs]. *)
Theorem save_touches_one_row (tid self : nat) (base_qs : queryset) (using_ : string)
    (pk_val : Z) (values : list staged) (update_fields : option (list string))
    (forced_update : bool) (w : world) (model : string) (pk : Z) :
  model ≠ qs_model base_qs ∨ pk ≠ pk_val →
  Model.table_of
    (db (after (VersionedMixin._do_update tid self base_qs using_ pk_val values
                  update_fields forced_update) w)) model !! pk
  = Model.table_of (db w) model !! pk.
Proof.
  intros Hne.
  destruct (do_update_footprint tid self base_qs using_ pk_val values update_fields
              forced_update w) as (_ & _ & _ & _ & _ & Hrows).
  by apply Hrows.
Qed.

Lemma save_touches_one_row_witness :
  Model.table_of
    (db (after (VersionedMixin._do_update 0 1 doc_qs "default" 1 (full_values (Some 3))
                  None false)
           (library (doc_table (Some 3)) (doc (Some 3)) true))) "doc" !! 2
  = Model.table_of (db (library (doc_table (Some 3)) (doc (Some 3)) true)) "doc" !! 2.
Proof.
  apply (save_touches_one_row 0 1 doc_qs "default" 1 (full_values (Some 3)) None false
           (library (doc_table (Some 3)) (doc (Some 3)) true) "doc" 2).
  right. lia.
Defined.

(** X9.  Whatever its arguments, a save enters and leaves no scope and
    touches no object but its own: the counters of threads, classes and
    objects are as before, every other object is as before, the saved
    object keeps its key, fields, classes and counter, and every scope
    query answers as before. *)
Theorem save_leaves_scopes_alone (tid self : nat) (base_qs : queryset) (using_ : string)
    (pk_val : Z) (values : list staged) (update_fields : option (list string))
    (forced_update : bool) (w : world) :
  let w' := after (VersionedMixin._do_update tid self base_qs using_ pk_val values
                     update_fields forced_update) w in
  current_state w' = current_state w ∧
  class_ol w' = class_ol w ∧
  (∀ oid, oid ≠ self → heap w' !! oid = heap w !! oid) ∧
  (∀ o, heap w !! self = Some o →
        ∃ o', heap w' !! self = Some o' ∧ inst_ol o' = inst_ol o ∧
              inst_mro o' = inst_mro o ∧ inst_fields o' = inst_fields o ∧
              inst_pk o' = inst_pk o) ∧
  (∀ asking model,
     outcome (optimisticLocking.active asking model) w'
     = outcome (optimisticLocking.active asking model) w).
Proof.
  intros w'.
  destruct (do_update_footprint tid self base_qs using_ pk_val values update_fields
              forced_update w) as (Hc & Hl & Ho & Hn & Hs & _).
  fold w' in Hc, Hl, Ho, Hn, Hs.
  split; [done|]. split; [done|]. split; [done|]. split.
  - intros o H. destruct (Hs o H) as [dict Hd]. by eexists.
  - intros asking model. apply active_reads_counters; [by rewrite Hc|done| |].
    + intros oid H. destruct (decide (oid = self)) as [->|Hne]; [by apply Hn|].
      by rewrite Ho.
    + intros oid o H. destruct (decide (oid = self)) as [->|Hne].
      * destruct (Hs o H) as [dict Hd]. by eexists.
      * exists o. by rewrite Ho.
Qed.

(** ** The paths of a save *)

Section Paths.

Import Model VersionedMixin.

Lemma selected_table d qs pk r :
  selected d qs pk = Some r →
  ∃ tbl, d !! qs_model qs = Some tbl ∧ tbl !! pk = Some r ∧
         qs_match (qs_conds qs) pk r = true.
Proof.
  unfold selected, table_of. intros H.
  destruct (d !! qs_model qs) as [tbl|]; simpl in H; [|by rewrite lookup_empty in H].
  exists tbl. split; [done|]. destruct (tbl !! pk) as [r'|]; [|done].
  destruct (qs_match (qs_conds qs) pk r') eqn:Hm; by simplify_eq.
Qed.

(** The row as the conditioned queryset sees it. *)
Lemma selected_conditioned_cases tid self vf cv base_qs pk_val r w :
  selected (db w) base_qs pk_val = Some r →
  selected (db w) (conditioned tid self vf cv base_qs w) pk_val =
    match cv with
    | Some c =>
        if reports_active tid (Some (OInst self)) w
        then (if bool_decide (r !! f_attname vf = Some (Some c)) then Some r else None)
        else Some r
    | None => Some r
    end.
Proof.
  intros Hs. unfold conditioned, locking_applies. destruct cv as [c|]; [|done].
  destruct (reports_active tid (Some (OInst self)) w); [|done].
  destruct (selected_table _ _ _ _ Hs) as (tbl & Ht & Hr & Hm).
  assert (Htbl : table_of (db w) (qs_model base_qs) = tbl)
    by (unfold table_of; by rewrite Ht).
  unfold selected. change (qs_model (filter_ base_qs _)) with (qs_model base_qs).
  rewrite Htbl, Hr, qs_match_filter, Hm. cbn [cond_holds andb].
  by destruct (bool_decide (r !! f_attname vf = Some (Some c))).
Qed.

(** The world after a write that matched the row. *)
Lemma write_world_hit qs pk_val values' r w :
  values' ≠ [] → selected (db w) qs pk_val = Some r →
  write_world qs pk_val values' w =
    log (SUpdate (filter_ qs (CPk pk_val)) values')
      (set_db <[qs_model qs := <[pk_val := apply_values values' r]>
                                 (table_of (db w) (qs_model qs))]> w).
Proof.
  intros Hne Hs. unfold write_world, write_stmt. rewrite Hs. by destruct values'.
Qed.

Lemma rewritten_nonempty vf (values : list staged) :
  Exists (λ e : staged, f_is_version e.1.1 = true) values → rewritten vf values ≠ [].
Proof. intros He E. destruct values; [by apply Exists_nil in He | done]. Qed.

(** A write list that stages a null version, in the entries of the
    version column and only there, leaves that column at its old value
    plus one, NULL staying NULL. *)
Lemma apply_values_increment vf (values : list staged) (r : gmap string pyval) :
  Forall (λ e : staged, f_is_version e.1.1 = true → e.2 = None) values →
  Exists (λ e : staged, f_is_version e.1.1 = true) values →
  Forall (λ e : staged, f_is_version e.1.1 = true ↔ f_attname e.1.1 = f_attname vf) values →
  apply_values (rewritten vf values) r !! f_attname vf
  = Some (eval_wval r (WFInc (f_attname vf))).
Proof.
  unfold apply_values, rewritten.
  assert (G : ∀ (values : list staged) (acc : gmap string pyval),
    Forall (λ e : staged, f_is_version e.1.1 = true → e.2 = None) values →
    Forall (λ e : staged, f_is_version e.1.1 = true ↔ f_attname e.1.1 = f_attname vf)
      values →
    acc !! f_attname vf = Some (eval_wval r (WFInc (f_attname vf))) ∨
      Exists (λ e : staged, f_is_version e.1.1 = true) values →
    foldl (λ acc' (e : written), <[f_attname e.1.1 := eval_wval r e.2]> acc') acc
      (map (rewritten_entry vf) values) !! f_attname vf
    = Some (eval_wval r (WFInc (f_attname vf)))).
  { clear values. induction values as [|[[f m] x] rest IH]; intros acc Ha Hi Hor.
    - destruct Hor as [H|H]; [exact H | by apply Exists_nil in H].
    - apply Forall_cons in Ha as [Ha Ha']. apply Forall_cons in Hi as [Hi Hi'].
      cbn [map foldl]. apply IH; [done|done|]. simpl in Ha, Hi.
      unfold rewritten_entry. cbn [fst snd].
      destruct (f_is_version f) eqn:Hv.
      + left. rewrite (Ha eq_refl). cbn [fst snd]. rewrite (proj1 Hi eq_refl).
        by rewrite lookup_insert_eq.
      + assert (f_attname f ≠ f_attname vf) by (intros E; by apply Hi in E).
        cbn [fst snd]. rewrite lookup_insert_ne by done.
        destruct Hor as [H'|H']; [by left|]. right.
        apply Exists_cons in H' as [H'|H']; [simpl in H'; congruence | done]. }
  intros Ha He Hi. apply G; [done|done|by right].
Qed.

(** A save whose write matches the row. *)
Lemma save_goes_through tid self base_qs using_ pk_val values update_fields forced_update
    o vf c r w :
  heap w !! self = Some o →
  List.find f_is_version (inst_fields o) = Some vf →
  inst_dict o !! f_attname vf = Some (Some c) →
  f_model vf = qs_model base_qs →
  selected (db w) base_qs pk_val = Some r →
  reports_active tid (Some (OInst self)) w = false ∨ r !! f_attname vf = Some (Some c) →
  asserts_pass (Some c) values →
  Exists (λ e : staged, f_is_version e.1.1 = true) values →
  Forall (λ e : staged, f_is_version e.1.1 = true ↔ f_attname e.1.1 = f_attname vf) values →
  let x := _do_update tid self base_qs using_ pk_val values update_fields forced_update in
  outcome x w = Ret true ∧
  (∃ qs, issued w (after x w) = [SUpdate (filter_ qs (CPk pk_val)) (rewritten vf values)]) ∧
  stored (after x w) (qs_model base_qs) pk_val (f_attname vf) = Some (Some (c + 1)) ∧
  attr_of (after x w) self (f_attname vf) = Some (Some (c + 1)).
Proof.
  intros Ho Hf Hd Hm Hs Hor Hp He Hi x. unfold x, outcome, after.
  rewrite (do_update_checked _ _ _ _ _ _ _ _ _ _ _ _ Ho Hf Hd Hm Hp). cbn zeta.
  set (qs := conditioned tid self vf (Some c) base_qs w).
  assert (Hqs : selected (db w) qs pk_val = Some r).
  { unfold qs. rewrite (selected_conditioned_cases _ _ _ _ _ _ _ _ Hs).
    destruct Hor as [-> | Hr]; [done|].
    rewrite bool_decide_eq_true_2 by done. by destruct (reports_active _ _ _). }
  rewrite Hqs. rewrite bool_decide_eq_true_2 by (by eexists).
  rewrite conflict_check_updated. cbn [fst snd].
  rewrite (write_world_hit qs pk_val _ r) by (by apply rewritten_nonempty || exact Hqs).
  assert (Hall : Forall (λ e : staged, f_is_version e.1.1 = true → e.2 = Some c) values).
  { apply Forall_forall. intros [[f m] v] Hin Hv.
    apply list_elem_of_lookup in Hin as [i Hi'].
    rewrite asserts_pass_lookup in Hp. by apply (Hp i f m v). }
  split; [reflexivity|]. split; [|split].
  - exists qs. by apply (issued_extended _ _ [_]).
  - unfold stored. simpl. unfold qs. rewrite conditioned_model.
    rewrite lookup_insert_eq, lookup_insert_eq.
    by rewrite (apply_values_version vf c values r Hp He Hi).
  - unfold attr_of. simpl. rewrite lookup_insert_eq. simpl.
    rewrite (bumped_same _ _ _ _ Hall He). by rewrite lookup_insert_eq.
Qed.

End Paths.

Section Refresh.

Import Model VersionedMixin.

Lemma refresh_from_db_found self o dict w :
  heap w !! self = Some o →
  refresh_fields (db w) (inst_pk o) (inst_fields o) (inst_dict o) = Some dict →
  refresh_from_db self w =
    (set_heap <[self := set_inst_dict (λ _, dict) o]>
       (log (SSelect (map f_model (inst_fields o)) (inst_pk o)) w), Ret tt).
Proof. intros Ho Hd. unfold refresh_from_db. munfold. by rewrite Ho, Hd. Qed.

End Refresh.

(** X10.  A save at a stale version under an active scope writes nothing
    and leaves the caller with the stored record: when the row of a record
    of one table carries another version than the client's, the call
    raises [ConcurrentUpdate], every table is as before, and every loaded
    attribute of the record, the version among them, now holds the value
    of its column. *)
Theorem stale_save_changes_nothing (tid self : nat) (base_qs : queryset) (using_ : string)
    (pk_val : Z) (values : list staged) (update_fields : option (list string))
    (forced_update : bool) (o : instance) (vf : field) (c : Z)
    (r : gmap string pyval) (w : world) :
  heap w !! self = Some o →
  List.find f_is_version (inst_fields o) = Some vf →
  inst_dict o !! f_attname vf = Some (Some c) →
  inst_pk o = pk_val →
  Forall (λ f, f_model f = qs_model base_qs) (inst_fields o) →
  selected (db w) base_qs pk_val = Some r →
  r !! f_attname vf ≠ Some (Some c) →
  reports_active tid (Some (OInst self)) w = true →
  asserts_pass (Some c) values →
  let x := VersionedMixin._do_update tid self base_qs using_ pk_val values
             update_fields forced_update in
  outcome x w = Raise (ConcurrentUpdate self) ∧
  db (after x w) = db w ∧
  ∀ f, f ∈ inst_fields o → is_Some (inst_dict o !! f_attname f) →
       attr_of (after x w) self (f_attname f) = Some (default None (r !! f_attname f)).
Proof.
  intros Ho Hf Hd Hpk Hone Hs Hne Hact Hp x.
  assert (Hm : f_model vf = qs_model base_qs).
  { apply find_some in Hf as [Hin _]. rewrite Forall_forall in Hone.
    apply Hone. by apply list_elem_of_In. }
  unfold x, outcome, after.
  rewrite (do_update_checked _ _ _ _ _ _ _ _ _ _ _ _ Ho Hf Hd Hm Hp). cbn zeta.
  set (qs := conditioned tid self vf (Some c) base_qs w).
  assert (Hqs : selected (db w) qs pk_val = None).
  { unfold qs. rewrite (selected_conditioned_cases _ _ _ _ _ _ _ _ Hs), Hact.
    by rewrite bool_decide_eq_false_2. }
  rewrite Hqs. rewrite bool_decide_eq_false_2 by (by intros [? ?]).
  rewrite write_world_missed by exact Hqs.
  assert (He : row_exists w base_qs pk_val = true).
  { rewrite row_exists_selected, Hs. apply bool_decide_eq_true_2. by eexists. }
  rewrite conflict_check_found by exact He.
  destruct (selected_table _ _ _ _ Hs) as (tbl & Ht & Hr & _).
  destruct (refresh_fields_single_table (db w) pk_val _ tbl r (inst_fields o) Ht Hr Hone
              (bumped vf values (inst_dict o))) as (dict & E & Hg).
  rewrite (refresh_from_db_found self (set_inst_dict (bumped vf values) o) dict).
  - cbn [fst snd]. split; [reflexivity|]. split; [reflexivity|].
    intros f Hin Hl. unfold attr_of. simpl. rewrite lookup_insert_eq. simpl.
    apply (Hg (f_attname f)).
    + by apply bumped_loaded.
    + by apply list_elem_of_In, in_map, list_elem_of_In.
  - simpl. by rewrite lookup_insert_eq.
  - simpl. by rewrite Hpk.
Qed.

Lemma stale_save_changes_nothing_witness :
  let w := library (doc_table (Some 4)) (doc (Some 3)) true in
  let x := VersionedMixin._do_update 0 1 doc_qs "default" 1 (full_values (Some 3))
             None false in
  outcome x w = Raise (ConcurrentUpdate 1) ∧
  db (after x w) = db w ∧
  ∀ f, f ∈ inst_fields (doc (Some 3)) →
       is_Some (inst_dict (doc (Some 3)) !! f_attname f) →
       attr_of (after x w) 1 (f_attname f)
       = Some (default None
                 (({["title" := Some 10; "version" := Some 4]} : gmap string pyval)
                    !! f_attname f)).
Proof.
  apply (stale_save_changes_nothing 0 1 doc_qs "default" 1 (full_values (Some 3)) None false
           (doc (Some 3)) version_field 3 {["title" := Some 10; "version" := Some 4]}
           (library (doc_table (Some 4)) (doc (Some 3)) true)).
  - reflexivity.
  - reflexivity.
  - reflexivity.
  - reflexivity.
  - repeat (apply Forall_cons; split; [reflexivity|]). apply Forall_nil_2.
  - vm_compute. reflexivity.
  - vm_compute. discriminate.
  - vm_compute. reflexivity.
  - repeat (apply Forall_cons; split; [by simpl|]). apply Forall_nil_2.
Defined.

(** X11.  A save with a non-null client version [c], [c + 1] within the
    range of the version column, that stages the version goes through
    when the scope is inactive, whatever version the row carries, or when
    the row carries [c]: it returns [True] after one UPDATE, and the
    stored version and the version in memory are both [c + 1].  Without
    an active scope a stale save thus overwrites the row, and the stored
    version can go down. *)
Theorem matching_save_goes_through (tid self : nat) (base_qs : queryset) (using_ : string)
    (pk_val : Z) (values : list staged) (update_fields : option (list string))
    (forced_update : bool) (o : instance) (vf : field) (c : Z)
    (r : gmap string pyval) (w : world) :
  heap w !! self = Some o →
  List.find f_is_version (inst_fields o) = Some vf →
  inst_dict o !! f_attname vf = Some (Some c) →
  in_column (c + 1) →
  f_model vf = qs_model base_qs →
  selected (db w) base_qs pk_val = Some r →
  reports_active tid (Some (OInst self)) w = false ∨ r !! f_attname vf = Some (Some c) →
  asserts_pass (Some c) values →
  Exists (λ e : staged, f_is_version e.1.1 = true) values →
  Forall (λ e : staged, f_is_version e.1.1 = true ↔ f_attname e.1.1 = f_attname vf) values →
  let x := VersionedMixin._do_update tid self base_qs using_ pk_val values
             update_fields forced_update in
  outcome x w = Ret true ∧
  (∃ qs, issued w (after x w)
         = [SUpdate (Model.filter_ qs (CPk pk_val)) (rewritten vf values)]) ∧
  stored (after x w) (qs_model base_qs) pk_val (f_attname vf) = Some (Some (c + 1)) ∧
  attr_of (after x w) self (f_attname vf) = Some (Some (c + 1)).
Proof. intros Ho Hf Hd _. by apply (save_goes_through _ _ _ _ _ _ _ _ o). Qed.

Lemma matching_save_goes_through_witness :
  let w := library (doc_table (Some 9)) (doc (Some 3)) false in
  let x := VersionedMixin._do_update 0 1 doc_qs "default" 1 (full_values (Some 3))
             None false in
  stored w "doc" 1 "version" = Some (Some 9) ∧
  outcome x w = Ret true ∧
  stored (after x w) "doc" 1 "version" = Some (Some (3 + 1)).
Proof.
  split; [reflexivity|].
  assert (H := matching_save_goes_through 0 1 doc_qs "default" 1 (full_values (Some 3))
           None false (doc (Some 3)) version_field 3
           {["title" := Some 10; "version" := Some 9]}
           (library (doc_table (Some 9)) (doc (Some 3)) false)).
  refine ((λ H', conj (proj1 H') (proj1 (proj2 (proj2 H')))) (H _ _ _ _ _ _ _ _ _ _)).
  - reflexivity.
  - reflexivity.
  - reflexivity.
  - unfold in_column, version_max. lia.
  - reflexivity.
  - vm_compute. reflexivity.
  - left. vm_compute. reflexivity.
  - repeat (apply Forall_cons; split; [by simpl|]). apply Forall_nil_2.
  - apply Exists_cons_tl, Exists_cons_hd. reflexivity.
  - repeat (apply Forall_cons; split; [by simpl|]). apply Forall_nil_2.
Defined.

(** X12.  A save with a null client version that stages the version as
    null lets the database count: whatever the scopes and whatever
    version the row carries (its successor within the range of the
    version column), it returns [True] after one UPDATE, the stored
    version is the old one plus one (a NULL version stays NULL), and no
    object in memory is changed, the record keeping its null version. *)
Theorem null_version_save_increments_in_store (tid self : nat) (base_qs : queryset)
    (using_ : string) (pk_val : Z) (values : list staged)
    (update_fields : option (list string)) (forced_update : bool) (o : instance)
    (vf : field) (r : gmap string pyval) (w : world) :
  heap w !! self = Some o →
  List.find f_is_version (inst_fields o) = Some vf →
  inst_dict o !! f_attname vf = Some None →
  f_model vf = qs_model base_qs →
  selected (db w) base_qs pk_val = Some r →
  (∀ s, r !! f_attname vf = Some (Some s) → in_column (s + 1)) →
  Forall (λ e : staged, f_is_version e.1.1 = true → e.2 = None) values →
  Exists (λ e : staged, f_is_version e.1.1 = true) values →
  Forall (λ e : staged, f_is_version e.1.1 = true ↔ f_attname e.1.1 = f_attname vf) values →
  let x := VersionedMixin._do_update tid self base_qs using_ pk_val values
             update_fields forced_update in
  outcome x w = Ret true ∧
  issued w (after x w)
    = [SUpdate (Model.filter_ base_qs (CPk pk_val)) (rewritten vf values)] ∧
  stored (after x w) (qs_model base_qs) pk_val (f_attname vf)
    = Some (match r !! f_attname vf with
            | Some (Some s) => Some (s + 1)
            | _ => None
            end) ∧
  heap (after x w) = heap w.
Proof.
  intros Ho Hf Hd Hm Hs _ Hnone He Hi x.
  assert (Hp : asserts_pass None values) by (apply Forall_forall; by intros).
  unfold x, outcome, after.
  rewrite (do_update_checked _ _ _ _ _ _ _ _ _ _ _ _ Ho Hf Hd Hm Hp). cbn zeta.
  change (conditioned tid self vf None base_qs w) with base_qs.
  rewrite Hs. rewrite bool_decide_eq_true_2 by (by eexists).
  rewrite conflict_check_updated. cbn [fst snd].
  rewrite (write_world_hit base_qs pk_val _ r) by (by apply rewritten_nonempty || exact Hs).
  assert (Hsame : set_inst_dict (bumped vf values) o = o).
  { destruct o. unfold set_inst_dict. simpl. f_equal. by apply bumped_none. }
  split; [reflexivity|]. split; [|split].
  - by apply (issued_extended _ _ [_]).
  - unfold stored. simpl. rewrite lookup_insert_eq, lookup_insert_eq.
    by rewrite (apply_values_increment vf values r Hnone He Hi).
  - simpl. rewrite Hsame. by apply insert_id.
Qed.

Lemma null_version_save_increments_in_store_witness :
  let w := library (doc_table (Some 9)) (doc None) true in
  let x := VersionedMixin._do_update 0 1 doc_qs "default" 1 (full_values None) None false in
  outcome x w = Ret true ∧
  stored (after x w) "doc" 1 "version" = Some (Some 10) ∧
  heap (after x w) = heap w.
Proof.
  assert (H := null_version_save_increments_in_store 0 1 doc_qs "default" 1
           (full_values None) None false (doc None) version_field
           {["title" := Some 10; "version" := Some 9]}
           (library (doc_table (Some 9)) (doc None) true)).
  refine ((λ H', conj (proj1 H')
                   (conj (proj1 (proj2 (proj2 H'))) (proj2 (proj2 (proj2 H')))))
            (H _ _ _ _ _ _ _ _ _)).
  - reflexivity.
  - reflexivity.
  - reflexivity.
  - reflexivity.
  - vm_compute. reflexivity.
  - intros s Hs. vm_compute in Hs. injection Hs as <-. unfold in_column, version_max. lia.
  - repeat (apply Forall_cons; split; [by simpl|]). apply Forall_nil_2.
  - apply Exists_cons_tl, Exists_cons_hd. reflexivity.
  - repeat (apply Forall_cons; split; [by simpl|]). apply Forall_nil_2.
Defined.

(** X13.  A save with nothing to write is still checked: on the model of
    the version field, with an empty write list, the call looks the row
    up through the conditioned queryset whatever [update_fields] is, and
    returns [True] exactly when that queryset holds the row; the base
    class alone, given [update_fields], would answer [True] without a
    statement. *)
Theorem empty_save_is_still_checked (tid self : nat) (base_qs : queryset) (using_ : string)
    (pk_val : Z) (update_fields : option (list string)) (forced_update : bool)
    (vf : field) (cv : pyval) (w : world) :
  versioned w self vf cv →
  f_model vf = qs_model base_qs →
  let x := VersionedMixin._do_update tid self base_qs using_ pk_val [] update_fields
             forced_update in
  let qs := conditioned tid self vf cv base_qs w in
  (∃ rest, issued w (after x w) = SExists (Model.filter_ qs (CPk pk_val)) :: rest) ∧
  (outcome x w = Ret true ↔ is_Some (selected (db w) qs pk_val)) ∧
  ∀ names, Model._do_update base_qs using_ pk_val [] (Some names) forced_update w
           = (w, Ret true).
Proof.
  intros (o & Ho & Hf & Hd) Hm x qs.
  assert (Hp : asserts_pass cv []) by constructor.
  split; [|split].
  - destruct (do_update_first_statement tid self base_qs using_ pk_val [] update_fields
                forced_update o vf cv w Ho Hf Hd Hm Hp) as [rest Hrest].
    exists rest. exact Hrest.
  - unfold x, outcome.
    rewrite (do_update_checked _ _ _ _ _ _ _ _ _ _ _ _ Ho Hf Hd Hm Hp). cbn zeta.
    fold qs. destruct (selected (db w) qs pk_val) as [r|] eqn:Hs.
    + rewrite bool_decide_eq_true_2 by (by eexists).
      rewrite conflict_check_updated. split; [by eexists | done].
    + rewrite bool_decide_eq_false_2 by (by intros [? ?]).
      split; [|by intros [? ?]]. intros E. exfalso.
      destruct (conflict_check_cases self base_qs pk_val
                  (write_world qs pk_val (rewritten vf [])
                     (set_heap <[self := set_inst_dict (bumped vf []) o]> w)))
        as [[_ Hc] | [_ [[_ Hc] | (o2 & _ & [[_ Hc] | (d & _ & Hc)])]]];
        rewrite Hc in E; discriminate.
  - intros names. reflexivity.
Qed.

Lemma empty_save_is_still_checked_witness :
  let w := library (doc_table (Some 4)) (doc (Some 3)) true in
  let x := VersionedMixin._do_update 0 1 doc_qs "default" 1 [] (Some ["title"]) false in
  let qs := conditioned 0 1 version_field (Some 3) doc_qs w in
  (∃ rest, issued w (after x w) = SExists (Model.filter_ qs (CPk 1)) :: rest) ∧
  (outcome x w = Ret true ↔ is_Some (selected (db w) qs 1)) ∧
  ∀ names, Model._do_update doc_qs "default" 1 [] (Some names) false w = (w, Ret true).
Proof.
  apply (empty_save_is_still_checked 0 1 doc_qs "default" 1 (Some ["title"]) false
           version_field (Some 3) (library (doc_table (Some 4)) (doc (Some 3)) true)).
  - exists (doc (Some 3)). repeat split; reflexivity.
  - reflexivity.
Defined.

(** X14.  Insert, then save.  A record inserted with a null version (its
    key assigned by the database, or its own and free; the default of the
    version field and its successor within the range of the column) and
    then saved by the key of the inserted row, its write list staging the
    default the insert put in memory, goes through whatever the scopes:
    the save returns [True], and the stored version and the version in
    memory are both the default plus one. *)
Theorem insert_then_save (tid self : nat) (using_ : string) (fields : list field)
    (update_pk raw : bool) (values : list staged) (update_fields : option (list string))
    (forced_update : bool) (o : instance) (vf : field) (d : Z) (w : world) :
  let key := if update_pk then Model.fresh_key (Model.table_of (db w) (f_model vf))
             else inst_pk o in
  heap w !! self = Some o →
  List.find f_is_version (inst_fields o) = Some vf →
  f_default vf = Some d →
  in_column d → in_column (d + 1) →
  inst_dict o !! f_attname vf = Some None →
  (update_pk = false → Model.table_of (db w) (f_model vf) !! inst_pk o = None) →
  vf ∈ fields →
  Forall (λ f, is_Some (inst_dict o !! f_attname f)) fields →
  asserts_pass (Some d) values →
  Exists (λ e : staged, f_is_version e.1.1 = true) values →
  Forall (λ e : staged, f_is_version e.1.1 = true ↔ f_attname e.1.1 = f_attname vf) values →
  let base_qs := {| qs_model := f_model vf; qs_conds := [] |} in
  let x := do! VersionedMixin._do_insert self (f_model vf) using_ fields update_pk raw in
           VersionedMixin._do_update tid self base_qs using_ key values
             update_fields forced_update in
  outcome x w = Ret true ∧
  stored (after x w) (f_model vf) key (f_attname vf) = Some (Some (d + 1)) ∧
  attr_of (after x w) self (f_attname vf) = Some (Some (d + 1)).
Proof.
  intros key Ho Hf Hdef _ _ Hd Hfree Hin Hl Hp He Hi base_qs x.
  set (o1 := set_inst_dict <[f_attname vf := f_default vf]> o).
  set (w1 := set_heap <[self := o1]> w).
  assert (Ho1 : heap w1 !! self = Some o1) by (unfold w1; simpl; by rewrite lookup_insert_eq).
  assert (Hl1 : Forall (λ f, is_Some (inst_dict o1 !! f_attname f)) fields).
  { eapply Forall_impl; [exact Hl|]. intros f [v Hv]. unfold o1. simpl.
    destruct (decide (f_attname vf = f_attname f)) as [->|Hne].
    - rewrite lookup_insert_eq. by eexists.
    - rewrite lookup_insert_ne by done. by eexists. }
  assert (Hkey : Model.table_of (db w) (f_model vf) !! key = None).
  { unfold key. destruct update_pk; [apply fresh_key_free | by apply Hfree]. }
  destruct (model_do_insert_loaded self o1 (f_model vf) using_ fields update_pk raw w1
              Ho1 Hl1) as (r & Hr & E).
  cbn zeta in E. change (db w1) with (db w) in E. change (inst_pk o1) with (inst_pk o) in E.
  fold key in E. rewrite Hkey in E.
  assert (Hrv : r !! f_attname vf = Some (Some d)).
  { rewrite (Hr vf Hin). unfold o1. simpl. by rewrite lookup_insert_eq, Hdef. }
  set (w2 := log (SInsert (f_model vf) key)
               (set_db <[f_model vf := <[key := r]> (Model.table_of (db w) (f_model vf))]>
                  w1)) in E.
  assert (Ex : x w = VersionedMixin._do_update tid self base_qs using_ key values
                       update_fields forced_update w2).
  { unfold x. unfold bind.
    rewrite (do_insert_loaded self o vf None _ _ _ _ _ w Ho Hf Hd).
    fold o1. fold w1. by rewrite E. }
  assert (Hd1 : inst_dict o1 !! f_attname vf = Some (Some d)).
  { unfold o1. simpl. by rewrite lookup_insert_eq, Hdef. }
  assert (Hs2 : selected (db w2) base_qs key = Some r).
  { unfold selected, Model.table_of, w2. simpl.
    rewrite lookup_insert_eq. simpl. by rewrite lookup_insert_eq. }
  destruct (save_goes_through tid self base_qs using_ key values update_fields
              forced_update o1 vf d r w2 Ho1 Hf Hd1 eq_refl Hs2 (or_intror Hrv) Hp He Hi)
    as (H1 & _ & H3 & H4).
  unfold outcome, after in *. rewrite Ex. done.
Qed.

Lemma insert_then_save_witness :
  let w := library ∅ (new_doc version_field) true in
  let x := do! VersionedMixin._do_insert 1 "doc" "default" [title_field; version_field]
                 false false in
           VersionedMixin._do_update 0 1 doc_qs "default" 1 (full_values (Some 0))
             None false in
  outcome x w = Ret true ∧
  stored (after x w) "doc" 1 "version" = Some (Some (0 + 1)) ∧
  attr_of (after x w) 1 "version" = Some (Some (0 + 1)).
Proof.
  apply (insert_then_save 0 1 "default" [title_field; version_field] false false
           (full_values (Some 0)) None false (new_doc version_field) version_field 0
           (library ∅ (new_doc version_field) true)).
  - reflexivity.
  - reflexivity.
  - reflexivity.
  - unfold in_column, version_max. lia.
  - unfold in_column, version_max. lia.
  - reflexivity.
  - reflexivity.
  - apply list_elem_of_further, list_elem_of_here.
  - repeat (apply Forall_cons; split; [by eexists|]). apply Forall_nil_2.
  - repeat (apply Forall_cons; split; [by simpl|]). apply Forall_nil_2.
  - apply Exists_cons_tl, Exists_cons_hd. reflexivity.
  - repeat (apply Forall_cons; split; [by simpl|]). apply Forall_nil_2.
Defined.

(** ** The form field of the version *)

